(** * bMRI voxel-wise fitting: a shallow embedding of the fitting engine

    The development follows the Python sources
    - [src/Fitting/AbstractFitting.py]: [fit_pixel], [calculate_r2],
      [get_r2] and [AbstractFitting.fit];
    - [Fitting/T1rho.py]: the two T1rho signal models and [T1rho.__init__];
    - [Fitting/FittingMap.py]: [FittedMap.__init__] and [FittedMap.__call__];
    - [src/Visualization/image_viewer.py]: [calc_scaling_factor].

    Numbers.  A NumPy [float64] is modelled by its value domain: a finite
    value, the two infinities and NaN, with the IEEE-754 rules for the
    special values (NaN is absorbing, every comparison with NaN is false,
    [inf - inf], [0 * inf], [0 / 0] and [inf / inf] are NaN, a non-zero
    finite value divided by zero is an infinity).  Finite values are exact
    rationals kept in lowest terms; rounding and overflow of finite
    arithmetic and the sign of zero are not modelled.

    Effects.  A function that may raise returns a [result].  A function
    that writes to the array it is given ([fit_pixel], [calculate_r2])
    returns the content of that array along with its outcome; the engine
    writes it back through the view it passed.  [fit] runs on a heap, so
    that the caller's volume and the engine's copy are two objects.

    Library code ([scipy.optimize.curve_fit], [numpy.polyfit], [numpy.exp],
    [numpy.log], [numpy.sin], [numpy.cos], [numpy.percentile]) is not part
    of the repository: it is taken as a parameter, see [externals] and the
    argument [percentile] of the refiner.  So is the order in which the
    workers of a process pool report their failures. *)

From Stdlib Require Import QArith Qreduction Qround Lqa.
From stdpp Require Import gmap strings list sorting.

(** ** Numbers *)

Module F64.

Inductive f64 : Type :=
  | NaN
  | NInf
  | Fin (q : Q)
  | PInf.

(** A finite value, in lowest terms. *)
Definition fin (q : Q) : f64 := Fin (Qred q).

Definition of_Z (z : Z) : f64 := Fin (inject_Z z).
Definition of_nat (n : nat) : f64 := of_Z (Z.of_nat n).

Definition zero : f64 := Fin 0.
Definition one : f64 := Fin 1.

Definition isnan (x : f64) : bool :=
  match x with NaN => true | _ => false end.

Definition isfinite (x : f64) : bool :=
  match x with Fin _ => true | _ => false end.

Definition is_zero (x : f64) : bool :=
  match x with Fin q => Qeq_bool q 0 | _ => false end.

Definition neg (x : f64) : f64 :=
  match x with
  | NaN => NaN
  | NInf => PInf
  | PInf => NInf
  | Fin q => fin (- q)
  end.

Definition add (x y : f64) : f64 :=
  match x, y with
  | NaN, _ | _, NaN => NaN
  | PInf, NInf | NInf, PInf => NaN
  | PInf, _ | _, PInf => PInf
  | NInf, _ | _, NInf => NInf
  | Fin a, Fin b => fin (a + b)
  end.

Definition sub (x y : f64) : f64 := add x (neg y).

(** The infinity with the sign of [c], NaN for a zero. *)
Definition signed_inf (c : comparison) : f64 :=
  match c with Gt => PInf | Lt => NInf | Eq => NaN end.

Definition mul (x y : f64) : f64 :=
  match x, y with
  | NaN, _ | _, NaN => NaN
  | Fin a, Fin b => fin (a * b)
  | PInf, Fin b | Fin b, PInf => signed_inf (b ?= 0)%Q
  | NInf, Fin b | Fin b, NInf => signed_inf (0 ?= b)%Q
  | PInf, PInf | NInf, NInf => PInf
  | PInf, NInf | NInf, PInf => NInf
  end.

(** NumPy's true division: a zero divisor gives an infinity or NaN. *)
Definition div (x y : f64) : f64 :=
  match x, y with
  | NaN, _ | _, NaN => NaN
  | Fin a, Fin b =>
      if Qeq_bool b 0 then signed_inf (a ?= 0)%Q else fin (a / b)
  | Fin _, (PInf | NInf) => zero
  | (PInf | NInf), (PInf | NInf) => NaN
  | PInf, Fin b => match (b ?= 0)%Q with Lt => NInf | _ => PInf end
  | NInf, Fin b => match (b ?= 0)%Q with Lt => PInf | _ => NInf end
  end.

(** [x < y]; false as soon as one side is NaN. *)
Definition ltb (x y : f64) : bool :=
  match x, y with
  | NaN, _ | _, NaN => false
  | NInf, NInf => false
  | NInf, _ => true
  | _, NInf => false
  | PInf, _ => false
  | Fin _, PInf => true
  | Fin a, Fin b => match (a ?= b)%Q with Lt => true | _ => false end
  end.

(** [x > y] *)
Definition gtb (x y : f64) : bool := ltb y x.

(** [x >= y] *)
Definition geb (x y : f64) : bool :=
  match x, y with
  | NaN, _ | _, NaN => false
  | _, NInf => true
  | PInf, _ => true
  | NInf, _ => false
  | Fin _, PInf => false
  | Fin a, Fin b => match (a ?= b)%Q with Lt => false | _ => true end
  end.

(** [x == y] *)
Definition eqb (x y : f64) : bool :=
  match x, y with
  | NInf, NInf | PInf, PInf => true
  | Fin a, Fin b => Qeq_bool a b
  | _, _ => false
  end.

(** [x ** 2] *)
Definition sq (x : f64) : f64 := mul x x.

(** Python's built-in [max(a, b)]: [b] when [b > a], else [a]. *)
Definition pymax (a b : f64) : f64 := if gtb b a then b else a.
(** Python's built-in [min(a, b)]: [b] when [b < a], else [a]. *)
Definition pymin (a b : f64) : f64 := if ltb b a then b else a.

(** One step of NumPy's NaN-propagating maximum and minimum. *)
Definition maximum (a b : f64) : f64 :=
  if isnan a then a else if isnan b then b else if ltb a b then b else a.
Definition minimum (a b : f64) : f64 :=
  if isnan a then a else if isnan b then b else if ltb b a then b else a.

End F64.
Export F64.

(** ** Exceptions and results *)

(** A constructor stands for the Python class and its subclasses. *)
Inductive exn : Type :=
  | AssertionError
  | ValueError
  | RuntimeError
  | TypeError
  | IndexError
  | ZeroDivisionError
  | KeyError
  | AttributeError
  | OtherError (name : string).

Inductive result (A : Type) : Type :=
  | Ok (a : A)
  | Raise (e : exn).
Arguments Ok {A} a.
Arguments Raise {A} e.

Global Instance result_ret : MRet result := @Ok.
Global Instance result_bind : MBind result := λ A B k r,
  match r with Ok a => k a | Raise e => Raise e end.
Global Instance result_fmap : FMap result := λ A B f r,
  match r with Ok a => Ok (f a) | Raise e => Raise e end.

Definition is_ok {A} (r : result A) : bool :=
  match r with Ok _ => true | Raise _ => false end.

(** [assert c] *)
Definition assert (c : bool) : result unit :=
  if c then Ok tt else Raise AssertionError.

Fixpoint rmapM {A B} (f : A → result B) (l : list A) : result (list B) :=
  match l with
  | [] => Ok []
  | a :: l' => b ← f a; bs ← rmapM f l'; Ok (b :: bs)
  end.

Fixpoint rfoldM {A B} (f : A → B → result A) (l : list B) (a : A) : result A :=
  match l with
  | [] => Ok a
  | b :: l' => a' ← f a b; rfoldM f l' a'
  end.

(** ** NumPy arrays *)

(** An array is its shape and its cells, keyed by index tuples.  Reads and
    writes check the index against the shape, as NumPy does. *)
Record ndarray : Type := NdArray {
  shape : list nat;
  cells : gmap (list nat) f64;
}.

Global Instance f64_inhabited : Inhabited f64 := populate NaN.
Global Instance ndarray_inhabited : Inhabited ndarray :=
  populate (NdArray [] ∅).

(** [len(a.shape)] *)
Definition ndim (a : ndarray) : nat := length (shape a).

(** All index tuples of a shape, in row-major (C) order. *)
Fixpoint indices (sh : list nat) : list (list nat) :=
  match sh with
  | [] => [[]]
  | n :: sh' => i ← seq 0 n; (cons i) <$> indices sh'
  end.

Fixpoint in_bounds (sh idx : list nat) : bool :=
  match sh, idx with
  | [], [] => true
  | n :: sh', i :: idx' => (i <? n)%nat && in_bounds sh' idx'
  | _, _ => false
  end.

Definition get (a : ndarray) (idx : list nat) : f64 := cells a !!! idx.

(** [a[idx]] for a full index tuple *)
Definition getitem (a : ndarray) (idx : list nat) : result f64 :=
  if in_bounds (shape a) idx then Ok (get a idx) else Raise IndexError.

(** [a[idx] = v] for a full index tuple *)
Definition setitem (a : ndarray) (idx : list nat) (v : f64) : result ndarray :=
  if in_bounds (shape a) idx
  then Ok (NdArray (shape a) (<[idx := v]> (cells a)))
  else Raise IndexError.

(** [np.full(sh, v)] *)
Definition full (sh : list nat) (v : f64) : ndarray :=
  NdArray sh (list_to_map ((λ idx, (idx, v)) <$> indices sh)).

(** [np.zeros(sh)] *)
Definition zeros (sh : list nat) : ndarray := full sh zero.

(** A one-dimensional array holding the list [ys]. *)
Definition array1 (ys : list f64) : ndarray :=
  NdArray [length ys] (list_to_map (imap (λ t v, ([t], v)) ys)).

Definition insert_at {A} (n : nat) (x : A) (l : list A) : list A :=
  take n l ++ x :: drop n l.

(** [np.expand_dims(a, axis)]: a new axis of length one at position [axis] *)
Definition expand_dims (a : ndarray) (axis : nat) : ndarray :=
  NdArray (insert_at axis 1%nat (shape a))
          (kmap (insert_at axis 0%nat) (cells a)).

(** [np.nonzero(a)], zipped: the index tuples of the non-zero cells in
    row-major order.  NaN and the infinities are non-zero. *)
Definition nonzero (a : ndarray) : list (list nat) :=
  filter (λ idx, is_zero (get a idx) = false) (indices (shape a)).

(** [a[:, i, j, k]] of a four-dimensional array: the series of the voxel. *)
Definition series (a : ndarray) (v : list nat) : result (list f64) :=
  match shape a with
  | T :: sp =>
      if (length sp =? 3)%nat && in_bounds sp v
      then Ok ((λ t, get a (t :: v)) <$> seq 0 T)
      else Raise IndexError
  | [] => Raise IndexError
  end.

(** Writing a series back through the view [a[:, i, j, k]]. *)
Definition write_series (a : ndarray) (v : list nat) (ys : list f64) : ndarray :=
  NdArray (shape a)
          (foldr (λ '(t, y) m, <[t :: v := y]> m) (cells a)
                 (zip (seq 0 (length ys)) ys)).

(** [a[:, 0, 0, 0]]: for a four-dimensional array the series of the corner
    voxel, for more dimensions the remaining sub-array, and an [IndexError]
    for fewer dimensions or an empty spatial axis. *)
Definition corner (a : ndarray) : result ndarray :=
  match shape a with
  | T :: n1 :: n2 :: n3 :: rest =>
      if in_bounds [n1; n2; n3] [0; 0; 0]%nat
      then Ok (NdArray (T :: rest)
                 (list_to_map
                    ((λ idx, (idx, get a (take 1 idx ++ [0; 0; 0]%nat ++ drop 1 idx)))
                       <$> indices (T :: rest))))
      else Raise IndexError
  | _ => Raise IndexError
  end.

(** ** One-dimensional NumPy operations *)

(** [np.max(y)], [y.max()]: NaN-propagating, [ValueError] on an empty array *)
Definition np_max (y : list f64) : result f64 :=
  match y with
  | [] => Raise ValueError
  | v :: r => Ok (foldl maximum v r)
  end.

(** [np.min(y)] *)
Definition np_min (y : list f64) : result f64 :=
  match y with
  | [] => Raise ValueError
  | v :: r => Ok (foldl minimum v r)
  end.

(** [a - b] on one-dimensional arrays, with NumPy's broadcasting. *)
Definition np_sub (a b : list f64) : result (list f64) :=
  if (length a =? length b)%nat then Ok (zip_with sub a b)
  else match a, b with
       | _, [b0] => Ok ((λ v, sub v b0) <$> a)
       | [a0], _ => Ok ((λ v, sub a0 v) <$> b)
       | _, _ => Raise ValueError
       end.

(** [l[i]] on a Python sequence *)
Definition item (l : list f64) (i : nat) : result f64 :=
  match l !! i with Some v => Ok v | None => Raise IndexError end.

(** ** Library code taken as a parameter *)

(** A Python callable used as signal model: [call f x params] is
    [f(x, *params)].  [picklable] tells whether [pickle] can serialise the
    function object: it can for a function defined at the top level of a
    module, it cannot for a function defined inside another one, such as
    the models that [fit_T1rho_wrapper_raush] and
    [fit_T1rho_wrapper_aronen] of [Fitting/T1rho.py] return; CPython's
    pickler reports such a local object with an [AttributeError]. *)
Record callable : Type := Callable {
  call : list f64 → list f64 → result (list f64);
  picklable : bool;
}.

(** Values found in the keyword dictionary of [curve_fit]. *)
Inductive pyval : Type :=
  | VFloat (v : f64)
  | VInt (z : Z)
  | VList (l : list f64)
  | VPair (lo hi : list f64)
  | VStr (s : string).

Record externals : Type := Externals {
  (** [scipy.optimize.curve_fit(f, xdata, ydata, **kwargs)[0]] *)
  curve_fit : callable → list f64 → ndarray → gmap string pyval → result (list f64);
  (** [np.polyfit(x, y, 1)], as the pair (slope, intercept) *)
  polyfit1 : list f64 → list f64 → result (f64 * f64);
  np_exp : f64 → f64;
  np_log : f64 → f64;
  np_sin : f64 → f64;
  np_cos : f64 → f64;
  (** [src.Utilitis.utils.get_function_parameter], absent from the sources:
      the names of the parameters of the model *)
  get_function_parameter : callable → list string;
  (** [multiprocessing]: which of the tasks that fail in a pool reports
      first, as an index into the exceptions of the failing tasks in the
      order of the tasks *)
  pool_schedule : list exn → nat;
}.

(** ** The goodness-of-fit evaluator *)

(** A scalar [a / b] inside an [@njit] function.  [get_r2] is decorated
    with a bare [@njit], so numba compiles it with its default
    [error_model='python']: a division by zero raises
    [ZeroDivisionError]. *)
Definition njit_div (a b : f64) : result f64 :=
  if is_zero b then Raise ZeroDivisionError else Ok (div a b).

(** numba's [np.sum]: a running sum from zero. *)
Definition np_sum (y : list f64) : f64 := foldl add zero y.

(** numba's [np.mean]: the running sum divided by the size. *)
Definition np_mean (y : list f64) : result f64 :=
  njit_div (np_sum y) (of_nat (length y)).

Definition get_r2 (residuals y : list f64) : result f64 :=
  let ss_res := np_sum (sq <$> residuals) in
  m ← np_mean y;
  let ss_tot := np_sum ((λ v, sq (sub v m)) <$> y) in
  q ← njit_div ss_res ss_tot;
  Ok (sub one q).

(** [y /= y.max()] *)
Definition normalize_eval (y : list f64) : result (list f64) :=
  m ← np_max y; Ok ((λ v, div v m) <$> y).

(** [calculate_r2]: the first component is the content of the caller's
    array [y] when the call ends, the second the outcome. *)
Definition calculate_r2 (E : externals) (y : list f64) (f : callable)
    (param x : list f64) (normalize : bool) : list f64 * result f64 :=
  match (if normalize then normalize_eval y else Ok y) with
  | Raise e => (y, Raise e)
  | Ok y1 =>
      (y1, pred ← call f x param;
           residuals ← np_sub y1 pred;
           get_r2 residuals y1)
  end.

(** ** The per-voxel solver *)

(** [y /= np.max(y) if np.max(y) > 0 else 1] *)
Definition normalize_fit (y : list f64) : result (list f64) :=
  m ← np_max y;
  let d := if gtb m zero then m else one in
  Ok ((λ v, div v d) <$> y).

Definition clamp (lo hi v : f64) : f64 := pymin (pymax v lo) hi.

(** Lines 173-194 of [fit_pixel]: the start values [p0]. *)
Definition initial_guess (E : externals) (y x : list f64)
    (bounds : option (list f64 * list f64)) : result (list f64) :=
  S0_init ← np_max y;
  offset_init ← np_min y;
  '(slope, _) ← polyfit1 E x
      ((λ v, np_log E (add (sub v offset_init) (fin (1 # 10000)))) <$> y);
  let t2_t2star_init := div (Fin (-1)) slope in
  let t2_t2star_init :=
    if gtb t2_t2star_init (Fin 5) then Fin 5 else t2_t2star_init in
  match bounds with
  | None => Ok [S0_init; np_exp E t2_t2star_init; offset_init]
  | Some (lower, upper) =>
      l0 ← item lower 0; l1 ← item lower 1; l2 ← item lower 2;
      let p0 := [pymax S0_init l0; pymax (np_exp E t2_t2star_init) l1;
                 pymax offset_init l2] in
      u0 ← item upper 0; u1 ← item upper 1; u2 ← item upper 2;
      Ok (zip_with pymin p0 [u0; u1; u2])
  end.

(** The keyword arguments handed to [curve_fit]: the defaults, the bounds,
    then [kwargs.update(config)]. *)
Definition solver_kwargs (p0 : option (list f64))
    (bounds : option (list f64 * list f64))
    (config : option (gmap string pyval)) : gmap string pyval :=
  let kwargs : gmap string pyval := {[ "xtol" := VFloat (fin (1 # 1000000)) ]} in
  let kwargs := match p0 with
                | Some p => <["p0" := VList p]> kwargs
                | None => kwargs
                end in
  let kwargs := match bounds with
                | Some (lower, upper) => <["bounds" := VPair lower upper]> kwargs
                | None => kwargs
                end in
  match config with
  | Some c => c ∪ kwargs
  | None => kwargs
  end.

(** [fit_pixel]: the first component is the content of the caller's array
    [y] when the call ends, the second the outcome ([None] is the failure
    sentinel). *)
Definition fit_pixel (E : externals) (y x : list f64) (fit_function : callable)
    (bounds : option (list f64 * list f64))
    (config : option (gmap string pyval))
    (normalize calc_p0 : bool) : list f64 * result (option (list f64)) :=
  match (if normalize then normalize_fit y else Ok y) with
  | Raise e => (y, Raise e)
  | Ok y1 =>
      (y1, p0 ← (if calc_p0 then Some <$> initial_guess E y1 x bounds
                 else Ok None);
           match curve_fit E fit_function x (array1 y1)
                   (solver_kwargs p0 bounds config) with
           | Ok param => Ok (Some param)
           | Raise RuntimeError | Raise ValueError => Ok None
           | Raise e => Raise e
           end)
  end.

(** ** The voxel fitting engine *)

Record AbstractFitting : Type := {
  fit_function : callable;
  bounds : option (list f64 * list f64);
  fit_config : option (gmap string pyval);
  normalize : bool;
}.

(** ** The T1rho models ([Fitting/T1rho.py]) *)

(** A number of the configuration: a Python number (a [float], or an
    [int] that a [float] can hold) or a NumPy scalar.  The two kinds
    differ in what a division by zero does. *)
Inductive scalar : Type :=
  | PyNumber (v : f64)
  | NpScalar (v : f64).

Definition scalar_value (s : scalar) : f64 :=
  match s with PyNumber v | NpScalar v => v end.

(** [-a]: of the kind of [a] *)
Definition scalar_neg (a : scalar) : scalar :=
  match a with
  | PyNumber v => PyNumber (neg v)
  | NpScalar v => NpScalar (neg v)
  end.

(** [a / b] on Python numbers *)
Definition py_div (a b : f64) : result f64 :=
  if is_zero b then Raise ZeroDivisionError else Ok (div a b).

(** [a / b] on two scalars: Python's division when both are Python
    numbers, NumPy's, which does not raise, as soon as one of them is a
    NumPy scalar. *)
Definition scalar_div (a b : scalar) : result f64 :=
  match a, b with
  | PyNumber x, PyNumber y => py_div x y
  | _, _ => Ok (div (scalar_value a) (scalar_value b))
  end.

(** [fit_T1rho_wrapper_raush(TR, T1, alpha)]: the function [fit] that the
    wrapper defines and returns. *)
Definition fit_T1rho_wrapper_raush (E : externals) (TR T1 alpha : f64)
  : callable := {|
  call x p :=
    match p with
    | [S0; t1rho; offset] =>
        Ok ((λ xi,
               let decay := np_exp E (div (neg xi) t1rho) in
               let recovery := np_exp E (div (neg (sub TR xi)) T1) in
               let counter := mul (sub one recovery) decay in
               let denominator :=
                 sub one (mul (mul (np_cos E alpha) decay) recovery) in
               add (div (mul (mul S0 (np_sin E alpha)) counter) denominator)
                   offset) <$> x)
    | _ => Raise TypeError
    end;
  picklable := false;
|}.

(** [fit_T1rho_wrapper_aronen(TR, T1, alpha, TE, T2star)]: the constants
    are the values of the configuration; [-TE / T2star] is the one
    operation between two of them, every other one involves the array
    [x] or a NumPy function. *)
Definition fit_T1rho_wrapper_aronen (E : externals)
    (TR T1 alpha TE T2star : scalar) : callable := {|
  call x p :=
    match p with
    | [S0; t1rho; offset] =>
        echo ← scalar_div (scalar_neg TE) T2star;
        Ok ((λ xi,
               let tau := sub (scalar_value TR) xi in
               let counter :=
                 mul (mul (mul (mul S0 (np_exp E (div (neg xi) t1rho)))
                               (sub one
                                  (np_exp E (div (neg tau) (scalar_value T1)))))
                          (np_sin E (scalar_value alpha)))
                     (np_exp E echo) in
               let denominator :=
                 sub one (mul (mul (np_cos E (scalar_value alpha))
                                   (np_exp E (div tau (scalar_value T1))))
                              (np_exp E (div xi t1rho))) in
               add (div counter denominator) offset) <$> x)
    | _ => Raise TypeError
    end;
  picklable := false;
|}.

(** [config[key]] *)
Definition getkey (config : gmap string scalar) (key : string)
  : result scalar :=
  match config !! key with Some v => Ok v | None => Raise KeyError end.

(** [T1rho.__init__(dim, config, boundary)]: the fitting object it sets up
    through [AbstractFitting.__init__]. *)
Definition T1rho_init (E : externals) (dim : Z) (config : gmap string scalar)
    (boundary : option (list f64 * list f64)) : result AbstractFitting :=
  TR ← getkey config "TR";
  T1 ← getkey config "T1";
  alpha ← getkey config "alpha";
  TE ← getkey config "TE";
  T2star ← getkey config "T2star";
  Ok {| fit_function := fit_T1rho_wrapper_aronen E TR T1 alpha TE T2star;
        bounds := boundary;
        fit_config := None;
        normalize := false |}.

(** What the engine asks of the solver and of the evaluator, in order:
    the reference fit on [dicom[:, 0, 0, 0]], [fit_pixel] on a voxel,
    [calculate_r2] on a voxel. *)
Inductive event : Type :=
  | EvReference (y : ndarray)
  | EvSolve (v : list nat)
  | EvScore (v : list nat).

(** [for i, j, k in ...: dicom[:, i, j, k]]: unpacking an index tuple that
    has not three components is a [ValueError]. *)
Definition voxel_view (W : ndarray) (v : list nat) : result (list f64) :=
  match v with
  | [_; _; _] => series W v
  | _ => Raise ValueError
  end.

(** [fit_pixel_fixed]: [fit_pixel] with the settings of [self]. *)
Definition fit_pixel_fixed (E : externals) (self : AbstractFitting)
    (calc_p0 : bool) (y x : list f64) : list f64 * result (option (list f64)) :=
  fit_pixel E y x (fit_function self) (bounds self) (fit_config self)
            (normalize self) calc_p0.

(** [pools == 0]: the list comprehension.  The generator yields the view of
    the next voxel, [fit_pixel] runs on that view and so writes to the
    volume [W], then the next voxel is taken. *)
Fixpoint dispatch_seq (E : externals) (self : AbstractFitting) (calc_p0 : bool)
    (x : list f64) (vs : list (list nat)) (W : ndarray) (tr : list event)
  : ndarray * list event * result (list (option (list f64))) :=
  match vs with
  | [] => (W, tr, Ok [])
  | v :: vs' =>
      match voxel_view W v with
      | Raise e => (W, tr, Raise e)
      | Ok y =>
          let '(y', r) := fit_pixel_fixed E self calc_p0 y x in
          let W' := write_series W v y' in
          let tr' := tr ++ [EvSolve v] in
          match r with
          | Raise e => (W', tr', Raise e)
          | Ok p =>
              let '(W'', tr'', rs) := dispatch_seq E self calc_p0 x vs' W' tr' in
              (W'', tr'', (cons p) <$> rs)
          end
      end
  end.

(** The exceptions of the tasks that fail, in the order of the tasks. *)
Definition failures {A B} (task : A → result B) (l : list A) : list exn :=
  omap (λ a, match task a with Raise e => Some e | Ok _ => None end) l.

(** [pools != 0]: [Pool(pools)] refuses a negative size; [starmap] first
    takes all views from the generator, then pickles the function and the
    arguments of each task for the workers, which therefore work on copies:
    nothing they write reaches [W].  With no task nothing is pickled.
    When tasks fail, [starmap] raises the exception of the one that
    reports first, which is a matter of scheduling ([pool_schedule]), not
    of the order of the voxels. *)
Definition dispatch_pool (E : externals) (self : AbstractFitting) (calc_p0 : bool)
    (x : list f64) (pools : Z) (vs : list (list nat)) (W : ndarray)
    (tr : list event)
  : ndarray * list event * result (list (option (list f64))) :=
  if (pools <? 0)%Z then (W, tr, Raise ValueError)
  else match rmapM (voxel_view W) vs with
       | Raise e => (W, tr, Raise e)
       | Ok [] => (W, tr, Ok [])
       | Ok ys =>
           if picklable (fit_function self)
           then let task y := (fit_pixel_fixed E self calc_p0 y x).2 in
                (W, tr ++ (EvSolve <$> vs),
                 match rmapM task ys with
                 | Ok rs => Ok rs
                 | Raise e =>
                     let es := failures task ys in
                     Raise (default e (es !! pool_schedule E es))
                 end)
           else (W, tr, Raise AttributeError)
       end.

Definition enumerate {A} (l : list A) : list (nat * A) :=
  zip (seq 0 (length l)) l.

(** [for p_num, p in enumerate(param): fit_maps[p_num][i, j, k] = p] *)
Definition write_params (fit_maps : ndarray) (v : list nat) (param : list f64)
  : result ndarray :=
  rfoldM (λ fm '(p_num, p), setitem fm (p_num :: v) p) (enumerate param) fit_maps.

(** Lines 107-117: the aggregation loop over the voxels and their results. *)
Fixpoint aggregate (E : externals) (self : AbstractFitting) (x : list f64)
    (min_r2 : f64) (items : list (list nat * option (list f64)))
    (W : ndarray) (tr : list event) (fit_maps r2_map : ndarray)
  : ndarray * list event * result (ndarray * ndarray) :=
  match items with
  | [] => (W, tr, Ok (fit_maps, r2_map))
  | (v, None) :: rest => aggregate E self x min_r2 rest W tr fit_maps r2_map
  | (v, Some param) :: rest =>
      match voxel_view W v with
      | Raise e => (W, tr, Raise e)
      | Ok y =>
          let '(y', r) :=
            calculate_r2 E y (fit_function self) param x (normalize self) in
          let W' := write_series W v y' in
          let tr' := tr ++ [EvScore v] in
          match (r2 ← r;
                 r2_map' ← setitem r2_map v r2;
                 stored ← getitem r2_map' v;
                 fit_maps' ← (if gtb stored min_r2
                              then write_params fit_maps v param
                              else Ok fit_maps);
                 Ok (fit_maps', r2_map')) with
          | Raise e => (W', tr', Raise e)
          | Ok (fit_maps', r2_map') =>
              aggregate E self x min_r2 rest W' tr' fit_maps' r2_map'
          end
      end
  end.

(** Lines 67-72: the two assertions and the promotion of a 2-D pair. *)
Definition check_shapes (dicom mask : ndarray) (x : list f64)
  : result (ndarray * ndarray) :=
  _ ← assert (Z.of_nat (ndim mask) =? Z.of_nat (ndim dicom) - 1)%Z;
  let '(mask, dicom) :=
    if (ndim mask =? 2)%nat
    then (expand_dims mask 2, expand_dims dicom 3)
    else (mask, dicom) in
  T ← match shape dicom with T :: _ => Ok T | [] => Raise IndexError end;
  _ ← assert (T =? length x)%nat;
  Ok (dicom, mask).

(** Lines 73-117, on the engine's own volume [W]. *)
Definition fit_volume (E : externals) (self : AbstractFitting)
    (W mask : ndarray) (x : list f64) (pools : Z) (min_r2 : f64)
  : ndarray * list event * result (ndarray * ndarray) :=
  match corner W with
  | Raise e => (W, [], Raise e)
  | Ok y0 =>
      let tr := [EvReference y0] in
      match curve_fit E (fit_function self) x y0 ∅ with
      | Raise e => (W, tr, Raise e)
      | Ok popt =>
          let num_params := length popt in
          let fit_maps := full (num_params :: shape mask) NaN in
          let r2_map := zeros (shape mask) in
          let calc_p0 :=
            (length (get_function_parameter E (fit_function self)) =? 3)%nat in
          let vs := nonzero mask in
          let '(W1, tr1, rs) :=
            if (pools =? 0)%Z then dispatch_seq E self calc_p0 x vs W tr
            else dispatch_pool E self calc_p0 x pools vs W tr in
          match rs with
          | Raise e => (W1, tr1, Raise e)
          | Ok pixel_results =>
              aggregate E self x min_r2 (zip vs pixel_results) W1 tr1
                        fit_maps r2_map
          end
      end
  end.

(** [AbstractFitting.fit].  The caller's volume lives in the heap at
    [dicom]; [astype] copies it to a fresh location, and every view the
    engine takes afterwards is a view of that copy.  The result is the heap
    and the events when the call ends, and the outcome. *)
Definition fit (E : externals) (self : AbstractFitting)
    (heap : gmap nat ndarray) (dicom : nat) (mask : ndarray) (x : list f64)
    (pools : Z) (min_r2 : f64)
  : gmap nat ndarray * list event * result (ndarray * ndarray) :=
  let l := fresh (dom heap) in
  let dicom64 := heap !!! dicom in
  match check_shapes dicom64 mask x with
  | Raise e => (<[l := dicom64]> heap, [], Raise e)
  | Ok (W, mask3) =>
      let '(W', tr, r) := fit_volume E self W mask3 x pools min_r2 in
      (<[l := W']> heap, tr, r)
  end.

(** ** The percentile map refiner ([Fitting/FittingMap.py]) *)

(** The map that [get_dcm_array] reads holds integer pixel values and the
    mask that [load_nii] reads holds integer labels; both readers are
    absent from the sources, and the mask object is taken to compare
    element-wise like its [array].  Arrays are flattened, and the mask is
    taken to have the shape of the map; for other shapes NumPy decides by
    the axes whether the boolean index is valid, which a flat list cannot
    tell, and here a mask of another size is an [IndexError].  Once the
    loop has run the mask is a float array: [None] stands for NaN. *)

Record FittedMap : Type := {
  low_percentile : Z;
  up_percentile : Z;
}.

(** [FittedMap.__init__] *)
Definition FittedMap_init (low_percentile up_percentile : Z) : result FittedMap :=
  _ ← assert (low_percentile <? up_percentile)%Z;
  _ ← assert ((0 <=? low_percentile)%Z && (low_percentile <=? 100)%Z);
  _ ← assert ((0 <=? up_percentile)%Z && (up_percentile <=? 100)%Z);
  Ok {| low_percentile := low_percentile; up_percentile := up_percentile |}.

(** [.astype('int16')] of an integer: wrap-around into the 16-bit range *)
Definition astype_int16 (z : Z) : Z := ((z + 32768) mod 65536 - 32768)%Z.

(** [np.max] of an integer array *)
Definition np_max_int (l : list Z) : result Z :=
  match l with
  | [] => Raise ValueError
  | z :: r => Ok (foldl Z.max z r)
  end.

(** The body of the loop of [__call__] for the label [i]; [percentile] is
    [np.percentile]. *)
Definition label_step (percentile : list Z → Z → result f64)
    (self : FittedMap) (fitted_map : list Z)
    (mask : list (option Z)) (i : Z) : result (list (option Z)) :=
  let fit_map := astype_int16 <$> fitted_map in
  _ ← (if (length mask =? length fit_map)%nat then Ok tt else Raise IndexError);
  (* fit_map[mask != i] = 0 *)
  let fit_map :=
    zip_with (λ m v, if bool_decide (m = Some i) then v else 0%Z) mask fit_map in
  (* fit_map[mask == i] *)
  let region :=
    snd <$> filter (λ mv, mv.1 = Some i) (zip mask fit_map) in
  low ← percentile region (low_percentile self);
  up ← percentile region (up_percentile self);
  let fit_map := (λ v, if ltb (of_Z v) low then 0%Z else v) <$> fit_map in
  let fit_map := (λ v, if gtb (of_Z v) up then 0%Z else v) <$> fit_map in
  (* np.where(fit_map != 0.0, fit_map, np.nan) *)
  Ok ((λ v, if bool_decide (v = 0%Z) then None else Some v) <$> fit_map).

(** [for i in range(start, start + n): a = body(a, i)] *)
Fixpoint for_range {A} (body : A → Z → result A) (n : nat) (start : Z) (a : A)
  : result A :=
  match n with
  | O => Ok a
  | S n' => a' ← body a start; for_range body n' (start + 1)%Z a'
  end.

(** [FittedMap.__call__], after the two files are read: the pair
    [(fitted_map, mask)] that it returns. *)
Definition FittedMap_call (percentile : list Z → Z → result f64)
    (self : FittedMap) (fitted_map mask : list Z)
  : result (list Z * list (option Z)) :=
  top ← np_max_int mask;
  mask' ← for_range (label_step percentile self fitted_map)
                    (Z.to_nat top) 1%Z (Some <$> mask);
  Ok (fitted_map, mask').

(** [np.percentile(a, q)] with the default linear interpolation, in exact
    arithmetic; the percentile of an empty array is an [IndexError]. *)
Definition percentile_linear (a : list Z) (q : Z) : result f64 :=
  let s := merge_sort Z.le a in
  match s with
  | [] => Raise IndexError
  | _ =>
      let pos := (inject_Z q * inject_Z (Z.of_nat (length s) - 1) / 100)%Q in
      let k := Qfloor pos in
      let frac := (pos - inject_Z k)%Q in
      let lo := default 0%Z (s !! Z.to_nat k) in
      let hi := default lo (s !! S (Z.to_nat k)) in
      Ok (fin (inject_Z lo + frac * inject_Z (hi - lo)))
  end.

(** ** Outcomes *)

(** The three components of what [fit] returns. *)
Definition fit_heap (E : externals) (self : AbstractFitting)
    (heap : gmap nat ndarray) (dicom : nat) (mask : ndarray) (x : list f64)
    (pools : Z) (min_r2 : f64) : gmap nat ndarray :=
  (fit E self heap dicom mask x pools min_r2).1.1.

Definition fit_events (E : externals) (self : AbstractFitting)
    (heap : gmap nat ndarray) (dicom : nat) (mask : ndarray) (x : list f64)
    (pools : Z) (min_r2 : f64) : list event :=
  (fit E self heap dicom mask x pools min_r2).1.2.

Definition fit_outcome (E : externals) (self : AbstractFitting)
    (heap : gmap nat ndarray) (dicom : nat) (mask : ndarray) (x : list f64)
    (pools : Z) (min_r2 : f64) : result (ndarray * ndarray) :=
  (fit E self heap dicom mask x pools min_r2).2.

(** The outcome of the aggregation loop. *)
Definition aggregate_outcome (E : externals) (self : AbstractFitting)
    (x : list f64) (min_r2 : f64) (items : list (list nat * option (list f64)))
    (W : ndarray) (tr : list event) (fit_maps r2_map : ndarray)
  : result (ndarray * ndarray) :=
  (aggregate E self x min_r2 items W tr fit_maps r2_map).2.

(** Reading one cell of the R² map, or of the map of parameter [n], in an
    outcome. *)
Definition r2_at (r : result (ndarray * ndarray)) (v : list nat) : option f64 :=
  match r with Ok (_, r2_map) => Some (get r2_map v) | Raise _ => None end.

Definition param_at (r : result (ndarray * ndarray)) (n : nat) (v : list nat)
  : option f64 :=
  match r with Ok (fit_maps, _) => Some (get fit_maps (n :: v)) | Raise _ => None end.

(** ** The specification's wording, for comparison *)

(** The evaluator as the specification words it: R² = 1 - SS_res / SS_tot
    on residuals [y - model(x, params)], where [y] is first rescaled
    exactly as at fit time. *)
Definition spec_calculate_r2 (E : externals) (y : list f64) (f : callable)
    (param x : list f64) (normalize : bool) : result f64 :=
  y1 ← (if normalize then normalize_fit y else Ok y);
  pred ← call f x param;
  residuals ← np_sub y1 pred;
  get_r2 residuals y1.

(** The start values as the specification words them. *)
Definition spec_seed (E : externals) (y x : list f64) : result (list f64) :=
  S0 ← np_max y;
  offset ← np_min y;
  '(slope, _) ← polyfit1 E x
      ((λ v, np_log E (add (sub v offset) (fin (1 # 10000)))) <$> y);
  Ok [S0; np_exp E (pymin (div (Fin (-1)) slope) (Fin 5)); offset].

Definition spec_clamp_seed (bounds : option (list f64 * list f64))
    (seed : list f64) : list f64 :=
  match bounds with
  | None => seed
  | Some (lower, upper) =>
      zip_with (λ '(lo, hi) v, clamp lo hi v) (zip lower upper) seed
  end.

(** The refined map as the specification words it: for the labels in
    ascending order, the percentile bounds of the map over the voxels that
    the current mask marks with the label, the in-region voxels outside the
    bounds set to zero, the mask rebuilt as the map value where non-zero and
    NaN elsewhere; the result is the input map with NaN at the voxels the
    final mask excludes and the input value at the others. *)
Definition spec_label_step (percentile : list Z → Z → result f64)
    (self : FittedMap) (fitted_map : list Z)
    (mask : list (option Z)) (i : Z) : result (list (option Z)) :=
  let region := snd <$> filter (λ mv, mv.1 = Some i) (zip mask fitted_map) in
  low ← percentile region (low_percentile self);
  up ← percentile region (up_percentile self);
  Ok (zip_with (λ m v,
        let v' := if bool_decide (m = Some i)
                     && (ltb (of_Z v) low || gtb (of_Z v) up)
                  then 0%Z else v in
        if bool_decide (v' = 0%Z) then None else Some v') mask fitted_map).

Definition spec_refine (percentile : list Z → Z → result f64)
    (self : FittedMap) (fitted_map mask : list Z) : result (list (option Z)) :=
  top ← np_max_int mask;
  mask' ← rfoldM (spec_label_step percentile self fitted_map)
                 (Z.of_nat <$> seq 1 (Z.to_nat top)) (Some <$> mask);
  Ok (zip_with (λ m v, match m with None => None | Some _ => Some v end)
               mask' fitted_map).

(** ** Notions used in the proofs *)

(** What [fit_pixel] makes of the outcome of [curve_fit]. *)
Definition absorb (r : result (list f64)) : result (option (list f64)) :=
  match r with
  | Ok param => Ok (Some param)
  | Raise RuntimeError | Raise ValueError => Ok None
  | Raise e => Raise e
  end.

(** Non-negative, +inf or NaN: what a sum of squares can be. *)
Definition nonneg (x : f64) : Prop :=
  match x with
  | NaN | PInf => True
  | Fin q => (0 <= q)%Q
  | NInf => False
  end.

(** A finite value is canonical when its fraction is in lowest terms;
    every value an operation returns is. *)
Definition canonical (w : f64) : Prop :=
  match w with Fin c => Qred c = c | _ => True end.

(** The same value, up to the representation of the fraction. *)
Definition same_value (a b : f64) : Prop :=
  match a, b with
  | NaN, NaN | NInf, NInf | PInf, PInf => True
  | Fin x, Fin y => (x == y)%Q
  | _, _ => False
  end.

(** Two outcomes agree when both return the same value or both raise. *)
Definition same_ok {A} (r r' : result A) : Prop :=
  match r, r' with
  | Ok a, Ok b => a = b
  | Raise _, Raise _ => True
  | _, _ => False
  end.

(** The views of a voxel in two volumes lead the evaluator to the same
    outcome. *)
Definition view_equiv (E : externals) (self : AbstractFitting) (x : list f64)
    (W1 W2 : ndarray) (v : list nat) (p : list f64) : Prop :=
  match voxel_view W1 v, voxel_view W2 v with
  | Ok y1, Ok y2 =>
      (calculate_r2 E y1 (fit_function self) p x (normalize self)).2 =
      (calculate_r2 E y2 (fit_function self) p x (normalize self)).2
  | Raise e1, Raise e2 => e1 = e2
  | _, _ => False
  end.

(** What one step of the refiner leaves in the mask at a voxel whose mask
    value was [m] and whose map value, cast to int16, is [w]. *)
Definition keep (i : Z) (low up : f64) (m : option Z) (w : Z) : option Z :=
  if bool_decide (m = Some i) && negb (ltb (of_Z w) low)
     && negb (gtb (of_Z w) up) && negb (w =? 0)%Z
  then Some w else None.

(** ** Concrete models, library instances and inputs for the examples *)

(** [def f(x, a, b): return a * x + b], at the top level of a module *)
Definition linear_model : callable := {|
  call x p :=
    match p with
    | [a; b] => Ok ((λ t, add (mul a t) b) <$> x)
    | _ => Raise TypeError
    end;
  picklable := true;
|}.

(** The same function, returned by a wrapper as in [Fitting/T1rho.py]. *)
Definition nested_model : callable := {|
  call := call linear_model;
  picklable := false;
|}.

(** [def f(x, S0, t, offset): return S0 * x * t + offset]: three parameters *)
Definition three_parameter_model : callable := {|
  call x p :=
    match p with
    | [S0; t; offset] => Ok ((λ v, add (mul (mul S0 v) t) offset) <$> x)
    | _ => Raise TypeError
    end;
  picklable := true;
|}.

(** A library whose optimiser answers [popt] whatever it is given and whose
    line fit answers the slope [slope]; the exponential, the logarithm,
    the sine and the cosine are stand-ins. *)
Definition library (popt : list f64) (slope : f64) (names : list string)
  : externals := {|
  curve_fit _ _ _ _ := Ok popt;
  polyfit1 _ _ := Ok (slope, zero);
  np_exp v := add v one;
  np_log v := sub v one;
  np_sin v := v;
  np_cos _ := one;
  get_function_parameter _ := names;
  pool_schedule _ := 0%nat;
|}.

(** A library whose optimiser always fails with the exception [e]. *)
Definition failing_library (e : exn) : externals := {|
  curve_fit _ _ _ _ := Raise e;
  polyfit1 _ _ := Ok (Fin (-1), zero);
  np_exp v := add v one;
  np_log v := sub v one;
  np_sin v := v;
  np_cos _ := one;
  get_function_parameter _ := ["a"; "b"];
  pool_schedule _ := 0%nat;
|}.


(** An optimiser that answers the start values it is given. *)
Definition echo_library : externals := {|
  curve_fit _ _ _ kwargs :=
    match kwargs !! "p0" with
    | Some (VList p0) => Ok p0
    | _ => Raise (OtherError "no start values")
    end;
  polyfit1 _ _ := Ok (Fin (-1 # 10), zero);
  np_exp v := add v one;
  np_log v := sub v one;
  np_sin v := v;
  np_cos _ := one;
  get_function_parameter _ := ["S0"; "t"; "offset"];
  pool_schedule _ := 0%nat;
|}.

(** An optimiser that answers the line [2 x + 1]. *)
Definition line_library : externals :=
  library [Fin 2; Fin 1] (Fin (-1)) ["a"; "b"].

(** The acquisition constants of a T1rho study, and a library for it. *)
Definition t1rho_config : gmap string scalar :=
  {[ "TR" := PyNumber (Fin 3000); "T1" := PyNumber (Fin 1000);
     "alpha" := PyNumber (Fin (1 # 4)); "TE" := PyNumber (Fin 10);
     "T2star" := PyNumber (Fin 20) ]}.

Definition t1rho_library : externals :=
  library [Fin 2; Fin 40; Fin 1] (Fin (-1 # 10)) ["S0"; "t1rho"; "offset"].

(** An array given by its shape and its cells in row-major order. *)
Definition array_of (sh : list nat) (vals : list f64) : ndarray :=
  NdArray sh (list_to_map (zip (indices sh) vals)).

Definition fitting (f : callable) (norm : bool) : AbstractFitting := {|
  fit_function := f;
  bounds := None;
  fit_config := None;
  normalize := norm;
|}.

(** A three-parameter fit with bounds. *)
Definition bounded_fitting : AbstractFitting := {|
  fit_function := three_parameter_model;
  bounds := Some ([Fin 0; Fin 0; Fin 2], [Fin 4; Fin 10; Fin 10]);
  fit_config := None;
  normalize := false;
|}.

Definition percentiles_5_95 : FittedMap :=
  {| low_percentile := 5; up_percentile := 95 |}.

(** The caller's heap: the volume at location 0. *)
Definition heap_of (a : ndarray) : gmap nat ndarray := {[ 0%nat := a ]}.

(** Three time points and a volume of 1 x 1 x 2 voxels with the series
    [1, 3, 5] and [2, 4, 8]; both voxels are in the mask. *)
Definition times3 : list f64 := [Fin 0; Fin 1; Fin 2].
Definition volume_a : ndarray :=
  array_of [3; 1; 1; 2]%nat [Fin 1; Fin 2; Fin 3; Fin 4; Fin 5; Fin 8].
Definition mask_a : ndarray := array_of [1; 1; 2]%nat [Fin 1; Fin 1].

(** The same volume with the corner voxel left out of the mask. *)
Definition mask_b : ndarray := array_of [1; 1; 2]%nat [Fin 0; Fin 1].

(** A volume whose two series are constant, [3, 3, 3] and [4, 4, 4]. *)
Definition volume_const : ndarray :=
  array_of [3; 1; 1; 2]%nat [Fin 3; Fin 4; Fin 3; Fin 4; Fin 3; Fin 4].

(** A volume with the series [1, 3, 5] and the constant series [3, 3, 3],
    and one with the series [1, 3, 5] and a dark voxel [0, 0, 0]. *)
Definition volume_flat : ndarray :=
  array_of [3; 1; 1; 2]%nat [Fin 1; Fin 3; Fin 3; Fin 3; Fin 5; Fin 3].
Definition volume_dark : ndarray :=
  array_of [3; 1; 1; 2]%nat [Fin 1; Fin 0; Fin 3; Fin 0; Fin 5; Fin 0].

(** The mask that keeps the corner voxel only. *)
Definition mask_c : ndarray := array_of [1; 1; 2]%nat [Fin 1; Fin 0].

(** A 2-D slice of 1 x 2 pixels with three time points, and its mask. *)
Definition volume_2d : ndarray :=
  array_of [3; 1; 2]%nat [Fin 1; Fin 2; Fin 3; Fin 4; Fin 5; Fin 8].
Definition mask_2d : ndarray := array_of [1; 2]%nat [Fin 1; Fin 1].

(** ** Further code: the constructor and the setter of the engine, the
    scaling factor of the viewer *)

(** [AbstractFitting.__init__] *)
Definition AbstractFitting_init (f : callable)
    (boundary : option (list f64 * list f64))
    (config : option (gmap string pyval)) (norm : bool) : AbstractFitting :=
  {| fit_function := f; bounds := boundary; fit_config := config;
     normalize := norm |}.

(** [AbstractFitting.set_fit_config] *)
Definition set_fit_config (self : AbstractFitting) (config : gmap string pyval)
  : AbstractFitting :=
  {| fit_function := fit_function self; bounds := bounds self;
     fit_config := Some config; normalize := normalize self |}.

(** [t[i]] on a tuple of sizes *)
Definition item_nat (t : list nat) (i : nat) : result nat :=
  match t !! i with Some n => Ok n | None => Raise IndexError end.

(** [a // b] on Python integers that are not negative *)
Definition floordiv (a b : nat) : result nat :=
  if (b =? 0)%nat then Raise ZeroDivisionError else Ok (a / b)%nat.

(** [calc_scaling_factor] of [Visualization/image_viewer.py] *)
Definition calc_scaling_factor (dicom_shape : list nat) : result nat :=
  d1 ← item_nat dicom_shape 1;
  d2 ← item_nat dicom_shape 2;
  floordiv 500 (Nat.max d1 d2).

(** ** More notions used in the proofs *)

(** The voxels of [items] that carry parameters: those the aggregation
    loop scores. *)
Definition scored (items : list (list nat * option (list f64)))
  : list (list nat) :=
  (filter (λ it, is_Some it.2) items).*1.

(** The keyword arguments of [curve_fit] before [kwargs.update(config)]. *)
Definition default_kwarg (p0 : option (list f64))
    (bnds : option (list f64 * list f64)) (k : string) : option pyval :=
  if decide (k = "bounds") then (λ b, VPair b.1 b.2) <$> bnds
  else if decide (k = "p0") then VList <$> p0
  else if decide (k = "xtol") then Some (VFloat (fin (1 # 1000000)))
  else None.

Lemma length_insert_at {A} n (x : A) l : length (insert_at n x l) = S (length l).
Proof.
  unfold insert_at. rewrite length_app. simpl. rewrite length_take, length_drop. lia.
Qed.

Lemma ndim_expand_dims a n : ndim (expand_dims a n) = S (ndim a).
Proof. apply length_insert_at. Qed.

Lemma insert_at_end {A} n (x : A) l : length l = n → insert_at n x l = l ++ [x].
Proof.
  intros <-. unfold insert_at. by rewrite take_ge, drop_ge by lia.
Qed.

Lemma head_insert_at {A} n (x : A) l :
  (0 < n)%nat → (0 < length l)%nat → head (insert_at n x l) = head l.
Proof.
  intros Hn Hl. destruct l as [|a l]; [simpl in Hl; lia|].
  destruct n; [lia|]. reflexivity.
Qed.

Lemma check_shapes_rank D mask x :
  Z.of_nat (ndim mask) ≠ (Z.of_nat (ndim D) - 1)%Z →
  check_shapes D mask x = Raise AssertionError.
Proof.
  intros H. unfold check_shapes.
  destruct (Z.eqb_spec (Z.of_nat (ndim mask)) (Z.of_nat (ndim D) - 1)); [done|].
  reflexivity.
Qed.

Lemma check_shapes_length D mask x :
  head (shape D) ≠ Some (length x) →
  check_shapes D mask x = Raise AssertionError.
Proof.
  intros H. unfold check_shapes.
  destruct (Z.eqb_spec (Z.of_nat (ndim mask)) (Z.of_nat (ndim D) - 1)) as [Hr|]; [|done].
  simpl.
  destruct (Nat.eqb_spec (ndim mask) 2) as [H2|H2].
  - assert (ndim D = 3%nat) as H3 by lia.
    assert (head (shape (expand_dims D 3)) = head (shape D)) as Hh.
    { apply head_insert_at; [lia|]. unfold ndim in H3. lia. }
    destruct (shape (expand_dims D 3)) as [|T sh] eqn:Hs.
    + exfalso. pose proof (ndim_expand_dims D 3) as Hn. unfold ndim in Hn. rewrite Hs in Hn. simpl in Hn. lia.
    + simpl. simpl in Hh. destruct (Nat.eqb_spec T (length x)); [|done].
      subst T. congruence.
  - destruct (shape D) as [|T sh] eqn:Hs.
    + exfalso. unfold ndim in Hr. rewrite Hs in Hr. simpl in Hr. lia.
    + simpl. destruct (Nat.eqb_spec T (length x)); [|done]. subst T. simpl in H. congruence.
Qed.

(** When both assertions hold the engine works on the pair itself, or, for
    a 2-D mask, on the pair promoted to unit depth. *)
Lemma check_shapes_ok D mask x :
  head (shape D) = Some (length x) →
  Z.of_nat (ndim mask) = (Z.of_nat (ndim D) - 1)%Z →
  check_shapes D mask x =
    Ok (if (ndim mask =? 2)%nat
        then (expand_dims D 3, expand_dims mask 2) else (D, mask)).
Proof.
  intros Hh Hr. unfold check_shapes.
  destruct (Z.eqb_spec (Z.of_nat (ndim mask)) (Z.of_nat (ndim D) - 1));
    [|done].
  cbn [assert mbind result_bind].
  destruct (Nat.eqb_spec (ndim mask) 2) as [H2|H2].
  - assert (head (shape (expand_dims D 3)) = head (shape D)) as Hh3.
    { apply head_insert_at; [lia|]. unfold ndim in *. lia. }
    rewrite Hh in Hh3.
    destruct (shape (expand_dims D 3)) as [|T sh]; [done|].
    injection Hh3 as ->. cbn [mbind result_bind]. by rewrite Nat.eqb_refl.
  - destruct (shape D) as [|T sh]; [done|]. injection Hh as ->.
    cbn [mbind result_bind]. by rewrite Nat.eqb_refl.
Qed.

Lemma check_shapes_promoted D mask x :
  ndim mask = 2%nat →
  check_shapes (expand_dims D 3) (expand_dims mask 2) x = check_shapes D mask x.
Proof.
  intros H2. unfold check_shapes.
  rewrite !ndim_expand_dims, H2. simpl ((2 =? 2)%nat).
  destruct (Z.eqb_spec (Z.of_nat 2) (Z.of_nat (ndim D) - 1)) as [Hr|Hr].
  - assert (ndim D = 3%nat) as H3 by lia. rewrite H3. reflexivity.
  - destruct (Z.eqb_spec (Z.of_nat 3) (Z.of_nat (S (ndim D)) - 1)); [lia|]. reflexivity.
Qed.

Lemma check_shapes_ok_2d D mask x W m3 :
  ndim mask = 2%nat →
  check_shapes D mask x = Ok (W, m3) →
  W = expand_dims D 3 ∧ m3 = expand_dims mask 2 ∧
  shape m3 = shape mask ++ [1%nat] ∧ shape W = shape D ++ [1%nat].
Proof.
  intros H2. unfold check_shapes.
  destruct (Z.eqb_spec (Z.of_nat (ndim mask)) (Z.of_nat (ndim D) - 1)) as [Hr|]; [|done].
  rewrite H2. change (2 =? 2)%nat with true.
  remember (expand_dims D 3) as W0 eqn:HW0.
  remember (expand_dims mask 2) as M0 eqn:HM0.
  cbn. destruct (shape W0) as [|T sh] eqn:Hs; cbn; [done|].
  destruct (T =? length x)%nat; cbn; [|done]. intros [= <- <-].
  subst W0 M0.
  split_and!; [done|done|..]; cbn; apply insert_at_end; unfold ndim in *; lia.
Qed.

Lemma setitem_shape a idx v a' : setitem a idx v = Ok a' → shape a' = shape a.
Proof. unfold setitem. case_match; [|done]. by intros [= <-]. Qed.

Lemma write_params_shape fm v p fm' :
  write_params fm v p = Ok fm' → shape fm' = shape fm.
Proof.
  unfold write_params. generalize (enumerate p). intros l. revert fm.
  induction l as [|[n q] l IH]; intros fm; simpl.
  - by intros [= <-].
  - destruct (setitem fm (n :: v) q) as [fm1|] eqn:Hs; [|done]. simpl.
    intros H. rewrite (IH _ H). by eapply setitem_shape.
Qed.

Lemma aggregate_shape E self x min_r2 items : ∀ W tr fm rm W' tr' fm' rm',
  aggregate E self x min_r2 items W tr fm rm = (W', tr', Ok (fm', rm')) →
  shape fm' = shape fm ∧ shape rm' = shape rm.
Proof.
  induction items as [|[v [p|]] items IH]; intros W tr fm rm W' tr' fm' rm'; simpl.
  - by intros [= _ _ <- <-].
  - destruct (voxel_view W v) as [y|]; [|done].
    destruct (calculate_r2 E y (fit_function self) p x (normalize self)) as [y' r].
    destruct r as [r2|]; [|done]. simpl.
    destruct (setitem rm v r2) as [rm1|] eqn:Hrm; [|done]. simpl.
    destruct (getitem rm1 v) as [st|]; [|done]. simpl.
    destruct (gtb st min_r2).
    + destruct (write_params fm v p) as [fm1|] eqn:Hfm; [|done]. simpl.
      intros H. apply IH in H as [-> ->].
      split; [by eapply write_params_shape|by eapply setitem_shape].
    + simpl. intros H. apply IH in H as [-> ->].
      split; [done|by eapply setitem_shape].
  - apply IH.
Qed.


(** ** Index tuples, reads and writes *)

Lemma elem_of_indices sh idx : idx ∈ indices sh ↔ in_bounds sh idx = true.
Proof.
  revert idx. induction sh as [|n sh IH]; intros idx; simpl.
  - rewrite list_elem_of_singleton. destruct idx; naive_solver.
  - rewrite list_elem_of_bind. split.
    + intros (i & Hidx & Hi). apply list_elem_of_fmap in Hidx as (r & -> & Hr).
      apply elem_of_seq in Hi. apply IH in Hr. rewrite Hr.
      destruct (Nat.ltb_spec i n); [done|lia].
    + destruct idx as [|i r]; [done|].
      intros [Hi Hr]%andb_prop. exists i. split.
      * apply list_elem_of_fmap. exists r. split; [done|by apply IH].
      * apply elem_of_seq. apply Nat.ltb_lt in Hi. lia.
Qed.

Lemma NoDup_indices sh : NoDup (indices sh).
Proof.
  induction sh as [|n sh IH]; simpl.
  - apply NoDup_singleton.
  - apply NoDup_bind.
    + intros i j idx _ _ Hi Hj.
      apply list_elem_of_fmap in Hi as (r & -> & _).
      apply list_elem_of_fmap in Hj as (r' & [= ->] & _). done.
    + intros i _. apply NoDup_fmap_2; [|done]. by intros ?? [= ->].
    + apply NoDup_seq.
Qed.

Lemma NoDup_nonzero a : NoDup (nonzero a).
Proof. apply NoDup_filter, NoDup_indices. Qed.

Lemma elem_of_nonzero a idx :
  idx ∈ nonzero a ↔ in_bounds (shape a) idx = true ∧ is_zero (get a idx) = false.
Proof.
  unfold nonzero. rewrite list_elem_of_filter, elem_of_indices. tauto.
Qed.

Lemma in_bounds_length sh idx : in_bounds sh idx = true → length idx = length sh.
Proof.
  revert idx. induction sh as [|n sh IH]; intros [|i idx]; simpl; try done.
  intros [_ H]%andb_prop. f_equal. by apply IH.
Qed.

Lemma shape_full sh v : shape (full sh v) = sh.
Proof. done. Qed.

Lemma get_full sh v idx : in_bounds sh idx = true → get (full sh v) idx = v.
Proof.
  intros H. unfold get, full. simpl.
  rewrite lookup_total_alt.
  erewrite elem_of_list_to_map_1; [done|..].
  - rewrite <- list_fmap_compose. simpl.
    erewrite (list_fmap_ext _ id); [|done].
    rewrite list_fmap_id. apply NoDup_indices.
  - apply list_elem_of_fmap. exists idx. split; [done|by apply elem_of_indices].
Qed.

Lemma getitem_full sh v idx :
  in_bounds sh idx = true → getitem (full sh v) idx = Ok v.
Proof. intros H. unfold getitem. simpl. rewrite H. by rewrite get_full. Qed.

Lemma setitem_ok a idx v :
  in_bounds (shape a) idx = true →
  setitem a idx v = Ok (NdArray (shape a) (<[idx := v]> (cells a))).
Proof. intros H. unfold setitem. by rewrite H. Qed.

Lemma get_setitem_eq a idx v a' : setitem a idx v = Ok a' → get a' idx = v.
Proof.
  unfold setitem. case_match; [|done]. intros [= <-]. unfold get. simpl.
  by rewrite lookup_total_insert_eq.
Qed.

Lemma get_setitem_ne a idx v a' idx' :
  setitem a idx v = Ok a' → idx ≠ idx' → get a' idx' = get a idx'.
Proof.
  unfold setitem. case_match; [|done]. intros [= <-] Hne. unfold get. simpl.
  by rewrite lookup_total_insert_ne.
Qed.

Lemma getitem_setitem_eq a idx v a' :
  setitem a idx v = Ok a' → getitem a' idx = Ok v.
Proof.
  intros H. unfold getitem. rewrite (setitem_shape _ _ _ _ H).
  rewrite (get_setitem_eq _ _ _ _ H).
  unfold setitem in H. by case_match.
Qed.

(** Writing a series touches the cells of that voxel only. *)
Lemma get_write_series_ne a v ys t v' :
  v ≠ v' → get (write_series a v ys) (t :: v') = get a (t :: v').
Proof.
  intros Hne. unfold get, write_series. simpl.
  generalize (zip (seq 0 (length ys)) ys). intros l.
  induction l as [|[s y] l IH]; simpl; [done|].
  rewrite lookup_total_insert_ne; [done|]. by intros [= _ ->].
Qed.

Lemma get_write_series_eq a v ys t :
  get (write_series a v ys) (t :: v) = default (get a (t :: v)) (ys !! t).
Proof.
  unfold get, write_series. simpl.
  assert (∀ (k : nat) (l : list f64),
    foldr (λ '(t0, y) m, <[t0 :: v := y]> m) (cells a) (zip (seq k (length l)) l)
      !!! (t :: v) = default (cells a !!! (t :: v)) (l !! (t - k)%nat) ∨ (t < k)%nat) as H.
  { intros k l. revert k. induction l as [|y l IH]; intros k; simpl.
    - by left.
    - destruct (decide (t < k)%nat) as [Hlt|Hge]; [by right|]. left.
      destruct (decide (t = k)) as [->|Hne].
      + rewrite lookup_total_insert_eq. by rewrite Nat.sub_diag.
      + rewrite lookup_total_insert_ne by (intros [= ->]; done).
        destruct (IH (S k)) as [->|Hlt]; [|lia].
        replace (t - k)%nat with (S (t - S k)) by lia. done. }
  destruct (H 0%nat ys) as [->|]; [|lia]. by rewrite Nat.sub_0_r.
Qed.

Lemma shape_write_series a v ys : shape (write_series a v ys) = shape a.
Proof. done. Qed.

Lemma series_write_series_ne a v ys v' :
  v ≠ v' → series (write_series a v ys) v' = series a v'.
Proof.
  intros Hne. unfold series. rewrite shape_write_series.
  destruct (shape a) as [|T sp]; [done|]. case_match; [|done]. f_equal.
  apply list_fmap_ext. intros _ t _. by apply get_write_series_ne.
Qed.

Lemma series_length a v y : series a v = Ok y → head (shape a) = Some (length y).
Proof.
  unfold series. destruct (shape a) as [|T sp]; [done|]. case_match; [|done].
  intros [= <-]. by rewrite length_fmap, length_seq.
Qed.

Lemma series_write_series_eq a v y ys :
  series a v = Ok y → length ys = length y →
  series (write_series a v ys) v = Ok ys.
Proof.
  unfold series. rewrite shape_write_series.
  destruct (shape a) as [|T sp]; [done|]. case_match; [|done].
  intros [= <-] Hlen. rewrite length_fmap, length_seq in Hlen. f_equal.
  apply list_eq. intros t. rewrite list_lookup_fmap.
  destruct (decide (t < T)%nat) as [Hlt|Hge].
  - rewrite lookup_seq_lt by done. simpl. rewrite get_write_series_eq.
    destruct (lookup_lt_is_Some_2 ys t) as [y Hy]; [lia|]. by rewrite Hy.
  - rewrite lookup_seq_ge by lia. simpl. symmetry. apply lookup_ge_None. lia.
Qed.

Lemma voxel_view_write_series_ne W v ys v' :
  v ≠ v' → voxel_view (write_series W v ys) v' = voxel_view W v'.
Proof.
  intros Hne. unfold voxel_view.
  destruct v' as [|? [|? [|? [|]]]]; try done. by apply series_write_series_ne.
Qed.

Lemma voxel_view_write_series_eq W v y ys :
  voxel_view W v = Ok y → length ys = length y →
  voxel_view (write_series W v ys) v = Ok ys.
Proof.
  unfold voxel_view.
  destruct v as [|? [|? [|? [|]]]]; try done. by apply series_write_series_eq.
Qed.

(** ** A new unit axis *)

Lemma insert_at_inj {A} n (a : A) : Inj (=) (=) (insert_at n a).
Proof.
  intros l1 l2 Heq.
  assert (length l1 = length l2) as Hlen.
  { apply (f_equal length) in Heq. rewrite !length_insert_at in Heq. lia. }
  unfold insert_at in Heq.
  apply app_inj_1 in Heq as [Ht Hd]; [|by rewrite !length_take, Hlen].
  injection Hd as Hd.
  by rewrite <- (take_drop n l1), <- (take_drop n l2), Ht, Hd.
Qed.

Lemma get_expand_dims a axis idx :
  get (expand_dims a axis) (insert_at axis 0%nat idx) = get a idx.
Proof.
  unfold get, expand_dims. cbn [cells].
  rewrite !lookup_total_alt.
  pose proof (insert_at_inj axis 0%nat) as Hinj.
  by rewrite (lookup_kmap (M1 := gmap (list nat)) (M2 := gmap (list nat))
                (insert_at axis 0%nat) (cells a) idx).
Qed.

Lemma nonzero_expand_dims mask i j :
  ndim mask = 2%nat →
  [i; j; 0%nat] ∈ nonzero (expand_dims mask 2) ↔ [i; j] ∈ nonzero mask.
Proof.
  intros H2. rewrite !elem_of_nonzero.
  change [i; j; 0%nat] with (insert_at 2 0%nat [i; j]).
  rewrite get_expand_dims.
  unfold expand_dims; cbn [shape]. unfold ndim in H2.
  by destruct (shape mask) as [|n1 [|n2 [|]]].
Qed.

Lemma nonzero_expand_dims_inv mask v :
  ndim mask = 2%nat → v ∈ nonzero (expand_dims mask 2) →
  ∃ i j, v = [i; j; 0%nat].
Proof.
  intros H2 [Hb _]%elem_of_nonzero.
  unfold expand_dims in Hb; cbn [shape] in Hb. unfold ndim in H2.
  destruct (shape mask) as [|n1 [|n2 [|]]]; try done.
  destruct v as [|i [|j [|k [|]]]]; cbn in Hb; try done;
    try by rewrite ?andb_false_r in Hb.
  exists i, j. destruct k as [|k]; [done|].
  by rewrite !andb_false_r in Hb.
Qed.

(** The series of a pixel in the volume promoted to unit depth. *)
Lemma voxel_view_expand_dims D i j y :
  voxel_view (expand_dims D 3) [i; j; 0%nat] = Ok y →
  ∃ T, head (shape (expand_dims D 3)) = Some T ∧
       y = (λ t, get D [t; i; j]) <$> seq 0 T.
Proof.
  unfold voxel_view, series.
  destruct (shape (expand_dims D 3)) as [|T sp]; [done|].
  case_match; [|done]. intros [= <-]. exists T. split; [done|].
  apply list_fmap_ext. intros _ t _.
  change [t; i; j; 0%nat] with (insert_at 3 0%nat [t; i; j]).
  apply get_expand_dims.
Qed.


(** ** The aggregation loop *)

Lemma write_params_get fm v p fm1 :
  write_params fm v p = Ok fm1 →
  (∀ n, get fm1 (n :: v) = default (get fm (n :: v)) (p !! n)) ∧
  (∀ n v', v' ≠ v → get fm1 (n :: v') = get fm (n :: v')).
Proof.
  unfold write_params, enumerate.
  assert (∀ (l : list f64) (k : nat) fm fm1,
    rfoldM (λ fm '(p_num, q), setitem fm (p_num :: v) q)
           (zip (seq k (length l)) l) fm = Ok fm1 →
    (∀ n, get fm1 (n :: v) =
          if decide (k ≤ n)%nat then default (get fm (n :: v)) (l !! (n - k)%nat)
          else get fm (n :: v)) ∧
    (∀ n v', v' ≠ v → get fm1 (n :: v') = get fm (n :: v'))) as H.
  { clear. induction l as [|q l IH]; intros k fm fm1; simpl.
    - intros [= <-]. split; [|done]. intros n. by case_decide.
    - destruct (setitem fm (k :: v) q) as [fm2|] eqn:Hs; [|done]. simpl.
      intros H. apply IH in H as [H1 H2]. split.
      + intros n. rewrite H1.
        destruct (decide (n = k)) as [->|Hne].
        * rewrite decide_False by lia. rewrite decide_True by lia.
          rewrite Nat.sub_diag. simpl. by eapply get_setitem_eq.
        * rewrite (get_setitem_ne _ _ _ _ (n :: v) Hs) by (intros [= ->]; done).
          destruct (decide (S k ≤ n)%nat).
          -- rewrite decide_True by lia.
             replace (n - k)%nat with (S (n - S k)) by lia. done.
          -- rewrite decide_False by lia. done.
      + intros n v' Hne. rewrite H2 by done.
        eapply get_setitem_ne; [done|]. by intros [= _ ->]. }
  intros Hw. apply H in Hw as [H1 H2]. split; [|done].
  intros n. rewrite H1, decide_True by lia. by rewrite Nat.sub_0_r.
Qed.

(** What the loop leaves in the two maps, voxel by voxel. *)
Lemma aggregate_spec E self x min_r2 items :
  ∀ W tr fm rm W' tr' fm' rm',
  NoDup (items.*1) →
  aggregate E self x min_r2 items W tr fm rm = (W', tr', Ok (fm', rm')) →
  (∀ v, v ∉ items.*1 →
     get rm' v = get rm v ∧ ∀ n, get fm' (n :: v) = get fm (n :: v)) ∧
  (∀ v, (v, None) ∈ items →
     get rm' v = get rm v ∧ ∀ n, get fm' (n :: v) = get fm (n :: v)) ∧
  (∀ v p, (v, Some p) ∈ items →
     ∃ y r2,
       voxel_view W v = Ok y ∧
       (calculate_r2 E y (fit_function self) p x (normalize self)).2 = Ok r2 ∧
       get rm' v = r2 ∧
       ∀ n, get fm' (n :: v) =
            if gtb r2 min_r2 then default (get fm (n :: v)) (p !! n)
            else get fm (n :: v)).
Proof.
  induction items as [|[v0 [p0|]] items IH];
    intros W tr fm rm W' tr' fm' rm' Hnd; simpl.
  - intros [= _ _ <- <-]. split_and!; [done|..]; intros; exfalso; by eapply not_elem_of_nil.
  - simpl in Hnd. apply NoDup_cons in Hnd as [Hv0 Hnd].
    destruct (voxel_view W v0) as [y|] eqn:Hy; [|done].
    destruct (calculate_r2 E y (fit_function self) p0 x (normalize self))
      as [y' r] eqn:Hc.
    destruct r as [r2|]; [|done]. simpl.
    destruct (setitem rm v0 r2) as [rm1|] eqn:Hrm; [|done]. simpl.
    rewrite (getitem_setitem_eq _ _ _ _ Hrm). simpl.
    destruct (if gtb r2 min_r2 then write_params fm v0 p0 else Ok fm)
      as [fm1|] eqn:Hfm; [|done]. simpl.
    intros H. apply IH in H as (Hout & Hnone & Hsome); [|done].
    assert ((∀ n, get fm1 (n :: v0) =
               if gtb r2 min_r2 then default (get fm (n :: v0)) (p0 !! n)
               else get fm (n :: v0)) ∧
            (∀ n v', v' ≠ v0 → get fm1 (n :: v') = get fm (n :: v'))) as [Hf1 Hf2].
    { destruct (gtb r2 min_r2).
      - by apply write_params_get.
      - by injection Hfm as <-. }
    split_and!.
    + intros v Hv. apply not_elem_of_cons in Hv as [Hne Hv].
      destruct (Hout v Hv) as [-> Hfm']. split.
      * by eapply get_setitem_ne.
      * intros n. by rewrite Hfm', Hf2.
    + intros v Hv. apply elem_of_cons in Hv as [[=]|Hv].
      assert (v ≠ v0) as Hne.
      { intros ->. apply Hv0. apply list_elem_of_fmap. by exists (v0, None). }
      destruct (Hnone v Hv) as [-> Hfm']. split.
      * by eapply get_setitem_ne.
      * intros n. by rewrite Hfm', Hf2.
    + intros v p Hv. apply elem_of_cons in Hv as [[= -> ->]|Hv].
      * exists y, r2. rewrite Hc. split_and!; [done|done|..].
        -- destruct (Hout v0 Hv0) as [-> _]. by eapply get_setitem_eq.
        -- intros n. destruct (Hout v0 Hv0) as [_ ->]. apply Hf1.
      * assert (v ≠ v0) as Hne.
        { intros ->. apply Hv0. apply list_elem_of_fmap. by exists (v0, Some p). }
        destruct (Hsome v p Hv) as (y1 & r1 & Hy1 & Hr1 & Hrm1 & Hfm1).
        exists y1, r1.
        rewrite voxel_view_write_series_ne in Hy1 by done.
        split_and!; [done|done|done|].
        intros n. rewrite Hfm1, Hf2 by done. done.
  - simpl in Hnd. apply NoDup_cons in Hnd as [Hv0 Hnd].
    intros H. apply IH in H as (Hout & Hnone & Hsome); [|done].
    split_and!.
    + intros v Hv. apply not_elem_of_cons in Hv as [Hne Hv]. by apply Hout.
    + intros v Hv. apply elem_of_cons in Hv as [[= ->]|Hv]; [by apply Hout|by apply Hnone].
    + intros v p Hv. apply elem_of_cons in Hv as [[=]|Hv]. by apply Hsome.
Qed.


(** ** Facts on the numbers *)

Lemma nonneg_fin q : (0 <= q)%Q → nonneg (fin q).
Proof. intros H. unfold fin, nonneg. by rewrite Qred_correct. Qed.

Lemma nonneg_zero : nonneg zero.
Proof. simpl. apply Qle_refl. Qed.

Lemma nonneg_sq x : nonneg (sq x).
Proof.
  destruct x as [| |a|]; simpl; try done.
  apply nonneg_fin. unfold Qle, Qmult. simpl. nia.
Qed.

Lemma nonneg_add x y : nonneg x → nonneg y → nonneg (add x y).
Proof.
  destruct x as [| |a|], y as [| |b|]; simpl; try done.
  intros Ha Hb. rewrite Qred_correct.
  replace 0%Q with (0 + 0)%Q by done. by apply Qplus_le_compat.
Qed.

Lemma nonneg_foldl_add l : ∀ acc,
  nonneg acc → Forall nonneg l → nonneg (foldl add acc l).
Proof.
  induction l as [|v l IH]; intros acc Hacc Hl; simpl; [done|].
  apply Forall_cons in Hl as [Hv Hl]. apply IH; [|done]. by apply nonneg_add.
Qed.

Lemma nonneg_sum_sq (f : f64 → f64) l : nonneg (np_sum ((λ v, sq (f v)) <$> l)).
Proof.
  apply nonneg_foldl_add; [apply nonneg_zero|].
  apply Forall_fmap, Forall_forall. intros v _. apply nonneg_sq.
Qed.

Lemma Qcompare_nonneg a : (0 <= a)%Q → (a ?= 0)%Q = Eq ∨ (a ?= 0)%Q = Gt.
Proof.
  intros H. destruct (a ?= 0)%Q eqn:Hc; auto.
  apply Qlt_alt in Hc. exfalso. by apply (Qlt_not_le _ _ Hc).
Qed.

Lemma nonneg_div x y : nonneg x → nonneg y → nonneg (div x y).
Proof.
  destruct x as [| |a|], y as [| |b|]; simpl; try done.
  - intros Ha Hb. destruct (Qeq_bool b 0) eqn:Hz.
    + destruct (Qcompare_nonneg a Ha) as [-> | ->]; done.
    + apply nonneg_fin. unfold Qdiv. apply Qmult_le_0_compat; [done|].
      by apply Qinv_le_0_compat.
  - intros _ Hb. by destruct (Qcompare_nonneg b Hb) as [-> | ->].
Qed.

Lemma one_minus_nonneg q : nonneg q → sub one q ≠ PInf.
Proof. destruct q; simpl; done. Qed.

Lemma njit_div_div a b q : njit_div a b = Ok q → q = div a b.
Proof. unfold njit_div. destruct (is_zero b); naive_solver. Qed.

(** [get_r2] never answers +inf. *)
Lemma get_r2_not_pinf residuals y r :
  get_r2 residuals y = Ok r → r ≠ PInf.
Proof.
  unfold get_r2.
  destruct (np_mean y) as [m|]; [|done]. simpl.
  destruct (njit_div _ _) as [q|] eqn:Hq; [|done]. simpl.
  intros [= <-]. apply one_minus_nonneg.
  apply njit_div_div in Hq as ->.
  apply nonneg_div.
  - rewrite <- (list_fmap_id residuals) at 1.
    rewrite <- list_fmap_compose. apply (nonneg_sum_sq id).
  - apply (nonneg_sum_sq (λ v, sub v m)).
Qed.

Lemma calculate_r2_not_pinf E y f param x norm r :
  (calculate_r2 E y f param x norm).2 = Ok r → r ≠ PInf.
Proof.
  unfold calculate_r2.
  destruct (if norm then normalize_eval y else Ok y) as [y1|]; [|done]. simpl.
  destruct (call f x param) as [pred|]; [|done]. simpl.
  destruct (np_sub y1 pred) as [res|]; [|done]. simpl.
  apply get_r2_not_pinf.
Qed.

(** A comparison [r > m] fails for NaN and for -inf, whatever [m] is. *)
Lemma gtb_nan m : gtb NaN m = false.
Proof. by destruct m. Qed.

Lemma gtb_ninf m : gtb NInf m = false.
Proof. by destruct m. Qed.

Lemma not_finite_cases r : isfinite r = false → r = NaN ∨ r = NInf ∨ r = PInf.
Proof. destruct r; naive_solver. Qed.

Lemma get_full_nan sh idx : get (full sh NaN) idx = NaN.
Proof.
  unfold get, full. simpl. rewrite lookup_total_alt.
  destruct (list_to_map _ !! idx) as [v|] eqn:Hl; [|done].
  apply elem_of_list_to_map_2 in Hl.
  apply list_elem_of_fmap in Hl as (? & [= _ ->] & _). done.
Qed.

Lemma NoDup_fst_zip {A B} (l : list A) (k : list B) :
  NoDup l → NoDup (zip l k).*1.
Proof.
  revert k. induction l as [|a l IH]; intros k Hnd; [constructor|].
  destruct k as [|b k]; [constructor|]. simpl.
  apply NoDup_cons in Hnd as [Ha Hnd]. apply NoDup_cons. split; [|by apply IH].
  intros Hin. apply Ha. apply list_elem_of_fmap in Hin as ([a' b'] & -> & Hin).
  by apply elem_of_zip_l in Hin.
Qed.


(** ** Normalising twice *)

Lemma fin_eq a b : (a == b)%Q → fin a = fin b.
Proof. intros H. unfold fin. f_equal. by apply Qred_complete. Qed.

Lemma canonical_fin q : canonical (fin q).
Proof. simpl. apply Qred_complete, Qred_correct. Qed.

Lemma canonical_div v d : canonical (div v d).
Proof.
  destruct v as [| |a|], d as [| |b|]; simpl; try done.
  - by destruct (b ?= 0)%Q.
  - destruct (Qeq_bool b 0); [by destruct (a ?= 0)%Q|apply canonical_fin].
  - by destruct (b ?= 0)%Q.
Qed.

Lemma Qeq_bool_proper a a' b b' :
  (a == a')%Q → (b == b')%Q → Qeq_bool a b = Qeq_bool a' b'.
Proof.
  intros Ha Hb. destruct (Qeq_bool a' b') eqn:H.
  - apply Qeq_bool_iff. apply Qeq_bool_iff in H. by rewrite Ha, Hb.
  - destruct (Qeq_bool a b) eqn:H'; [|done].
    apply Qeq_bool_iff in H'. rewrite Ha, Hb in H'.
    apply Qeq_bool_iff in H'. congruence.
Qed.

Lemma Qcompare_proper a a' b b' :
  (a == a')%Q → (b == b')%Q → (a ?= b)%Q = (a' ?= b')%Q.
Proof. intros Ha Hb. by rewrite Ha, Hb. Qed.

Lemma div_proper a a' d d' :
  same_value a a' → same_value d d' → div a d = div a' d'.
Proof.
  destruct a as [| |x|], a' as [| |x'|]; simpl; try done;
  destruct d as [| |y|], d' as [| |y'|]; simpl; try done.
  - intros _ Hy. by rewrite (Qcompare_proper y y' 0 0).
  - intros Hx Hy.
    rewrite (Qeq_bool_proper y y' 0 0), (Qcompare_proper x x' 0 0) by done.
    destruct (Qeq_bool y' 0); [done|]. apply fin_eq. by rewrite Hx, Hy.
  - intros _ Hy. by rewrite (Qcompare_proper y y' 0 0).
Qed.

Lemma div_one_same v : same_value (div v one) v.
Proof.
  destruct v as [| |a|]; simpl; try done.
  rewrite Qred_correct. field.
Qed.

Lemma div_one_canonical w : canonical w → div w one = w.
Proof.
  destruct w as [| |c|]; simpl; try done.
  intros Hc. unfold fin. f_equal. rewrite <- Hc at 2.
  apply Qred_complete. field.
Qed.

Lemma div_self q : (0 < q)%Q → div (Fin q) (Fin q) = one.
Proof.
  intros Hq. simpl.
  destruct (Qeq_bool q 0) eqn:Hz.
  - apply Qeq_bool_iff in Hz. rewrite Hz in Hq. by apply Qlt_irrefl in Hq.
  - unfold fin, one. f_equal. change 1%Q with (Qred 1).
    apply Qred_complete. field. intros H. rewrite H in Hq. by apply Qlt_irrefl in Hq.
Qed.

Lemma Qcompare_div_pos x y q :
  (0 < q)%Q → (Qred (x / q) ?= Qred (y / q))%Q = (x ?= y)%Q.
Proof.
  intros Hq. rewrite !Qred_correct.
  assert (0 < / q)%Q as Hi by by apply Qinv_lt_0_compat.
  destruct (Qcompare_spec x y) as [H|H|H].
  - apply Qeq_alt. by rewrite H.
  - apply Qlt_alt. unfold Qdiv. by apply Qmult_lt_compat_r.
  - apply Qgt_alt. unfold Qdiv. by apply Qmult_lt_compat_r.
Qed.

Lemma Qeq_bool_pos q : (0 < q)%Q → Qeq_bool q 0 = false.
Proof.
  intros Hq. destruct (Qeq_bool q 0) eqn:Hz; [|done].
  apply Qeq_bool_iff in Hz. rewrite Hz in Hq. by apply Qlt_irrefl in Hq.
Qed.

Lemma Qcompare_pos q : (0 < q)%Q → (q ?= 0)%Q = Gt.
Proof. intros Hq. by apply Qgt_alt. Qed.

(** Dividing by a positive finite value keeps NaN and the order. *)
Lemma isnan_div_pos q v : (0 < q)%Q → isnan (div v (Fin q)) = isnan v.
Proof.
  intros Hq. destruct v as [| |a|]; simpl; try done.
  - by rewrite Qcompare_pos.
  - by rewrite Qeq_bool_pos.
  - by rewrite Qcompare_pos.
Qed.

Lemma ltb_div_pos q a b :
  (0 < q)%Q → ltb (div a (Fin q)) (div b (Fin q)) = ltb a b.
Proof.
  intros Hq.
  destruct a as [| |x|], b as [| |y|]; simpl;
    rewrite ?(Qcompare_pos q), ?(Qeq_bool_pos q) by done; simpl;
    rewrite ?(Qcompare_pos q), ?(Qeq_bool_pos q) by done; simpl; try done.
  by rewrite Qcompare_div_pos.
Qed.

Lemma maximum_div_pos q a b :
  (0 < q)%Q →
  maximum (div a (Fin q)) (div b (Fin q)) = div (maximum a b) (Fin q).
Proof.
  intros Hq. unfold maximum.
  rewrite !isnan_div_pos, ltb_div_pos by done.
  by repeat case_match.
Qed.

Lemma np_max_div_pos q y m :
  (0 < q)%Q → np_max y = Ok m →
  np_max ((λ v, div v (Fin q)) <$> y) = Ok (div m (Fin q)).
Proof.
  intros Hq. destruct y as [|v r]; [done|]. simpl. intros [= <-]. f_equal.
  revert v. induction r as [|w r IH]; intros v; simpl; [done|].
  rewrite maximum_div_pos by done. apply IH.
Qed.

(** The maximum is one of the elements, and NaN as soon as one is NaN. *)
Lemma np_max_elem y m : np_max y = Ok m → m ∈ y.
Proof.
  destruct y as [|v r]; [done|]. simpl. intros [= <-].
  assert (∀ acc, foldl maximum acc r = acc ∨ foldl maximum acc r ∈ r) as H.
  { induction r as [|w r IH]; intros acc; simpl; [by left|].
    destruct (IH (maximum acc w)) as [->|Hin].
    - unfold maximum. repeat case_match; [by left|right; left..|by left].
    - right. by right. }
  destruct (H v) as [->|Hin]; [left|by right].
Qed.

Lemma foldl_maximum_nan r : foldl maximum NaN r = NaN.
Proof. induction r; simpl; done. Qed.

Lemma np_max_nan y : NaN ∈ y → np_max y = Ok NaN.
Proof.
  destruct y as [|v r]; [by intros ?%not_elem_of_nil|]. simpl. intros Hin. f_equal.
  revert v Hin. induction r as [|w r IH]; intros v Hin; simpl.
  - apply list_elem_of_singleton in Hin. by subst.
  - apply elem_of_cons in Hin as [<-|Hin]; [apply foldl_maximum_nan|].
    apply elem_of_cons in Hin as [<-|Hin].
    + assert (maximum v NaN = NaN) as -> by (unfold maximum; by destruct v).
      apply foldl_maximum_nan.
    + apply IH. by right.
Qed.

Lemma gtb_zero_cases m :
  gtb m zero = true → m = PInf ∨ ∃ q, m = Fin q ∧ (0 < q)%Q.
Proof.
  destruct m as [| |q|]; simpl; try done; [|by left].
  destruct (0 ?= q)%Q eqn:Hc; try done. intros _. right. exists q.
  split; [done|]. by apply Qlt_alt.
Qed.

Lemma div_by_nan v : div v NaN = NaN.
Proof. by destruct v. Qed.

(** What the evaluator's [y /= y.max()] does to a series that the solver's
    normalisation has already divided: nothing new, except when the maximum
    is +inf, where both end with a NaN in the series. *)
Lemma normalize_twice y y1 :
  normalize_fit y = Ok y1 →
  normalize_eval y1 = normalize_eval y ∨
  ∃ z z', normalize_eval y1 = Ok z ∧ normalize_eval y = Ok z' ∧
          NaN ∈ z ∧ NaN ∈ z' ∧ length z = length z'.
Proof.
  unfold normalize_fit, normalize_eval.
  destruct (np_max y) as [m|] eqn:Hm; [|done]. cbn [mbind result_bind].
  destruct (gtb m zero) eqn:Hg; intros [= <-].
  - destruct (gtb_zero_cases m Hg) as [->|(q & -> & Hq)].
    + right.
      assert (NaN ∈ (λ v, div v PInf) <$> y) as Hnan.
      { apply list_elem_of_fmap. exists PInf. split; [done|]. by apply np_max_elem. }
      rewrite (np_max_nan _ Hnan). simpl. eexists _, _. split_and!; [done|done|..].
      * apply list_elem_of_fmap in Hnan as (w & _ & Hw).
        apply list_elem_of_fmap. exists (div w PInf).
        split; [by rewrite div_by_nan|].
        by apply (list_elem_of_fmap_2 (λ v, div v PInf)).
      * exact Hnan.
      * by rewrite !length_fmap.
    + left. rewrite (np_max_div_pos q y (Fin q) Hq Hm), div_self by done. simpl.
      f_equal. rewrite <- list_fmap_compose.
      apply list_fmap_ext. intros _ v _. simpl.
      apply div_one_canonical, canonical_div.
  - left. unfold one. rewrite (np_max_div_pos 1 y m eq_refl Hm). simpl.
    f_equal. rewrite <- list_fmap_compose.
    apply list_fmap_ext. intros _ v _. simpl.
    apply div_proper; apply div_one_same.
Qed.

Lemma foldl_add_nan l : foldl add NaN l = NaN.
Proof. induction l; simpl; done. Qed.

Lemma np_sum_nan l : NaN ∈ l → np_sum l = NaN.
Proof.
  unfold np_sum. generalize zero. induction l as [|v l IH]; intros acc Hin.
  - by apply not_elem_of_nil in Hin.
  - simpl. apply elem_of_cons in Hin as [<-|Hin].
    + assert (add acc NaN = NaN) as -> by by destruct acc.
      apply foldl_add_nan.
    + by apply IH.
Qed.

Lemma is_zero_of_nat_S n : is_zero (of_nat (S n)) = false.
Proof.
  unfold of_nat, of_Z, is_zero.
  destruct (Qeq_bool (inject_Z (Z.of_nat (S n))) 0) eqn:H; [|done].
  apply Qeq_bool_iff in H. unfold Qeq in H. simpl in H. lia.
Qed.

(** An R² computed on a series that holds a NaN is NaN. *)
Lemma get_r2_nan residuals z : NaN ∈ z → get_r2 residuals z = Ok NaN.
Proof.
  intros Hin. unfold get_r2, np_mean. rewrite (np_sum_nan z Hin).
  assert (njit_div NaN (of_nat (length z)) = Ok NaN) as ->.
  { destruct z as [|v z']; [by apply not_elem_of_nil in Hin|].
    unfold njit_div. simpl length. by rewrite is_zero_of_nat_S. }
  cbn [mbind result_bind].
  assert (np_sum ((λ v0, sq (sub v0 NaN)) <$> z) = NaN) as ->.
  { apply np_sum_nan. apply list_elem_of_fmap. exists NaN. done. }
  unfold njit_div. cbn [is_zero mbind result_bind]. by rewrite div_by_nan.
Qed.

Lemma np_sub_status a a' b :
  length a = length a' →
  (∃ r r', np_sub a b = Ok r ∧ np_sub a' b = Ok r') ∨
  (np_sub a b = Raise ValueError ∧ np_sub a' b = Raise ValueError).
Proof.
  intros Hl. unfold np_sub. rewrite <- Hl.
  destruct (length a =? length b)%nat; [left; eauto|].
  destruct b as [|b0 [|b1 b]];
    destruct a as [|? [|]], a' as [|? [|]]; simpl in Hl; try done;
    first [by left; eauto|by right].
Qed.

(** The R² that the evaluator computes on the series the solver has worked
    on in place is the R² it computes on the untouched series. *)
Lemma calculate_r2_after_fit_pixel E y x f bnds cfg norm cp p :
  (calculate_r2 E (fit_pixel E y x f bnds cfg norm cp).1 f p x norm).2 =
  (calculate_r2 E y f p x norm).2.
Proof.
  unfold fit_pixel. destruct norm; [|done].
  destruct (normalize_fit y) as [y1|] eqn:Hy1; [|done]. simpl fst.
  unfold calculate_r2.
  destruct (normalize_twice y y1 Hy1) as [->|(z & z' & -> & -> & Hz & Hz' & Hl)];
    [by destruct (normalize_eval y)|].
  simpl. destruct (call f x p) as [pred|]; [|done]. simpl.
  destruct (np_sub_status z z' pred Hl) as [(r & r' & -> & ->)|[-> ->]]; [|done].
  simpl. by rewrite !get_r2_nan.
Qed.

Lemma fit_pixel_buffer_length E y x f bnds cfg norm cp :
  length (fit_pixel E y x f bnds cfg norm cp).1 = length y.
Proof.
  unfold fit_pixel, normalize_fit. destruct norm; [|done].
  destruct (np_max y); simpl; [|done]. by rewrite length_fmap.
Qed.


(** ** The solver, once its start values are known *)

Lemma fit_pixel_outcome E (y x : list f64) f bnds cfg (norm cp : bool)
    (y1 : list f64) (p0 : option (list f64)) :
  (if norm then normalize_fit y else Ok y) = Ok y1 →
  (if cp then Some <$> initial_guess E y1 x bnds else Ok None) = Ok p0 →
  (fit_pixel E y x f bnds cfg norm cp).2 =
    absorb (curve_fit E f x (array1 y1) (solver_kwargs p0 bnds cfg)).
Proof.
  intros Hy Hp. unfold fit_pixel. rewrite Hy. simpl snd. rewrite Hp. done.
Qed.


(** ** The shapes of the maps *)

Lemma fit_volume_shapes E self W mask x pools min_r2 W' tr fm rm :
  fit_volume E self W mask x pools min_r2 = (W', tr, Ok (fm, rm)) →
  shape rm = shape mask ∧ tail (shape fm) = shape mask.
Proof.
  unfold fit_volume.
  destruct (corner W) as [y0|]; [|done].
  destruct (curve_fit E (fit_function self) x y0 ∅) as [popt|]; [|done].
  destruct (if (pools =? 0)%Z then _ else _) as [[W1 tr1] [rs|]]; [|done].
  intros H. apply aggregate_shape in H as [-> ->]. done.
Qed.

(** A 2-D pair at work: the maps come back with the unit-depth 3-D shape. *)
Example fit_2d_shapes :
  match fit_outcome line_library (fitting linear_model false)
          (heap_of volume_2d) 0%nat mask_2d times3 0 NInf with
  | Ok (fm, rm) => shape fm = [2; 1; 2; 1]%nat ∧ shape rm = [1; 2; 1]%nat
  | Raise _ => False
  end.
Proof. vm_compute. done. Qed.


(** ** The quality gate (C1, C4) *)

Lemma aggregate_outcome_inv E self x min_r2 items W tr fm0 rm0 fm rm :
  aggregate_outcome E self x min_r2 items W tr fm0 rm0 = Ok (fm, rm) →
  ∃ W' tr', aggregate E self x min_r2 items W tr fm0 rm0 = (W', tr', Ok (fm, rm)).
Proof.
  unfold aggregate_outcome.
  destruct (aggregate E self x min_r2 items W tr fm0 rm0) as [[W' tr'] r].
  simpl. intros ->. eauto.
Qed.

(** C1, as the code has it.  In the aggregation loop over the voxels of the
    mask, a voxel whose solve returned the parameter vector [p] gets the R²
    that [calculate_r2] computes for it stored in the R² map, and each of
    its parameters is written to the parameter maps exactly when that R² is
    strictly greater than [min_r2]; otherwise the parameter cells keep the
    NaN they were initialised with. *)
Theorem aggregation_gate E self x min_r2 mask results k W tr fm rm v p :
  aggregate_outcome E self x min_r2 (zip (nonzero mask) results) W tr
    (full (k :: shape mask) NaN) (zeros (shape mask)) = Ok (fm, rm) →
  (v, Some p) ∈ zip (nonzero mask) results →
  ∃ y r2,
    voxel_view W v = Ok y ∧
    (calculate_r2 E y (fit_function self) p x (normalize self)).2 = Ok r2 ∧
    get rm v = r2 ∧
    ∀ n pv, p !! n = Some pv →
            get fm (n :: v) = if gtb r2 min_r2 then pv else NaN.
Proof.
  intros Hagg Hin.
  apply aggregate_outcome_inv in Hagg as (W' & tr' & Hagg).
  apply aggregate_spec in Hagg as (_ & _ & Hsome);
    [|apply NoDup_fst_zip, NoDup_nonzero].
  destruct (Hsome v p Hin) as (y & r2 & Hy & Hr & Hrm & Hfm).
  exists y, r2. split_and!; [done..|].
  intros n pv Hn. rewrite Hfm, Hn, get_full_nan. done.
Qed.

(** The claim as the specification words it fails on the boundary: the
    first voxel of [volume_a] lies exactly on the fitted line, its R² is 1,
    and with [min_r2 = 1] the test [R² >= min_r2] holds while its
    parameters are left NaN. *)
Lemma aggregation_gate_counterexample :
  let out := fit_outcome line_library (fitting linear_model false)
               (heap_of volume_a) 0%nat mask_a times3 0 (Fin 1) in
  r2_at out [0; 0; 0]%nat = Some (Fin 1) ∧
  geb (Fin 1) (Fin 1) = true ∧
  param_at out 0 [0; 0; 0]%nat = Some NaN ∧
  param_at out 1 [0; 0; 0]%nat = Some NaN.
Proof. vm_compute. done. Qed.

Lemma aggregation_gate_witness :
  ∃ fm rm y r2,
    aggregate_outcome line_library (fitting linear_model false)
      times3 (Fin (1 # 2))
      (zip (nonzero mask_a) [Some [Fin 2; Fin 1]; Some [Fin 2; Fin 1]])
      volume_a [] (full (2 :: shape mask_a)%nat NaN) (zeros (shape mask_a))
      = Ok (fm, rm) ∧
    voxel_view volume_a [0; 0; 0]%nat = Ok y ∧
    get rm [0; 0; 0]%nat = r2 ∧
    get fm [0; 0; 0; 0]%nat = (if gtb r2 (Fin (1 # 2)) then Fin 2 else NaN).
Proof.
  eexists _, _.
  assert (aggregate_outcome line_library (fitting linear_model false)
      times3 (Fin (1 # 2))
      (zip (nonzero mask_a) [Some [Fin 2; Fin 1]; Some [Fin 2; Fin 1]])
      volume_a [] (full (2 :: shape mask_a)%nat NaN) (zeros (shape mask_a))
      = Ok (_, _)) as Hagg by (vm_compute; reflexivity).
  destruct (aggregation_gate _ _ _ _ _ _ _ _ _ _ _ [0; 0; 0]%nat [Fin 2; Fin 1] Hagg)
    as (y & r2 & Hy & _ & Hrm & Hfm).
  { vm_compute. left. }
  exists y, r2. split_and!; [exact Hagg|exact Hy|exact Hrm|].
  by apply (Hfm 0%nat).
Defined.

(** When the R² that [calculate_r2] returns for a voxel is not finite, the
    gate fails whatever [min_r2] is: the parameter cells of the voxel stay
    NaN and the R² map holds that non-finite value. *)
Lemma non_finite_r2_fails_gate E self x min_r2 mask results k W tr fm rm
    v p y r2 :
  aggregate_outcome E self x min_r2 (zip (nonzero mask) results) W tr
    (full (k :: shape mask) NaN) (zeros (shape mask)) = Ok (fm, rm) →
  (v, Some p) ∈ zip (nonzero mask) results →
  voxel_view W v = Ok y →
  (calculate_r2 E y (fit_function self) p x (normalize self)).2 = Ok r2 →
  isfinite r2 = false →
  get rm v = r2 ∧ ∀ n, get fm (n :: v) = NaN.
Proof.
  intros Hagg Hin Hy Hr Hnf.
  apply aggregate_outcome_inv in Hagg as (W' & tr' & Hagg).
  apply aggregate_spec in Hagg as (_ & _ & Hsome);
    [|apply NoDup_fst_zip, NoDup_nonzero].
  destruct (Hsome v p Hin) as (y' & r2' & Hy' & Hr' & Hrm & Hfm).
  rewrite Hy in Hy'. injection Hy' as <-.
  rewrite Hr in Hr'. injection Hr' as <-.
  split; [done|]. intros n. rewrite Hfm.
  assert (gtb r2 min_r2 = false) as ->.
  { destruct (not_finite_cases r2 Hnf) as [-> | [-> | ->]].
    - apply gtb_nan.
    - apply gtb_ninf.
    - exfalso. by eapply calculate_r2_not_pinf. }
  apply get_full_nan.
Qed.

(** A dark voxel in a normalised fit is such a voxel: the solver leaves
    the zeros as they are and the optimiser answers, the evaluator divides
    them by their maximum 0, and the NaN it returns is stored while the
    parameters of the voxel stay NaN. *)
Example dark_voxel_fails_gate :
  let out := fit_outcome line_library (fitting linear_model true)
               (heap_of volume_dark) 0%nat mask_a times3 0 NInf in
  (fit_pixel_fixed line_library (fitting linear_model true) false
     [Fin 0; Fin 0; Fin 0] times3).2 = Ok (Some [Fin 2; Fin 1]) ∧
  r2_at out [0; 0; 1]%nat = Some NaN ∧
  param_at out 0 [0; 0; 1]%nat = Some NaN ∧
  param_at out 1 [0; 0; 1]%nat = Some NaN ∧
  param_at out 0 [0; 0; 0]%nat = Some (Fin 2) ∧
  param_at out 1 [0; 0; 0]%nat = Some (Fin 1).
Proof. vm_compute. done. Qed.

(** C4.  The claim's own case on the code: a voxel with the constant
    series [3, 3, 3].  The solver returns parameters for it, but the total
    sum of squares is 0 and the division in the compiled [get_r2] raises
    [ZeroDivisionError] instead of giving a non-finite R².  The exception
    leaves [calculate_r2] and [fit]: no non-finite value is recorded and
    no map is returned, sequentially or with a pool, although the other
    voxel of the mask was fitted and scored; with the constant voxel
    masked out the same volume is fitted, and the voxel that is left has
    its parameters and its R² in the maps. *)
Theorem constant_series_aborts_fit :
  let self := fitting linear_model false in
  (fit_pixel_fixed line_library self false [Fin 3; Fin 3; Fin 3] times3).2
    = Ok (Some [Fin 2; Fin 1]) ∧
  get_r2 [Fin 2; Fin 0; Fin (-2)] [Fin 3; Fin 3; Fin 3]
    = Raise ZeroDivisionError ∧
  (calculate_r2 line_library [Fin 3; Fin 3; Fin 3] linear_model
     [Fin 2; Fin 1] times3 false).2 = Raise ZeroDivisionError ∧
  fit_outcome line_library self (heap_of volume_flat) 0%nat mask_a times3
    0 NInf = Raise ZeroDivisionError ∧
  fit_outcome line_library self (heap_of volume_flat) 0%nat mask_a times3
    4 NInf = Raise ZeroDivisionError ∧
  fit_events line_library self (heap_of volume_flat) 0%nat mask_a times3
    0 NInf
    = [EvReference (array1 [Fin 1; Fin 3; Fin 5]);
       EvSolve [0; 0; 0]%nat; EvSolve [0; 0; 1]%nat;
       EvScore [0; 0; 0]%nat; EvScore [0; 0; 1]%nat] ∧
  let out := fit_outcome line_library self (heap_of volume_flat) 0%nat
               mask_c times3 0 NInf in
  r2_at out [0; 0; 0]%nat = Some (Fin 1) ∧
  param_at out 0 [0; 0; 0]%nat = Some (Fin 2) ∧
  param_at out 1 [0; 0; 0]%nat = Some (Fin 1).
Proof. vm_compute. done. Qed.

(** A series holding an infinity gives a NaN R². *)
Example infinite_sample_r2 :
  (calculate_r2 line_library [Fin 3; PInf; Fin 3] linear_model
     [Fin 0; Fin 2] times3 false).2 = Ok NaN.
Proof. vm_compute; done. Qed.


(** ** The reference fit (C9) *)

Lemma corner_get a y0 idx :
  corner a = Ok y0 → in_bounds (shape y0) idx = true →
  get y0 idx = get a (take 1 idx ++ [0; 0; 0]%nat ++ drop 1 idx).
Proof.
  unfold corner.
  destruct (shape a) as [|T [|n1 [|n2 [|n3 rest]]]]; try done.
  case_match; [|done]. intros [= <-]. simpl shape. intros Hb.
  unfold get at 1. simpl cells. rewrite lookup_total_alt.
  erewrite elem_of_list_to_map_1; [done|..].
  - rewrite <- list_fmap_compose.
    erewrite (list_fmap_ext _ id); [|done].
    rewrite list_fmap_id. apply (NoDup_indices (T :: rest)).
  - apply list_elem_of_fmap. exists idx. split; [done|].
    by apply (elem_of_indices (T :: rest)).
Qed.

(** C9.  Once the shapes are accepted, [fit] runs [curve_fit] on
    [dicom[:, 0, 0, 0]], the series of the corner voxel, with an empty
    keyword dictionary (no bounds, no start values, none of the caller's
    options), whatever the mask is.  If that call raises, [fit] ends with
    the same exception and the reference fit is the only thing that
    happened: no voxel reached the solver.  If it returns, the number of
    parameter maps is the length of its answer. *)
Theorem reference_fit_is_fatal E self heap dicom mask x pools min_r2 W m3 y0 :
  check_shapes (heap !!! dicom) mask x = Ok (W, m3) →
  corner W = Ok y0 →
  (∀ t, in_bounds (shape y0) [t] = true →
        get y0 [t] = get W [t; 0; 0; 0]%nat) ∧
  (∀ e, curve_fit E (fit_function self) x y0 ∅ = Raise e →
        fit_outcome E self heap dicom mask x pools min_r2 = Raise e ∧
        fit_events E self heap dicom mask x pools min_r2 = [EvReference y0]) ∧
  (∀ popt fm rm,
        curve_fit E (fit_function self) x y0 ∅ = Ok popt →
        fit_outcome E self heap dicom mask x pools min_r2 = Ok (fm, rm) →
        head (shape fm) = Some (length popt)).
Proof.
  intros Hc Hy0. split_and!.
  - intros t Hb. by rewrite (corner_get _ _ _ Hy0 Hb).
  - intros e He. unfold fit_outcome, fit_events, fit, fit_volume.
    rewrite Hc, Hy0, He. done.
  - intros popt fm rm Hp. unfold fit_outcome, fit, fit_volume.
    rewrite Hc, Hy0, Hp.
    destruct (if (pools =? 0)%Z then _ else _) as [[W1 tr1] [rs|]]; [|done].
    destruct (aggregate _ _ _ _ _ _ _ _ _) as [[W' tr'] r] eqn:Hagg.
    simpl. intros ->. apply aggregate_shape in Hagg as [-> _]. done.
Qed.

Lemma reference_fit_is_fatal_witness :
  is_zero (get mask_b [0; 0; 0]%nat) = true ∧
  ∃ y0,
    check_shapes volume_a mask_b times3 = Ok (volume_a, mask_b) ∧
    corner volume_a = Ok y0 ∧
    get y0 [1%nat] = Fin 3 ∧
    fit_outcome (failing_library RuntimeError) (fitting linear_model false)
      (heap_of volume_a) 0%nat mask_b times3 0 NInf = Raise RuntimeError ∧
    fit_events (failing_library RuntimeError) (fitting linear_model false)
      (heap_of volume_a) 0%nat mask_b times3 0 NInf = [EvReference y0] ∧
    ∃ fm rm,
      fit_outcome line_library (fitting linear_model false)
        (heap_of volume_a) 0%nat mask_b times3 0 NInf = Ok (fm, rm) ∧
      head (shape fm) = Some 2%nat.
Proof.
  split; [reflexivity|].
  eexists.
  assert (check_shapes (heap_of volume_a !!! 0%nat) mask_b times3
          = Ok (volume_a, mask_b)) as Hc by (vm_compute; reflexivity).
  assert (corner volume_a = Ok _) as Hy0 by (vm_compute; reflexivity).
  destruct (reference_fit_is_fatal (failing_library RuntimeError)
              (fitting linear_model false) (heap_of volume_a) 0%nat
              mask_b times3 0 NInf _ _ _ Hc Hy0) as (Hget & Hraise & _).
  destruct (reference_fit_is_fatal line_library
              (fitting linear_model false) (heap_of volume_a) 0%nat
              mask_b times3 0 NInf _ _ _ Hc Hy0) as (_ & _ & Hcount).
  split_and!.
  - vm_compute. reflexivity.
  - exact Hy0.
  - rewrite (Hget 1%nat eq_refl). vm_compute. reflexivity.
  - apply (Hraise RuntimeError eq_refl).
  - apply (Hraise RuntimeError eq_refl).
  - eexists _, _.
    assert (fit_outcome line_library (fitting linear_model false)
              (heap_of volume_a) 0%nat mask_b times3 0 NInf = Ok (_, _)) as Hrun
      by (vm_compute; reflexivity).
    split; [exact Hrun|].
    exact (Hcount [Fin 2; Fin 1] _ _ eq_refl Hrun).
Defined.


(** ** Sequential and pooled dispatch (C8) *)

Lemma rmapM_ext_in {A B} (f g : A → result B) l :
  (∀ a, a ∈ l → f a = g a) → rmapM f l = rmapM g l.
Proof.
  induction l as [|a l IH]; intros H; simpl; [done|].
  rewrite (H a) by left. rewrite IH; [done|]. intros b Hb. apply H. by right.
Qed.

Lemma rmapM_length {A B} (f : A → result B) l ys :
  rmapM f l = Ok ys → length ys = length l.
Proof.
  revert ys. induction l as [|a l IH]; intros ys; simpl.
  - by intros [= <-].
  - destruct (f a) as [b|]; [|done]. simpl.
    destruct (rmapM f l) as [bs|]; [|done]. simpl. intros [= <-].
    simpl. f_equal. by apply IH.
Qed.

Lemma rmapM_lookup {A B} (f : A → result B) l ys i a :
  rmapM f l = Ok ys → l !! i = Some a → ∃ b, ys !! i = Some b ∧ f a = Ok b.
Proof.
  revert ys i. induction l as [|a0 l IH]; intros ys i; simpl; [done|].
  destruct (f a0) as [b0|] eqn:Hb0; [|done]. simpl.
  destruct (rmapM f l) as [bs|]; [|done]. simpl. intros [= <-].
  destruct i as [|i]; simpl.
  - intros [= <-]. eauto.
  - by apply IH.
Qed.

(** The sequential dispatch returns what mapping the solver over the
    untouched views returns, and leaves in each voxel it visited the
    series as the solver left it. *)
Lemma dispatch_seq_spec E self cp x vs :
  ∀ W tr W1 tr1 r,
  NoDup vs →
  dispatch_seq E self cp x vs W tr = (W1, tr1, r) →
  same_ok r (rmapM (voxel_view W) vs ≫=
             rmapM (λ y, (fit_pixel_fixed E self cp y x).2)) ∧
  (is_ok r = true →
   (∀ v, v ∈ vs →
         voxel_view W1 v =
         (λ y, (fit_pixel_fixed E self cp y x).1) <$> voxel_view W v) ∧
   (∀ v, v ∉ vs → voxel_view W1 v = voxel_view W v)).
Proof.
  induction vs as [|v0 vs IH]; intros W tr W1 tr1 r Hnd; simpl.
  - intros [= <- _ <-]. split; [done|]. intros _. split; [|done].
    intros v Hv. by apply not_elem_of_nil in Hv.
  - apply NoDup_cons in Hnd as [Hv0 Hnd].
    destruct (voxel_view W v0) as [y|e] eqn:Hy.
    2:{ intros [= _ _ <-]. split; [done|]. done. }
    destruct (fit_pixel_fixed E self cp y x) as [y' r0] eqn:HF.
    assert (rmapM (voxel_view (write_series W v0 y')) vs
            = rmapM (voxel_view W) vs) as Hviews.
    { apply rmapM_ext_in. intros v Hv. apply voxel_view_write_series_ne.
      intros ->. done. }
    destruct r0 as [p|e].
    2:{ intros [= _ _ <-]. split; [|done]. cbn [mbind result_bind].
        destruct (rmapM (voxel_view W) vs) as [ys|]; [|done].
        cbn [mbind result_bind]. simpl. rewrite HF. done. }
    destruct (dispatch_seq E self cp x vs (write_series W v0 y')
                (tr ++ [EvSolve v0])) as [[W2 tr2] rs] eqn:Hrec.
    intros [= <- _ <-].
    destruct (IH _ _ _ _ _ Hnd Hrec) as [Hsame Hview].
    rewrite Hviews in Hsame. split.
    + cbn [mbind result_bind].
      destruct (rmapM (voxel_view W) vs) as [ys|]; cbn [mbind result_bind] in *.
      * simpl. rewrite HF. cbn [mbind result_bind snd].
        destruct (rmapM _ ys) as [ps|]; cbn [mbind result_bind];
          destruct rs; simpl in *; try done. by subst.
      * by destruct rs.
    + intros Hok. assert (is_ok rs = true) as Hok' by by destruct rs.
      destruct (Hview Hok') as [Hin Hout]. split.
      * intros v [->|Hv]%elem_of_cons.
        -- rewrite (Hout v0 Hv0), Hy. simpl. rewrite HF. simpl.
           apply voxel_view_write_series_eq with y; [done|].
           replace y' with (fit_pixel_fixed E self cp y x).1 by by rewrite HF.
           apply fit_pixel_buffer_length.
        -- rewrite (Hin v Hv). rewrite voxel_view_write_series_ne; [done|].
           by intros ->.
      * intros v [Hne Hv]%not_elem_of_cons.
        rewrite (Hout v Hv). by apply voxel_view_write_series_ne.
Qed.

(** The aggregation loop sees the volume only through the views of the
    voxels that have parameters. *)
Lemma aggregate_view_equiv E self x min_r2 items :
  ∀ W1 W2 tr1 tr2 fm rm,
  NoDup (items.*1) →
  (∀ v p, (v, Some p) ∈ items → view_equiv E self x W1 W2 v p) →
  aggregate_outcome E self x min_r2 items W1 tr1 fm rm =
  aggregate_outcome E self x min_r2 items W2 tr2 fm rm.
Proof.
  unfold aggregate_outcome.
  induction items as [|[v0 [p0|]] items IH]; intros W1 W2 tr1 tr2 fm rm Hnd Heq;
    simpl; [done|..].
  - simpl in Hnd. apply NoDup_cons in Hnd as [Hv0 Hnd].
    pose proof (Heq v0 p0 ltac:(left)) as H0. unfold view_equiv in H0.
    destruct (voxel_view W1 v0) as [y1|e1], (voxel_view W2 v0) as [y2|e2];
      try done; [|by subst].
    destruct (calculate_r2 E y1 _ _ _ _) as [y1' r1].
    destruct (calculate_r2 E y2 _ _ _ _) as [y2' r2].
    simpl in H0. subst r2.
    destruct (r1 ≫= _) as [[fm' rm']|]; [|done].
    apply IH; [done|]. intros v p Hin.
    assert (v0 ≠ v) as Hne.
    { intros <-. apply Hv0. apply list_elem_of_fmap. by exists (v0, Some p). }
    unfold view_equiv. rewrite !voxel_view_write_series_ne by done.
    apply Heq. by right.
  - simpl in Hnd. apply NoDup_cons in Hnd as [Hv0 Hnd].
    apply IH; [done|]. intros v p Hin. apply Heq. by right.
Qed.

Lemma same_ok_refl {A} (r : result A) : same_ok r r.
Proof. by destruct r. Qed.

Lemma same_ok_iff {A} (r r' : result A) :
  same_ok r r' ↔ ∀ a, r = Ok a ↔ r' = Ok a.
Proof.
  split.
  - destruct r, r'; simpl; try done. by intros ->.
  - intros H. destruct r as [a|e], r' as [b|e']; simpl.
    + destruct (H a) as [H1 _]. specialize (H1 eq_refl). by injection H1.
    + destruct (H a) as [H1 _]. by specialize (H1 eq_refl).
    + destruct (H b) as [_ H1]. by specialize (H1 eq_refl).
    + done.
Qed.

Lemma rmapM_elem_ok {A B} (f : A → result B) l ys a :
  rmapM f l = Ok ys → a ∈ l → ∃ b, f a = Ok b.
Proof.
  intros Hm [i Hi]%list_elem_of_lookup.
  destruct (rmapM_lookup f l ys i a Hm Hi) as (b & _ & Hb). eauto.
Qed.

(** A pool of a model that can be pickled leaves the volume alone and
    returns exactly when mapping the solver over the views returns, with
    the same list. *)
Lemma dispatch_pool_result E self cp x pools vs W tr :
  picklable (fit_function self) = true → (0 < pools)%Z →
  (dispatch_pool E self cp x pools vs W tr).1.1 = W ∧
  same_ok (dispatch_pool E self cp x pools vs W tr).2
    (rmapM (voxel_view W) vs ≫=
       rmapM (λ y, (fit_pixel_fixed E self cp y x).2)).
Proof.
  intros Hp Hpos. unfold dispatch_pool.
  destruct (Z.ltb_spec pools 0); [lia|]. rewrite Hp.
  destruct (rmapM (voxel_view W) vs) as [[|y ys]|]; [done| |done].
  split; [done|]. cbn [snd mbind result_bind].
  by destruct (rmapM _ (y :: ys)).
Qed.

Lemma fit_volume_pool_irrelevant E self W mask x pools min_r2 :
  picklable (fit_function self) = true → (0 < pools)%Z →
  same_ok (fit_volume E self W mask x 0 min_r2).2
          (fit_volume E self W mask x pools min_r2).2.
Proof.
  intros Hp Hpos. unfold fit_volume.
  destruct (corner W) as [y0|]; [|done].
  destruct (curve_fit E (fit_function self) x y0 ∅) as [popt|]; [|done].
  set (cp := (length (get_function_parameter E (fit_function self)) =? 3)%nat).
  set (fm := full (length popt :: shape mask) NaN).
  set (rm := zeros (shape mask)).
  change (0 =? 0)%Z with true. cbv iota.
  destruct (Z.eqb_spec pools 0) as [|_]; [lia|].
  destruct (dispatch_pool_result E self cp x pools (nonzero mask) W
              [EvReference y0] Hp Hpos) as [HW Hr].
  destruct (dispatch_pool E self cp x pools (nonzero mask) W [EvReference y0])
    as [[Wp trp] rp]. simpl in HW, Hr. subst Wp.
  destruct (dispatch_seq E self cp x (nonzero mask) W [EvReference y0])
    as [[W1 tr1] r] eqn:Hseq.
  destruct (dispatch_seq_spec E self cp x (nonzero mask) _ _ _ _ _
              (NoDup_nonzero mask) Hseq) as [Hsame Hview].
  destruct (rmapM (voxel_view W) (nonzero mask)) as [ys|] eqn:Hys;
    cbn [mbind result_bind] in *; [|by destruct r, rp].
  destruct (rmapM _ ys) as [rs|]; [|by destruct r, rp].
  destruct r as [rs'|]; [|done]. simpl in Hsame. subst rs'.
  destruct rp as [rs'|]; [|done]. simpl in Hr. subst rs'.
  destruct (Hview eq_refl) as [Hin _].
  pose proof (aggregate_view_equiv E self x min_r2 (zip (nonzero mask) rs)
                W1 W tr1 trp fm rm) as Hagg.
  unfold aggregate_outcome in Hagg. rewrite Hagg; [apply same_ok_refl|..].
  - apply NoDup_fst_zip, NoDup_nonzero.
  - intros v p Hvp. apply elem_of_zip_l in Hvp as Hv.
    unfold view_equiv. rewrite (Hin v Hv).
    destruct (rmapM_elem_ok _ _ _ _ Hys Hv) as (y & ->). simpl.
    apply calculate_r2_after_fit_pixel.
Qed.

(** For a model that can be pickled the size of the pool does not matter:
    with any positive size the engine returns a pair of maps exactly when
    the sequential run ([pools = 0]) returns one, and then it is the same
    pair; two positive sizes always give the same outcome. *)
Lemma picklable_pool_size_irrelevant E self heap dicom mask x pools min_r2 :
  picklable (fit_function self) = true → (0 < pools)%Z →
  (∀ out, fit_outcome E self heap dicom mask x 0 min_r2 = Ok out ↔
          fit_outcome E self heap dicom mask x pools min_r2 = Ok out) ∧
  (∀ pools', (0 < pools')%Z →
     fit_outcome E self heap dicom mask x pools' min_r2 =
     fit_outcome E self heap dicom mask x pools min_r2).
Proof.
  intros Hp Hpos. split.
  - apply same_ok_iff. unfold fit_outcome, fit.
    destruct (check_shapes (heap !!! dicom) mask x) as [[W m3]|]; [|done].
    pose proof (fit_volume_pool_irrelevant E self W m3 x pools min_r2 Hp Hpos) as H.
    destruct (fit_volume E self W m3 x 0 min_r2) as [[? ?] ?].
    destruct (fit_volume E self W m3 x pools min_r2) as [[? ?] ?]. done.
  - intros pools' Hpos'. unfold fit_outcome, fit, fit_volume, dispatch_pool.
    destruct (Z.eqb_spec pools 0); [lia|]. destruct (Z.eqb_spec pools' 0); [lia|].
    destruct (Z.ltb_spec pools 0); [lia|]. destruct (Z.ltb_spec pools' 0); [lia|].
    done.
Qed.

Example picklable_pool_sizes :
  ∃ out,
    fit_outcome line_library (fitting linear_model true)
      (heap_of volume_a) 0%nat mask_a times3 0 NInf = Ok out ∧
    fit_outcome line_library (fitting linear_model true)
      (heap_of volume_a) 0%nat mask_a times3 4 NInf = Ok out ∧
    fit_outcome line_library (fitting linear_model true)
      (heap_of volume_a) 0%nat mask_a times3 1 NInf = Ok out.
Proof.
  eexists.
  assert (fit_outcome line_library (fitting linear_model true)
      (heap_of volume_a) 0%nat mask_a times3 0 NInf = Ok _) as H0
    by (vm_compute; reflexivity).
  destruct (picklable_pool_size_irrelevant line_library
              (fitting linear_model true) (heap_of volume_a) 0%nat mask_a
              times3 4 NInf eq_refl eq_refl) as [Hiff Hsame].
  split_and!.
  - exact H0.
  - by apply Hiff.
  - rewrite (Hsame 1%Z eq_refl). by apply Hiff.
Qed.

(** C8.  The claim on the code, for the fitting object that the package
    itself sets up.  The model of a T1rho object is a function defined
    inside its wrapper, which the process pool cannot send to its workers.
    On the volume of two voxels the sequential run ([pools = 0]) returns
    the maps, with the parameters and the R² of both voxels, while the run
    with one worker and the run with four workers raise: they ask for the
    reference fit and for nothing else, and return no map.  The three pool
    sizes 0, 1 and 4 so do not give the same output. *)
Theorem pooled_T1rho_fit_fails :
  ∃ self fm rm,
    T1rho_init t1rho_library 3 t1rho_config None = Ok self ∧
    picklable (fit_function self) = false ∧
    fit_outcome t1rho_library self (heap_of volume_a) 0%nat mask_a times3
      0 NInf = Ok (fm, rm) ∧
    (get fm [0; 0; 0; 0]%nat = Fin 2 ∧ get fm [1; 0; 0; 1]%nat = Fin 40 ∧
     isfinite (get rm [0; 0; 0]%nat) = true ∧
     isfinite (get rm [0; 0; 1]%nat) = true) ∧
    is_ok (fit_outcome t1rho_library self (heap_of volume_a) 0%nat mask_a
             times3 1 NInf) = false ∧
    is_ok (fit_outcome t1rho_library self (heap_of volume_a) 0%nat mask_a
             times3 4 NInf) = false ∧
    fit_events t1rho_library self (heap_of volume_a) 0%nat mask_a times3
      4 NInf = [EvReference (array1 [Fin 1; Fin 3; Fin 5])].
Proof.
  eexists _, _, _. split; [reflexivity|]. split; [reflexivity|].
  split; [vm_compute; reflexivity|]. vm_compute. done.
Qed.


(** ** The evaluator and the normalisation (C6) *)

(** Where the maximum is positive, or without normalisation, the evaluator
    rescales as the solver does. *)
Lemma calculate_r2_matches_spec E y f param x norm :
  (norm = true → ∃ m, np_max y = Ok m ∧ gtb m zero = true) →
  (calculate_r2 E y f param x norm).2 = spec_calculate_r2 E y f param x norm.
Proof.
  intros H. unfold calculate_r2, spec_calculate_r2.
  destruct norm; [|done].
  destruct (H eq_refl) as (m & Hm & Hg).
  unfold normalize_eval, normalize_fit. rewrite Hm. cbn [mbind result_bind].
  by rewrite Hg.
Qed.

(** C6 fails on the code.  The series [-5, -3, -1] has a negative maximum:
    the solver's normalisation leaves it as it is, and on that series the
    line [2 x - 5] is an exact fit, with R² = 1.  [calculate_r2] divides by
    the maximum all the same: the caller's array becomes [5, 3, 1] and the
    R² it returns is -33/2.  On an all-zero series it divides by zero and
    returns NaN, where the solver's rule leaves the series alone. *)
Theorem evaluator_divides_by_nonpositive_max :
  let E := line_library in
  let y := [Fin (-5); Fin (-3); Fin (-1)] in
  let p := [Fin 2; Fin (-5)] in
  normalize_fit y = Ok y ∧
  spec_calculate_r2 E y linear_model p times3 true = Ok (Fin 1) ∧
  calculate_r2 E y linear_model p times3 true
    = ([Fin 5; Fin 3; Fin 1], Ok (Fin (-33 # 2))) ∧
  normalize_fit [zero; zero; zero] = Ok [zero; zero; zero] ∧
  calculate_r2 E [zero; zero; zero] linear_model p times3 true
    = ([NaN; NaN; NaN], Ok NaN).
Proof. vm_compute. done. Qed.


(** ** What the solver absorbs (C3) *)





(** ** In-place normalisation and the caller's volume (C10) *)

Lemma calculate_r2_buffer_length E y f p x norm :
  length (calculate_r2 E y f p x norm).1 = length y.
Proof.
  unfold calculate_r2, normalize_eval. destruct norm; [|done].
  destruct (np_max y); simpl; [|done]. by rewrite length_fmap.
Qed.

(** The evaluator's in-place division lands in the engine's volume. *)
Lemma aggregate_views E self x min_r2 items :
  ∀ W tr fm rm W' tr' out,
  NoDup (items.*1) →
  aggregate E self x min_r2 items W tr fm rm = (W', tr', Ok out) →
  ∀ v p y, (v, Some p) ∈ items → voxel_view W v = Ok y →
    voxel_view W' v =
    Ok (calculate_r2 E y (fit_function self) p x (normalize self)).1.
Proof.
  induction items as [|[v0 [p0|]] items IH];
    intros W tr fm rm W' tr' out Hnd Hagg v p y Hin Hy.
  - by apply not_elem_of_nil in Hin.
  - simpl in Hnd. apply NoDup_cons in Hnd as [Hv0 Hnd]. simpl in Hagg.
    destruct (voxel_view W v0) as [y0|] eqn:Hy0; [|done].
    destruct (calculate_r2 E y0 (fit_function self) p0 x (normalize self))
      as [y0' r] eqn:Hc.
    destruct (r ≫= _) as [[fm1 rm1]|]; [|done].
    assert (voxel_view (write_series W v0 y0') v0 = Ok y0') as Hw.
    { apply voxel_view_write_series_eq with y0; [done|].
      replace y0' with
        (calculate_r2 E y0 (fit_function self) p0 x (normalize self)).1
        by by rewrite Hc.
      apply calculate_r2_buffer_length. }
    apply elem_of_cons in Hin as [[= -> ->]|Hin].
    + rewrite Hy0 in Hy. injection Hy as <-. rewrite Hc. simpl.
      clear IH. revert Hagg Hw Hv0 Hnd.
      generalize (write_series W v0 y0') (tr ++ [EvScore v0]) fm1 rm1.
      clear. induction items as [|[v1 [p1|]] items IH];
        intros W1 tr1 fm1 rm1 Hagg Hw Hv0 Hnd; simpl in *.
      * by injection Hagg as <- _ _.
      * apply not_elem_of_cons in Hv0 as [Hne Hv0].
        apply NoDup_cons in Hnd as [_ Hnd].
        destruct (voxel_view W1 v1) as [y1|]; [|done].
        destruct (calculate_r2 E y1 _ _ _ _) as [y1' r1].
        destruct (r1 ≫= _) as [[fm2 rm2]|]; [|done].
        eapply IH; [done| |done|done].
        rewrite voxel_view_write_series_ne; [done|]. by intros ->.
      * apply not_elem_of_cons in Hv0 as [Hne Hv0].
        apply NoDup_cons in Hnd as [_ Hnd]. by eapply IH.
    + assert (v0 ≠ v) as Hne.
      { intros <-. apply Hv0. apply list_elem_of_fmap. by exists (v0, Some p). }
      eapply IH; [done|done|done|].
      by rewrite voxel_view_write_series_ne.
  - simpl in Hnd. apply NoDup_cons in Hnd as [Hv0 Hnd]. simpl in Hagg.
    apply elem_of_cons in Hin as [[=]|Hin]. by eapply IH.
Qed.

(** C10, as the code has it.  With [normalize] set, [fit_pixel] and
    [calculate_r2] leave the array they are given divided in place.  [fit]
    hands them views of the copy that [astype] makes, which lives at a
    fresh location: every array the caller had in the heap, the input
    volume included, is the same after the call, and the series that the
    aggregation loop has divided are in the engine's own volume. *)
Theorem caller_volume_unchanged E self heap dicom mask x pools min_r2 :
  (∀ l, l ∈ dom heap →
        fit_heap E self heap dicom mask x pools min_r2 !! l = heap !! l) ∧
  is_Some (fit_heap E self heap dicom mask x pools min_r2
             !! fresh (dom heap)) ∧
  (∀ (y y1 : list f64) f bnds cfg cp,
     normalize_fit y = Ok y1 →
     (fit_pixel E y x f bnds cfg true cp).1 = y1) ∧
  (∀ (y z : list f64) f p,
     normalize_eval y = Ok z →
     (calculate_r2 E y f p x true).1 = z) ∧
  (∀ items W tr fm rm W' tr' out v p y z,
     NoDup (items.*1) →
     aggregate E self x min_r2 items W tr fm rm = (W', tr', Ok out) →
     (v, Some p) ∈ items → voxel_view W v = Ok y →
     normalize self = true → normalize_eval y = Ok z →
     voxel_view W' v = Ok z).
Proof.
  split_and!.
  - intros l Hl. unfold fit_heap, fit.
    assert (fresh (dom heap) ≠ l) as Hne.
    { intros <-. by apply is_fresh in Hl. }
    destruct (check_shapes (heap !!! dicom) mask x) as [[W m3]|].
    + destruct (fit_volume E self W m3 x pools min_r2) as [[W' tr] r].
      simpl. by apply lookup_insert_ne.
    + simpl. by apply lookup_insert_ne.
  - unfold fit_heap, fit.
    destruct (check_shapes (heap !!! dicom) mask x) as [[W m3]|].
    + destruct (fit_volume E self W m3 x pools min_r2) as [[W' tr] r].
      simpl. rewrite lookup_insert_eq. eauto.
    + simpl. rewrite lookup_insert_eq. eauto.
  - intros y y1 f bnds cfg cp Hy. unfold fit_pixel. by rewrite Hy.
  - intros y z f p Hz. unfold calculate_r2. by rewrite Hz.
  - intros items W tr fm rm W' tr' out v p y z Hnd Hagg Hin Hy Hn Hz.
    rewrite (aggregate_views E self x min_r2 items _ _ _ _ _ _ _ Hnd Hagg
               v p y Hin Hy).
    unfold calculate_r2. by rewrite Hn, Hz.
Qed.

(** The claim as stated fails: after a normalised sequential fit the
    caller's volume, at location 0, is what it was; the divided series
    [1/5, 3/5, 1] is in the engine's copy, at location 1. *)
Lemma caller_volume_counterexample :
  let h := fit_heap line_library (fitting linear_model true)
             (heap_of volume_a) 0%nat mask_a times3 0 NInf in
  h !! 0%nat = Some volume_a ∧
  series volume_a [0; 0; 0]%nat = Ok [Fin 1; Fin 3; Fin 5] ∧
  series (h !!! 1%nat) [0; 0; 0]%nat = Ok [Fin (1 # 5); Fin (3 # 5); Fin 1].
Proof. vm_compute. done. Qed.

Lemma caller_volume_unchanged_witness :
  0%nat ∈ dom (heap_of volume_a) ∧
  fit_heap line_library (fitting linear_model true)
    (heap_of volume_a) 0%nat mask_a times3 0 NInf !! 0%nat
  = heap_of volume_a !! 0%nat ∧
  normalize_fit [Fin 1; Fin 3; Fin 5] = Ok [Fin (1 # 5); Fin (3 # 5); Fin 1] ∧
  (fit_pixel line_library [Fin 1; Fin 3; Fin 5] times3
     linear_model None None true false).1 = [Fin (1 # 5); Fin (3 # 5); Fin 1] ∧
  ∃ W' tr' out,
    aggregate line_library (fitting linear_model true) times3 NInf
      [([0; 0; 0]%nat, Some [Fin 2; Fin 1])] volume_a []
      (full (2 :: shape mask_a)%nat NaN) (zeros (shape mask_a))
      = (W', tr', Ok out) ∧
    voxel_view W' [0; 0; 0]%nat = Ok [Fin (1 # 5); Fin (3 # 5); Fin 1].
Proof.
  assert (0%nat ∈ dom (heap_of volume_a)) as Hin.
  { unfold heap_of. rewrite dom_singleton_L. by apply elem_of_singleton. }
  destruct (caller_volume_unchanged line_library
              (fitting linear_model true) (heap_of volume_a) 0%nat mask_a
              times3 0 NInf) as (Hheap & _ & Hfit & _ & Hagg).
  split_and!.
  - exact Hin.
  - exact (Hheap 0%nat Hin).
  - reflexivity.
  - exact (Hfit [Fin 1; Fin 3; Fin 5] _ linear_model None None false eq_refl).
  - eexists _, _, _.
    assert (aggregate line_library (fitting linear_model true)
              times3 NInf [([0; 0; 0]%nat, Some [Fin 2; Fin 1])] volume_a []
              (full (2 :: shape mask_a)%nat NaN) (zeros (shape mask_a))
            = (_, _, Ok _)) as Hrun by (vm_compute; reflexivity).
    split; [exact Hrun|].
    eapply (Hagg [([0; 0; 0]%nat, Some [Fin 2; Fin 1])] volume_a []
              _ _ _ _ _ [0; 0; 0]%nat [Fin 2; Fin 1] [Fin 1; Fin 3; Fin 5]).
    + simpl. apply NoDup_singleton.
    + exact Hrun.
    + left.
    + vm_compute. reflexivity.
    + reflexivity.
    + vm_compute. reflexivity.
Defined.


(** ** The start values (C5) *)

Ltac qcmp :=
  repeat (match goal with
          | |- context [(?a ?= ?b)%Q] => destruct (Qcompare_spec a b)
          | H : context [(?a ?= ?b)%Q] |- _ => destruct (Qcompare_spec a b)
          end; simpl in *);
  try done; try (exfalso; lra).

(** [clamp] lands in the interval, and leaves alone what is in it. *)
Lemma clamp_in_range lo hi v :
  isnan v = false → geb hi lo = true →
  geb (clamp lo hi v) lo = true ∧ geb hi (clamp lo hi v) = true.
Proof.
  unfold clamp, pymin, pymax, gtb.
  destruct lo as [| |l|], hi as [| |h|], v as [| |a|]; simpl; try done;
    intros _ Hb; qcmp.
Qed.

Lemma clamp_fixed lo hi v :
  geb v lo = true → geb hi v = true → clamp lo hi v = v.
Proof.
  unfold clamp, pymin, pymax, gtb.
  destruct lo as [| |l|], hi as [| |h|], v as [| |a|]; simpl; try done;
    intros H1 H2; qcmp.
Qed.

Lemma spec_clamp_seed_3 l0 l1 l2 lo u0 u1 u2 hi a b c :
  spec_clamp_seed (Some (l0 :: l1 :: l2 :: lo, u0 :: u1 :: u2 :: hi)) [a; b; c]
  = [clamp l0 u0 a; clamp l1 u1 b; clamp l2 u2 c].
Proof. unfold spec_clamp_seed. simpl. by destruct (zip lo hi). Qed.

Lemma initial_guess_is_spec_seed E y x bnds :
  match bnds with
  | Some (lo, hi) => (3 ≤ length lo)%nat ∧ (3 ≤ length hi)%nat
  | None => True
  end →
  initial_guess E y x bnds = spec_clamp_seed bnds <$> spec_seed E y x.
Proof.
  intros Hb. unfold initial_guess, spec_seed.
  destruct (np_max y) as [S0|]; [|done]. cbn [mbind result_bind].
  destruct (np_min y) as [off|]; [|done]. cbn [mbind result_bind].
  destruct (polyfit1 E x _) as [[slope icpt]|]; [|done]. cbn [mbind result_bind].
  destruct bnds as [[lo hi]|]; [|done].
  destruct Hb as [Hlo Hhi].
  destruct lo as [|l0 [|l1 [|l2 lo]]]; simpl in Hlo; try lia.
  destruct hi as [|u0 [|u1 [|u2 hi]]]; simpl in Hhi; try lia.
  cbn [fmap result_fmap]. rewrite spec_clamp_seed_3.
  unfold clamp, pymin, gtb. reflexivity.
Qed.

(** [kwargs.update(config)]: the start values of the caller's options,
    when there are some, take the place of the computed ones. *)
Lemma solver_kwargs_p0 (p0 : option (list f64)) bnds cfg :
  solver_kwargs p0 bnds cfg !! "p0" =
    match cfg ≫= (.!! "p0") with
    | Some v => Some v
    | None => (VList <$> p0 : option pyval)
    end.
Proof.
  unfold solver_kwargs.
  assert (∀ kw : gmap string pyval,
            match cfg with Some c => c ∪ kw | None => kw end !! "p0" =
            match cfg ≫= (.!! "p0") with
            | Some v => Some v
            | None => kw !! "p0"
            end) as Hcfg.
  { intros kw. destruct cfg as [c|]; [|done]. cbn [mbind option_bind].
    destruct (c !! "p0") as [v|] eqn:Hv.
    - by apply lookup_union_Some_l.
    - by rewrite lookup_union_r. }
  rewrite Hcfg. destruct (cfg ≫= _); [done|].
  destruct bnds as [[lo hi]|], p0 as [p|]; simpl;
    rewrite ?lookup_insert_ne, ?lookup_insert_eq, ?lookup_singleton_ne by done;
    done.
Qed.

(** C5, as the code has it.  The engine turns the start-value heuristic on
    exactly when the model has three parameters.  The start values are
    then [max(y), exp(min(-1/slope, 5)), min(y)], with the slope of the
    line fitted to [ln(y - min(y) + 1e-4)] against [x]; with bounds, each
    value is clamped by [min(max(v, lower), upper)], which lies in
    [lower, upper]; and these values are the [p0] that [curve_fit]
    receives, unless the solver options of the fitting object carry a
    [p0] of their own, which then takes their place. *)
Theorem initial_guess_seed E self (y x y1 : list f64) :
  (if normalize self then normalize_fit y else Ok y) = Ok y1 →
  match bounds self with
  | Some (lo, hi) => (3 ≤ length lo)%nat ∧ (3 ≤ length hi)%nat
  | None => True
  end →
  let calc_p0 :=
    (length (get_function_parameter E (fit_function self)) =? 3)%nat in
  (length (get_function_parameter E (fit_function self)) = 3%nat →
   ∀ seed, spec_seed E y1 x = Ok seed →
     let p0 := spec_clamp_seed (bounds self) seed in
     initial_guess E y1 x (bounds self) = Ok p0 ∧
     solver_kwargs (Some p0) (bounds self) (fit_config self) !! "p0"
       = Some (default (VList p0) (fit_config self ≫= (.!! "p0"))) ∧
     (fit_pixel_fixed E self calc_p0 y x).2 =
       absorb (curve_fit E (fit_function self) x (array1 y1)
                 (solver_kwargs (Some p0) (bounds self) (fit_config self)))) ∧
  (length (get_function_parameter E (fit_function self)) ≠ 3%nat →
   solver_kwargs None (bounds self) (fit_config self) !! "p0"
     = (fit_config self ≫= (.!! "p0")) ∧
   (fit_pixel_fixed E self calc_p0 y x).2 =
     absorb (curve_fit E (fit_function self) x (array1 y1)
               (solver_kwargs None (bounds self) (fit_config self)))) ∧
  (∀ lo hi v, isnan v = false → geb hi lo = true →
     geb (clamp lo hi v) lo = true ∧ geb hi (clamp lo hi v) = true).
Proof.
  intros Hy Hb calc_p0. split_and!.
  - intros H3 seed Hseed p0.
    assert (initial_guess E y1 x (bounds self) = Ok p0) as Hguess
      by by rewrite initial_guess_is_spec_seed, Hseed.
    split_and!; [done| |].
    + rewrite solver_kwargs_p0. by destruct (fit_config self ≫= _).
    + unfold fit_pixel_fixed.
      apply (fit_pixel_outcome E y x _ _ _ _ _ y1 (Some p0) Hy).
      unfold calc_p0. rewrite H3. simpl. by rewrite Hguess.
  - intros H3. split.
    + rewrite solver_kwargs_p0. by destruct (fit_config self ≫= _).
    + unfold fit_pixel_fixed.
      apply (fit_pixel_outcome E y x _ _ _ _ _ y1 None Hy).
      unfold calc_p0.
      by destruct (Nat.eqb_spec
                     (length (get_function_parameter E (fit_function self))) 3).
  - apply clamp_in_range.
Qed.

(** The claim as the specification words it fails when the solver options
    set [p0]: for the three-parameter model with bounds the heuristic is
    on and gives the start values [5, 6, 1], clamped to [4, 6, 2], but with
    the options [{"p0": [1, 1, 3]}] the optimiser receives [1, 1, 3]. *)
Lemma initial_guess_seed_counterexample :
  let self := set_fit_config bounded_fitting
                {[ "p0" := VList [Fin 1; Fin 1; Fin 3] ]} in
  let y := [Fin 1; Fin 3; Fin 5] in
  length (get_function_parameter echo_library (fit_function self)) = 3%nat ∧
  spec_seed echo_library y times3 = Ok [Fin 5; Fin 6; Fin 1] ∧
  initial_guess echo_library y times3 (bounds self)
    = Ok [Fin 4; Fin 6; Fin 2] ∧
  solver_kwargs (Some [Fin 4; Fin 6; Fin 2]) (bounds self) (fit_config self)
    !! "p0" = Some (VList [Fin 1; Fin 1; Fin 3]) ∧
  (fit_pixel_fixed echo_library self true y times3).2
    = Ok (Some [Fin 1; Fin 1; Fin 3]) ∧
  [Fin 1; Fin 1; Fin 3] ≠ [Fin 4; Fin 6; Fin 2].
Proof. vm_compute. split_and!; done. Qed.

Lemma initial_guess_seed_witness :
  spec_seed echo_library [Fin 1; Fin 3; Fin 5] times3
    = Ok [Fin 5; Fin 6; Fin 1] ∧
  initial_guess echo_library [Fin 1; Fin 3; Fin 5] times3
    (bounds bounded_fitting) = Ok [Fin 4; Fin 6; Fin 2] ∧
  solver_kwargs (Some [Fin 4; Fin 6; Fin 2]) (bounds bounded_fitting)
    (fit_config bounded_fitting) !! "p0" = Some (VList [Fin 4; Fin 6; Fin 2]) ∧
  (fit_pixel_fixed echo_library bounded_fitting true
     [Fin 1; Fin 3; Fin 5] times3).2 = Ok (Some [Fin 4; Fin 6; Fin 2]) ∧
  (fit_pixel_fixed line_library (fitting linear_model false) false
     [Fin 1; Fin 3; Fin 5] times3).2 = Ok (Some [Fin 2; Fin 1]) ∧
  geb (clamp (Fin 0) (Fin 4) (Fin 5)) (Fin 0) = true ∧
  geb (Fin 4) (clamp (Fin 0) (Fin 4) (Fin 5)) = true.
Proof.
  assert (spec_seed echo_library [Fin 1; Fin 3; Fin 5] times3
          = Ok [Fin 5; Fin 6; Fin 1]) as Hseed by (vm_compute; reflexivity).
  destruct (initial_guess_seed echo_library bounded_fitting
              [Fin 1; Fin 3; Fin 5] times3 [Fin 1; Fin 3; Fin 5]
              eq_refl (conj (le_n 3) (le_n 3))) as (H3 & _ & Hclamp).
  destruct (H3 eq_refl _ Hseed) as (Hguess & Hk & Hfit).
  destruct (initial_guess_seed line_library
              (fitting linear_model false)
              [Fin 1; Fin 3; Fin 5] times3 [Fin 1; Fin 3; Fin 5]
              eq_refl I) as (_ & Hoff & _).
  destruct Hoff as [_ Hfit2]; [by vm_compute|].
  destruct (Hclamp (Fin 0) (Fin 4) (Fin 5) eq_refl eq_refl) as [Hlo Hhi].
  split_and!.
  - exact Hseed.
  - exact Hguess.
  - exact Hk.
  - etransitivity; [exact Hfit|]. vm_compute. reflexivity.
  - etransitivity; [exact Hfit2|]. vm_compute. reflexivity.
  - exact Hlo.
  - exact Hhi.
Defined.


(** ** The percentile refiner (C2) *)

Lemma for_range_fold {A} (body : A → Z → result A) n : ∀ start a,
  for_range body n start a =
  rfoldM body ((λ k, (start + Z.of_nat k)%Z) <$> seq 0 n) a.
Proof.
  induction n as [|n IH]; intros start a; [done|].
  simpl. rewrite Z.add_0_r. destruct (body a start) as [a'|]; [|done].
  cbn [mbind result_bind]. rewrite IH. f_equal.
  rewrite <- fmap_S_seq, <- list_fmap_compose.
  apply list_fmap_ext. intros _ k _. simpl. lia.
Qed.

Lemma rfoldM_snoc {A B} (f : A → B → result A) l b a :
  rfoldM f (l ++ [b]) a = (rfoldM f l a ≫= λ a', f a' b).
Proof.
  revert a. induction l as [|c l IH]; intros a; simpl.
  - by destruct (f a b).
  - destruct (f a c) as [a'|]; [|done]. cbn [mbind result_bind]. apply IH.
Qed.

Lemma label_step_lists i low up : ∀ (mask : list (option Z)) (fm : list Z),
  (λ v : Z, if bool_decide (v = 0%Z) then None else Some v) <$>
    ((λ v, if gtb (of_Z v) up then 0%Z else v) <$>
       ((λ v, if ltb (of_Z v) low then 0%Z else v) <$>
          zip_with (λ m v, if bool_decide (m = Some i) then v else 0%Z)
                   mask (astype_int16 <$> fm)))
  = zip_with (λ m v, keep i low up m (astype_int16 v)) mask fm.
Proof.
  intros msk. induction msk as [|m msk IH]; intros [|v fm]; try done.
  cbn [fmap list_fmap zip_with]. f_equal; [|apply IH].
  unfold keep. generalize (astype_int16 v). intros w.
  destruct (bool_decide (m = Some i)); cbn [andb negb].
  - destruct (ltb (of_Z w) low); cbn [andb negb].
    + destruct (gtb (of_Z 0) up); by rewrite bool_decide_eq_true_2.
    + destruct (gtb (of_Z w) up); cbn [andb negb];
        [by rewrite bool_decide_eq_true_2|].
      destruct (Z.eqb_spec w 0); cbn [andb negb];
        [by rewrite bool_decide_eq_true_2|by rewrite bool_decide_eq_false_2].
  - destruct (ltb (of_Z 0) low);
      destruct (gtb (of_Z 0) up); by rewrite bool_decide_eq_true_2.
Qed.

(** One step of the loop: the bounds are the percentiles of the cast
    values where the mask has the label, and the new mask keeps the cast
    value of the voxels of the region that are inside the bounds and
    non-zero. *)
Lemma label_step_spec pct self fm mask i mask' :
  label_step pct self fm mask i = Ok mask' →
  ∃ low up,
    let region :=
      snd <$> filter (λ mv, mv.1 = Some i)
        (zip mask (zip_with (λ m v, if bool_decide (m = Some i) then v else 0%Z)
                            mask (astype_int16 <$> fm))) in
    pct region (low_percentile self) = Ok low ∧
    pct region (up_percentile self) = Ok up ∧
    length mask = length fm ∧
    mask' = zip_with (λ m v, keep i low up m (astype_int16 v)) mask fm.
Proof.
  unfold label_step. rewrite length_fmap.
  destruct (Nat.eqb_spec (length mask) (length fm)) as [Hl|]; [|done].
  cbn [mbind result_bind].
  destruct (pct _ (low_percentile self)) as [low|] eqn:Hlow; [|done].
  cbn [mbind result_bind].
  destruct (pct _ (up_percentile self)) as [up|] eqn:Hup; [|done].
  cbn [mbind result_bind]. intros [= <-].
  exists low, up. split_and!; [done..|]. apply label_step_lists.
Qed.

Lemma astype_int16_id v : (-32768 ≤ v ≤ 32767)%Z → astype_int16 v = v.
Proof. intros H. unfold astype_int16. rewrite Z.mod_small; lia. Qed.

Lemma keep_Some i low up m w w' : keep i low up m w = Some w' → w' = w ∧ w ≠ 0%Z.
Proof.
  unfold keep. case_match eqn:H; [|done]. intros [= <-]. split; [done|].
  apply andb_prop in H as [_ H]. apply negb_true_iff in H. by apply Z.eqb_neq.
Qed.

(** C2, as the code has it.  [__call__] returns a pair: the input map,
    untouched, and the mask that the loop leaves.  The loop is a left fold
    of [label_step] over the labels 1, ..., L in ascending order, starting
    from the label mask.  When there is at least one label, every entry of
    the final mask is NaN or the int16 cast of the input value of that
    voxel, never zero, and that cast is the input value itself when it is
    in the int16 range. *)
Theorem refine_is_fold pct self fm mask m1 m2 :
  FittedMap_call pct self fm mask = Ok (m1, m2) →
  ∃ top,
    np_max_int mask = Ok top ∧
    m1 = fm ∧
    rfoldM (label_step pct self fm) (Z.of_nat <$> seq 1 (Z.to_nat top))
           (Some <$> mask) = Ok m2 ∧
    ((1 ≤ top)%Z →
     length m2 = length fm ∧
     ∀ n w, m2 !! n = Some (Some w) →
            ∃ v, fm !! n = Some v ∧ w = astype_int16 v ∧ w ≠ 0%Z ∧
                 ((-32768 ≤ v ≤ 32767)%Z → w = v)) ∧
    (∀ i m m',
       label_step pct self fm m i = Ok m' →
       ∃ low up,
         pct (snd <$> filter (λ mv, mv.1 = Some i)
                (zip m (zip_with
                          (λ m0 v, if bool_decide (m0 = Some i) then v else 0%Z)
                          m (astype_int16 <$> fm))))
             (low_percentile self) = Ok low ∧
         pct (snd <$> filter (λ mv, mv.1 = Some i)
                (zip m (zip_with
                          (λ m0 v, if bool_decide (m0 = Some i) then v else 0%Z)
                          m (astype_int16 <$> fm))))
             (up_percentile self) = Ok up ∧
         m' = zip_with (λ m0 v, keep i low up m0 (astype_int16 v)) m fm).
Proof.
  unfold FittedMap_call.
  destruct (np_max_int mask) as [top|]; [|done]. cbn [mbind result_bind].
  rewrite for_range_fold.
  assert ((λ k, (1 + Z.of_nat k)%Z) <$> seq 0 (Z.to_nat top)
          = Z.of_nat <$> seq 1 (Z.to_nat top)) as ->.
  { rewrite <- fmap_S_seq, <- list_fmap_compose.
    apply list_fmap_ext. intros _ k _. simpl. lia. }
  destruct (rfoldM _ _ _) as [mk|] eqn:Hfold; [|done].
  cbn [mbind result_bind]. intros [= <- <-].
  exists top. split_and!; [done..| |].
  2:{ intros i m m' Hstep.
      apply label_step_spec in Hstep as (low & up & Hl & Hu & _ & ->).
      exists low, up. done. }
  intros Htop.
  destruct (Z.to_nat top) as [|k] eqn:Hk; [lia|].
  rewrite ?Hk in Hfold. rewrite seq_S, fmap_app in Hfold.
  cbn [fmap list_fmap] in Hfold. rewrite rfoldM_snoc in Hfold.
  destruct (rfoldM _ _ _) as [mprev|]; [|done]. cbn [mbind result_bind] in Hfold.
  apply label_step_spec in Hfold as (low & up & _ & _ & Hlen & ->).
  split.
  - rewrite length_zip_with. lia.
  - intros n w Hn. apply lookup_zip_with_Some in Hn as (m & v & Hkeep & _ & Hv).
    symmetry in Hkeep. apply keep_Some in Hkeep as [-> Hnz]. exists v.
    split_and!; [done..|]. intros Hr. by apply astype_int16_id.
Qed.

(** The claim as stated fails.  On a map with the values 40000, 40001 and
    40002 in one region, the refined map of the specification is
    [NaN, 40001, NaN].  The first component returned is the input map,
    with no NaN; the second holds the int16 cast -25535, not 40001. *)
Lemma refine_counterexample :
  FittedMap_call percentile_linear percentiles_5_95
    [40000; 40001; 40002]%Z [1; 1; 1]%Z
    = Ok ([40000; 40001; 40002]%Z, [None; Some (-25535)%Z; None]) ∧
  spec_refine percentile_linear percentiles_5_95
    [40000; 40001; 40002]%Z [1; 1; 1]%Z
    = Ok [None; Some 40001%Z; None] ∧
  Some <$> [40000; 40001; 40002]%Z ≠ [None; Some 40001%Z; None] ∧
  [None; Some (-25535)%Z; None] ≠ [None; Some 40001%Z; None].
Proof. split_and!; [by vm_compute..|done|done]. Qed.

Lemma refine_is_fold_witness :
  FittedMap_call percentile_linear percentiles_5_95
    [10; 20; 30; 7]%Z [1; 1; 1; 0]%Z
    = Ok ([10; 20; 30; 7]%Z, [None; Some 20%Z; None; None]) ∧
  rfoldM (label_step percentile_linear percentiles_5_95 [10; 20; 30; 7]%Z)
    [1%Z] (Some <$> [1; 1; 1; 0]%Z) = Ok [None; Some 20%Z; None; None] ∧
  ∃ v, [10; 20; 30; 7]%Z !! 1%nat = Some v ∧ 20%Z = astype_int16 v ∧ 20%Z = v.
Proof.
  assert (FittedMap_call percentile_linear percentiles_5_95
    [10; 20; 30; 7]%Z [1; 1; 1; 0]%Z
    = Ok ([10; 20; 30; 7]%Z, [None; Some 20%Z; None; None])) as H
    by (vm_compute; reflexivity).
  split; [exact H|].
  destruct (refine_is_fold _ _ _ _ _ _ H)
    as (top & Htop & _ & Hfold & Hlast & _).
  injection Htop as <-. split; [exact Hfold|].
  destruct Hlast as [_ Hlast]; [done|].
  destruct (Hlast 1%nat 20%Z eq_refl) as (v & Hv & Hcast & _ & Hid).
  exists v. split_and!; [exact Hv|exact Hcast|].
  injection Hv as <-. by apply Hid.
Defined.

(** * Further properties of the code *)

(** ** The evaluator *)

Lemma sub_one_nonneg q :
  nonneg q → isnan (sub one q) = true ∨ geb one (sub one q) = true.
Proof.
  destruct q as [| |a|]; simpl; auto.
  intros Ha. right.
  destruct (Qcompare_spec 1 (Qred (1 + Qred (- a)))) as [| H |]; try done.
  rewrite !Qred_correct in H. lra.
Qed.

Lemma get_r2_quotient residuals y r :
  get_r2 residuals y = Ok r →
  ∃ q, nonneg q ∧ r = sub one q.
Proof.
  unfold get_r2.
  destruct (np_mean y) as [m|]; [|done]. simpl.
  destruct (njit_div _ _) as [q|] eqn:Hq; [|done]. simpl.
  intros [= <-]. exists q. split; [|done].
  apply njit_div_div in Hq as ->.
  apply nonneg_div.
  - rewrite <- (list_fmap_id residuals) at 1.
    rewrite <- list_fmap_compose. apply (nonneg_sum_sq id).
  - apply (nonneg_sum_sq (λ v, sub v m)).
Qed.

(** X1.  Whatever the series, the model and the parameters, an R² that
    [calculate_r2] returns is NaN or at most 1: it is one minus a quotient
    of two sums of squares. *)
Theorem r2_at_most_one E y f param x norm r :
  (calculate_r2 E y f param x norm).2 = Ok r →
  isnan r = true ∨ geb one r = true.
Proof.
  unfold calculate_r2.
  destruct (if norm then normalize_eval y else Ok y) as [y1|]; [|done]. simpl.
  destruct (call f x param) as [pred|]; [|done]. simpl.
  destruct (np_sub y1 pred) as [res|]; [|done]. simpl.
  intros (q & Hq & ->)%get_r2_quotient. by apply sub_one_nonneg.
Qed.

Lemma r2_at_most_one_witness :
  (calculate_r2 line_library [Fin 2; Fin 4; Fin 8] linear_model
     [Fin 2; Fin 1] times3 false).2 = Ok (Fin (23 # 56)) ∧
  (isnan (Fin (23 # 56)) = true ∨ geb one (Fin (23 # 56)) = true).
Proof.
  split; [vm_compute; reflexivity|].
  apply (r2_at_most_one line_library [Fin 2; Fin 4; Fin 8]
           linear_model [Fin 2; Fin 1] times3 false).
  vm_compute; reflexivity.
Defined.

Lemma fin_zero q : (q == 0)%Q → fin q = zero.
Proof. intros H. by rewrite (fin_eq q 0 H). Qed.

(** Zero divided by anything but zero and NaN is zero. *)
Lemma div_zero_l d : is_zero d = false → isnan d = false → div zero d = zero.
Proof.
  destruct d as [| |b|]; try done. simpl. intros -> _.
  apply fin_zero. unfold Qdiv. lra.
Qed.

Lemma np_sum_zeros k : np_sum (replicate k zero) = zero.
Proof. unfold np_sum. induction k as [|k IH]; [done|]. simpl. exact IH. Qed.

Lemma np_max_zeros n : np_max (replicate (S n) zero) = Ok zero.
Proof.
  simpl. f_equal. induction n as [|n IH]; [done|]. simpl. exact IH.
Qed.

Lemma elem_of_replicate_S {A} n (a : A) : a ∈ replicate (S n) a.
Proof. simpl. left. Qed.

(** X3.  A series of zeros, as a voxel outside the object has, cannot be
    scored: without normalisation the total sum of squares is zero and the
    compiled [get_r2] raises [ZeroDivisionError]; with normalisation the
    evaluator divides the series by its maximum 0, leaves NaN in the
    caller's array and answers NaN. *)
Theorem zero_series_score E n f param x pred :
  call f x param = Ok pred → length pred = S n →
  (calculate_r2 E (replicate (S n) zero) f param x false).2
    = Raise ZeroDivisionError ∧
  calculate_r2 E (replicate (S n) zero) f param x true
    = (replicate (S n) NaN, Ok NaN).
Proof.
  intros Hcall Hlen.
  assert (∀ res, get_r2 res (replicate (S n) zero) = Raise ZeroDivisionError)
    as Hr2.
  { intros res. unfold get_r2, np_mean.
    rewrite length_replicate, np_sum_zeros.
    assert (njit_div zero (of_nat (S n)) = Ok zero) as ->.
    { unfold njit_div. rewrite is_zero_of_nat_S.
      by rewrite div_zero_l by (done || apply is_zero_of_nat_S). }
    cbn [mbind result_bind].
    rewrite fmap_replicate.
    replace (sq (sub zero zero)) with zero by (vm_compute; reflexivity).
    by rewrite np_sum_zeros. }
  split.
  - unfold calculate_r2. cbn [snd]. rewrite Hcall.
    cbn [mbind result_bind].
    assert (np_sub (replicate (S n) zero) pred
            = Ok (zip_with sub (replicate (S n) zero) pred)) as ->.
    { unfold np_sub. by rewrite length_replicate, Hlen, Nat.eqb_refl. }
    cbn [mbind result_bind]. apply Hr2.
  - unfold calculate_r2, normalize_eval. rewrite np_max_zeros.
    cbn [mbind result_bind]. rewrite fmap_replicate.
    replace (div zero zero) with NaN by done.
    rewrite Hcall. cbn [mbind result_bind].
    assert (np_sub (replicate (S n) NaN) pred
            = Ok (zip_with sub (replicate (S n) NaN) pred)) as ->.
    { unfold np_sub. by rewrite length_replicate, Hlen, Nat.eqb_refl. }
    cbn [mbind result_bind].
    by rewrite get_r2_nan by apply elem_of_replicate_S.
Qed.

Lemma zero_series_score_witness :
  (calculate_r2 line_library (replicate 3 zero) linear_model
     [Fin 2; Fin 1] times3 false).2 = Raise ZeroDivisionError ∧
  calculate_r2 line_library (replicate 3 zero) linear_model
    [Fin 2; Fin 1] times3 true = (replicate 3 NaN, Ok NaN).
Proof.
  assert (call linear_model times3 [Fin 2; Fin 1] = Ok [Fin 1; Fin 3; Fin 5])
    as Hcall by (vm_compute; reflexivity).
  exact (zero_series_score line_library 2 linear_model [Fin 2; Fin 1] times3
           [Fin 1; Fin 3; Fin 5] Hcall eq_refl).
Defined.

(** ** The per-voxel solver *)



(** X5.  An empty series is refused before the optimiser is reached: the
    maximum of an empty array is a [ValueError] in the normalisation and in
    the start values of [fit_pixel], and in the normalisation of
    [calculate_r2]; the array is left empty. *)
Theorem empty_series_raises E x f bnds cfg (norm cp : bool) param :
  (norm = true ∨ cp = true →
   fit_pixel E [] x f bnds cfg norm cp = ([], Raise ValueError)) ∧
  calculate_r2 E [] f param x true = ([], Raise ValueError).
Proof.
  split; [|done]. unfold fit_pixel.
  destruct norm; [done|]. destruct cp; [done|]. by intros [|].
Qed.

Lemma empty_series_raises_witness :
  fit_pixel line_library [] times3 three_parameter_model None None
    false true = ([], Raise ValueError) ∧
  calculate_r2 line_library [] linear_model [Fin 2; Fin 1] times3
    true = ([], Raise ValueError).
Proof.
  split.
  - apply (empty_series_raises line_library times3
             three_parameter_model None None false true [Fin 2; Fin 1]).
    by right.
  - apply (empty_series_raises line_library times3
             linear_model None None false true [Fin 2; Fin 1]).
Defined.

(** X6.  Bounds with fewer than three entries on one side cannot clamp the
    three start values: whenever the start values can be computed without
    bounds, [fit_pixel] with such bounds raises an [IndexError]; it does
    not return [None] and the optimiser is not called. *)
Theorem short_bounds_raise_index_error E (y x : list f64) f lo hi cfg
    (norm : bool) (y1 : list f64) :
  (if norm then normalize_fit y else Ok y) = Ok y1 →
  is_ok (initial_guess E y1 x None) = true →
  (length lo < 3 ∨ length hi < 3)%nat →
  (fit_pixel E y x f (Some (lo, hi)) cfg norm true).2 = Raise IndexError.
Proof.
  intros Hy1 Hseed Hshort. unfold fit_pixel. rewrite Hy1. cbn [snd].
  unfold initial_guess in *.
  destruct (np_max y1) as [S0|]; [|done]. cbn [mbind result_bind] in *.
  destruct (np_min y1) as [off|]; [|done]. cbn [mbind result_bind] in *.
  destruct (polyfit1 E x _) as [[slope icpt]|]; [|done].
  cbn [mbind result_bind] in *.
  destruct lo as [|l0 [|l1 [|l2 lo]]]; try done;
    destruct hi as [|u0 [|u1 [|u2 hi]]]; try done.
  simpl in Hshort. lia.
Qed.

Lemma short_bounds_raise_index_error_witness :
  (fit_pixel echo_library [Fin 1; Fin 3; Fin 5] times3 three_parameter_model
     (Some ([Fin 0; Fin 0], [Fin 4; Fin 10; Fin 10])) None false true).2
  = Raise IndexError.
Proof.
  apply (short_bounds_raise_index_error echo_library [Fin 1; Fin 3; Fin 5]
           times3 three_parameter_model [Fin 0; Fin 0]
           [Fin 4; Fin 10; Fin 10] None false [Fin 1; Fin 3; Fin 5]).
  - reflexivity.
  - vm_compute; reflexivity.
  - left. simpl. lia.
Defined.

Lemma gtb_div_one m : gtb (div m one) zero = gtb m zero.
Proof.
  unfold gtb, one.
  replace zero with (div zero (Fin 1)) at 1 by (vm_compute; reflexivity).
  by apply ltb_div_pos.
Qed.

Lemma normalize_fit_idempotent y y1 :
  normalize_fit y = Ok y1 → normalize_fit y1 = Ok y1.
Proof.
  unfold normalize_fit.
  destruct (np_max y) as [m|] eqn:Hm; [|done]. cbn [mbind result_bind].
  assert (∀ d, (λ v, div v one) <$> ((λ v, div v d) <$> y)
               = (λ v, div v d) <$> y) as Hone.
  { intros d. rewrite <- list_fmap_compose.
    apply list_fmap_ext. intros _ v _. simpl.
    apply div_one_canonical, canonical_div. }
  destruct (gtb m zero) eqn:Hg; intros [= <-].
  - destruct (gtb_zero_cases m Hg) as [->|(q & -> & Hq)].
    + assert (NaN ∈ (λ v, div v PInf) <$> y) as Hnan.
      { apply list_elem_of_fmap. exists PInf. split; [done|].
        by apply np_max_elem. }
      rewrite (np_max_nan _ Hnan). cbn [mbind result_bind gtb ltb].
      by rewrite Hone.
    + rewrite (np_max_div_pos q y (Fin q) Hq Hm), div_self by done.
      cbn [mbind result_bind].
      replace (gtb one zero) with true by (vm_compute; reflexivity).
      by rewrite Hone.
  - pose proof (np_max_div_pos 1 y m eq_refl Hm) as H1. fold one in H1.
    rewrite H1. cbn [mbind result_bind]. rewrite gtb_div_one, Hg.
    by rewrite Hone.
Qed.

(** X7.  The in-place normalisation of [fit_pixel] is idempotent: calling
    [fit_pixel] again on the array that a first call has normalised leaves
    the array as it is and gives the same outcome. *)
Theorem fit_pixel_twice E (y x : list f64) f bnds cfg cp :
  fit_pixel E (fit_pixel E y x f bnds cfg true cp).1 x f bnds cfg true cp
  = fit_pixel E y x f bnds cfg true cp.
Proof.
  unfold fit_pixel.
  destruct (normalize_fit y) as [y1|e] eqn:Hy1; cbn [fst].
  - by rewrite (normalize_fit_idempotent y y1 Hy1).
  - by rewrite Hy1.
Qed.

Lemma same_value_div_one_list (y : list f64) :
  Forall2 same_value ((λ v, div v one) <$> y) y.
Proof.
  induction y as [|v y IH]; [constructor|].
  constructor; [apply div_one_same|exact IH].
Qed.

(** X8.  After the normalisation of [fit_pixel] a series whose maximum is
    finite and positive has the maximum exactly 1; a series whose maximum
    is not above zero keeps its values. *)
Theorem normalised_maximum E (y x : list f64) f bnds cfg cp m :
  np_max y = Ok m →
  (∀ q, m = Fin q → (0 < q)%Q →
        np_max (fit_pixel E y x f bnds cfg true cp).1 = Ok one) ∧
  (gtb m zero = false →
   Forall2 same_value (fit_pixel E y x f bnds cfg true cp).1 y).
Proof.
  intros Hm. unfold fit_pixel, normalize_fit. rewrite Hm.
  cbn [mbind result_bind fst]. split.
  - intros q -> Hq.
    assert (gtb (Fin q) zero = true) as ->.
    { unfold gtb, ltb, zero.
      destruct (Qcompare_spec 0 q); [exfalso; lra|done|exfalso; lra]. }
    by rewrite (np_max_div_pos q y (Fin q) Hq Hm), div_self.
  - intros ->. apply same_value_div_one_list.
Qed.

Lemma normalised_maximum_witness :
  np_max (fit_pixel line_library [Fin 1; Fin 3; Fin 5] times3
            linear_model None None true false).1 = Ok one ∧
  Forall2 same_value
    (fit_pixel line_library [Fin (-5); Fin (-3)] [Fin 0; Fin 1]
       linear_model None None true false).1 [Fin (-5); Fin (-3)].
Proof.
  split.
  - apply (proj1 (normalised_maximum line_library
                      [Fin 1; Fin 3; Fin 5] times3 linear_model None None false
                      (Fin 5) eq_refl) 5%Q eq_refl).
    reflexivity.
  - apply (proj2 (normalised_maximum line_library
                      [Fin (-5); Fin (-3)] [Fin 0; Fin 1] linear_model None
                      None false (Fin (-3)) eq_refl)).
    reflexivity.
Defined.

(** X10.  The keyword arguments that reach [curve_fit] are the tolerance
    [xtol = 1e-6], the start values when they are computed and the bounds
    when the object has some.  A configuration given to the constructor is
    added to them and wins key by key; [set_fit_config] replaces that
    configuration, it does not merge with it. *)
Theorem config_overrides_defaults f boundary config0 norm config p0 k :
  let s0 := AbstractFitting_init f boundary config0 norm in
  let s1 := set_fit_config s0 config in
  solver_kwargs p0 (bounds s0) (fit_config s0) !! k
  = match config0 ≫= (.!! k) with
    | Some v => Some v
    | None => default_kwarg p0 boundary k
    end ∧
  solver_kwargs p0 (bounds s1) (fit_config s1) !! k
  = match config !! k with
    | Some v => Some v
    | None => default_kwarg p0 boundary k
    end.
Proof.
  assert (∀ b, solver_kwargs p0 b None !! k = default_kwarg p0 b k) as Hdef.
  { intros b. unfold solver_kwargs, default_kwarg.
    destruct b as [[lo hi]|], p0 as [p|]; repeat case_decide; subst;
      by simplify_map_eq. }
  assert (∀ c, solver_kwargs p0 boundary (Some c) !! k
               = match c !! k with
                 | Some v => Some v
                 | None => default_kwarg p0 boundary k
                 end) as Hcfg.
  { intros c. rewrite <- Hdef. unfold solver_kwargs at 1.
    fold (solver_kwargs p0 boundary None). rewrite lookup_union.
    by destruct (c !! k) as [v|], (solver_kwargs _ _ None !! k). }
  cbn [AbstractFitting_init set_fit_config bounds fit_config]. split.
  - destruct config0 as [c|]; [apply Hcfg|apply Hdef].
  - apply Hcfg.
Qed.

(** ** The engine *)

Lemma fit_of_volume E self heap dicom mask x pools min_r2 W m3 :
  check_shapes (heap !!! dicom) mask x = Ok (W, m3) →
  fit_outcome E self heap dicom mask x pools min_r2
    = (fit_volume E self W m3 x pools min_r2).2 ∧
  fit_events E self heap dicom mask x pools min_r2
    = (fit_volume E self W m3 x pools min_r2).1.2.
Proof.
  intros H. unfold fit_outcome, fit_events, fit. rewrite H.
  by destruct (fit_volume E self W m3 x pools min_r2) as [[W' tr] r].
Qed.

(** A sequential dispatch that returns has asked the solver each voxel
    once, in the order of the list. *)
Lemma dispatch_seq_events E self cp x vs : ∀ W tr W1 tr1 rs,
  dispatch_seq E self cp x vs W tr = (W1, tr1, Ok rs) →
  tr1 = tr ++ (EvSolve <$> vs).
Proof.
  induction vs as [|v vs IH]; intros W tr W1 tr1 rs; simpl.
  - intros [= _ <- _]. by rewrite app_nil_r.
  - destruct (voxel_view W v) as [y|]; [|done].
    destruct (fit_pixel_fixed E self cp y x) as [y' [p|]]; [|done].
    destruct (dispatch_seq E self cp x vs (write_series W v y')
                (tr ++ [EvSolve v])) as [[W2 tr2] rs'] eqn:Hrec.
    destruct rs' as [rs'|]; [|done]. intros [= _ <- _].
    rewrite (IH _ _ _ _ _ Hrec). by rewrite <- app_assoc.
Qed.

(** What both ways of dispatching give when they return: the results of
    the solver on the views of the untouched volume, one solver event per
    voxel, and a volume on which the evaluator scores as on the untouched
    one. *)
Lemma dispatch_success E self cp x pools vs W tr W1 tr1 rs :
  NoDup vs →
  (if (pools =? 0)%Z then dispatch_seq E self cp x vs W tr
   else dispatch_pool E self cp x pools vs W tr) = (W1, tr1, Ok rs) →
  (rmapM (voxel_view W) vs ≫=
     rmapM (λ y, (fit_pixel_fixed E self cp y x).2)) = Ok rs ∧
  tr1 = tr ++ (EvSolve <$> vs) ∧
  ∀ v y, v ∈ vs → voxel_view W v = Ok y →
    ∃ y', voxel_view W1 v = Ok y' ∧
      ∀ p, (calculate_r2 E y' (fit_function self) p x (normalize self)).2
           = (calculate_r2 E y (fit_function self) p x (normalize self)).2.
Proof.
  intros Hnd. destruct (pools =? 0)%Z.
  - intros Hseq. destruct (dispatch_seq_spec _ _ _ _ _ _ _ _ _ _ Hnd Hseq)
      as [Hsame Hviews].
    split_and!.
    + destruct (rmapM (voxel_view W) vs ≫= _); simpl in Hsame; [by subst|done].
    + by eapply dispatch_seq_events.
    + intros v y Hv Hy. destruct (Hviews eq_refl) as [Hin _].
      rewrite (Hin v Hv), Hy. eexists. split; [done|]. intros p.
      apply calculate_r2_after_fit_pixel.
  - unfold dispatch_pool. destruct (pools <? 0)%Z; [done|].
    destruct (rmapM (voxel_view W) vs) as [ys|] eqn:Hys; [|done].
    assert (length ys = length vs) as Hlen by by eapply rmapM_length.
    destruct ys as [|y0 ys].
    + destruct vs; [|done]. intros [= <- <- <-]. split_and!; [done| |].
      * by rewrite app_nil_r.
      * by intros v y ?%not_elem_of_nil.
    + destruct (picklable (fit_function self)); [|done].
      cbn [mbind result_bind].
      destruct (rmapM _ (y0 :: ys)) as [rs'|]; [|done].
      intros [= <- <- <-]. split_and!; [done|done|]. eauto.
Qed.

(** An aggregation that returns has scored the voxels that carry
    parameters, in the order of the list. *)
Lemma aggregate_events E self x min_r2 items : ∀ W tr fm rm W' tr' out,
  aggregate E self x min_r2 items W tr fm rm = (W', tr', Ok out) →
  tr' = tr ++ (EvScore <$> scored items).
Proof.
  unfold scored.
  induction items as [|[v [p|]] items IH]; intros W tr fm rm W' tr' out.
  - intros [= _ <- _]. by rewrite app_nil_r.
  - cbn [aggregate].
    destruct (voxel_view W v) as [y|]; [|done].
    destruct (calculate_r2 E y (fit_function self) p x (normalize self))
      as [y' r].
    destruct (r ≫= _) as [[fm1 rm1]|]; [|done].
    intros H. rewrite (IH _ _ _ _ _ _ _ H).
    rewrite filter_cons_True by (cbn; eauto).
    cbn [fmap list_fmap fst]. by rewrite <- app_assoc.
  - cbn [aggregate]. intros H.
    rewrite filter_cons_False; [by eapply IH|]. cbn. by intros [? ?].
Qed.

Lemma fit_volume_success E self W m3 x pools min_r2 W' tr fm rm :
  fit_volume E self W m3 x pools min_r2 = (W', tr, Ok (fm, rm)) →
  ∃ y0 popt rs W1,
    corner W = Ok y0 ∧
    curve_fit E (fit_function self) x y0 ∅ = Ok popt ∧
    (rmapM (voxel_view W) (nonzero m3) ≫=
       rmapM (λ y, (fit_pixel_fixed E self
                      (length (get_function_parameter E (fit_function self))
                       =? 3)%nat y x).2)) = Ok rs ∧
    (∀ v y, v ∈ nonzero m3 → voxel_view W v = Ok y →
       ∃ y', voxel_view W1 v = Ok y' ∧
         ∀ p, (calculate_r2 E y' (fit_function self) p x (normalize self)).2
              = (calculate_r2 E y (fit_function self) p x (normalize self)).2) ∧
    aggregate E self x min_r2 (zip (nonzero m3) rs) W1
      (EvReference y0 :: (EvSolve <$> nonzero m3))
      (full (length popt :: shape m3) NaN) (zeros (shape m3))
    = (W', tr, Ok (fm, rm)).
Proof.
  unfold fit_volume.
  destruct (corner W) as [y0|] eqn:Hy0; [|done].
  destruct (curve_fit E (fit_function self) x y0 ∅) as [popt|] eqn:Hpopt;
    [|done].
  destruct (if (pools =? 0)%Z then _ else _) as [[W1 tr1] rs] eqn:Hd.
  destruct rs as [rs|]; [|done].
  destruct (dispatch_success _ _ _ _ _ _ _ _ _ _ _ (NoDup_nonzero m3) Hd)
    as (Hrs & -> & Hviews).
  intros Hagg. by exists y0, popt, rs, W1.
Qed.

(** What a run that returns leaves in the maps at a voxel of the mask. *)
Lemma fit_volume_voxel E self W m3 x pools min_r2 W' tr fm rm v :
  fit_volume E self W m3 x pools min_r2 = (W', tr, Ok (fm, rm)) →
  v ∈ nonzero m3 →
  ∃ y, voxel_view W v = Ok y ∧
    match (fit_pixel_fixed E self
             (length (get_function_parameter E (fit_function self)) =? 3)%nat
             y x).2 with
    | Ok None => get rm v = zero ∧ ∀ n, get fm (n :: v) = NaN
    | Ok (Some p) =>
        ∃ r2,
          (calculate_r2 E y (fit_function self) p x (normalize self)).2
            = Ok r2 ∧
          get rm v = r2 ∧
          ∀ n, get fm (n :: v) =
               if gtb r2 min_r2 then default NaN (p !! n) else NaN
    | Raise _ => False
    end.
Proof.
  intros (y0 & popt & rs & W1 & _ & _ & Hrs & Hviews & Hagg)%fit_volume_success
         Hv.
  destruct (rmapM (voxel_view W) (nonzero m3)) as [ys|] eqn:Hys; [|done].
  cbn [mbind result_bind] in Hrs.
  pose proof Hv as Hv'. apply list_elem_of_lookup in Hv' as [i Hi].
  destruct (rmapM_lookup _ _ _ _ _ Hys Hi) as (y & Hyi & Hy).
  destruct (rmapM_lookup _ _ _ _ _ Hrs Hyi) as (r & Hri & Hr).
  exists y. split; [done|]. rewrite Hr.
  assert ((v, r) ∈ zip (nonzero m3) rs) as Hin.
  { apply list_elem_of_lookup. exists i. by apply lookup_zip_Some. }
  assert (in_bounds (shape m3) v = true) as Hb
    by by apply elem_of_nonzero in Hv as [? _].
  destruct (aggregate_spec _ _ _ _ _ _ _ _ _ _ _ _ _
              (NoDup_fst_zip _ rs (NoDup_nonzero m3)) Hagg)
    as (_ & Hnone & Hsome).
  destruct r as [p|].
  - destruct (Hsome v p Hin) as (y1 & r2 & Hy1 & Hr2 & Hrm & Hfm).
    destruct (Hviews v y Hv Hy) as (y' & Hy' & Heq).
    rewrite Hy' in Hy1. injection Hy1 as <-. rewrite Heq in Hr2.
    exists r2. split_and!; [done|done|].
    intros n. rewrite Hfm. by rewrite get_full_nan.
  - destruct (Hnone v Hin) as [Hrm Hfm]. split.
    + rewrite Hrm. by apply get_full.
    + intros n. rewrite Hfm. apply get_full_nan.
Qed.

Lemma check_shapes_head D mask x W m3 :
  check_shapes D mask x = Ok (W, m3) → head (shape W) = Some (length x).
Proof.
  intros Hcs. destruct (head (shape W)) as [T|] eqn:Hh.
  - f_equal. unfold check_shapes in Hcs.
    destruct (assert _) in Hcs; [|done]. cbn [mbind result_bind] in Hcs.
    destruct (ndim mask =? 2)%nat.
    + destruct (shape (expand_dims D 3)) as [|T' sp] eqn:Hs; [done|].
      cbn [mbind result_bind] in Hcs.
      destruct (Nat.eqb_spec T' (length x)) as [<-|]; [|done].
      injection Hcs as <- _. rewrite Hs in Hh. by injection Hh.
    + destruct (shape D) as [|T' sp] eqn:Hs; [done|].
      cbn [mbind result_bind] in Hcs.
      destruct (Nat.eqb_spec T' (length x)) as [<-|]; [|done].
      injection Hcs as <- _. rewrite Hs in Hh. by injection Hh.
  - exfalso. unfold check_shapes in Hcs.
    destruct (assert _) in Hcs; [|done]. cbn [mbind result_bind] in Hcs.
    destruct (ndim mask =? 2)%nat.
    + destruct (shape (expand_dims D 3)) as [|T' sp] eqn:Hs; [done|].
      cbn [mbind result_bind] in Hcs. destruct (assert _) in Hcs; [|done].
      injection Hcs as <- _. by rewrite Hs in Hh.
    + destruct (shape D) as [|T' sp] eqn:Hs; [done|].
      cbn [mbind result_bind] in Hcs. destruct (assert _) in Hcs; [|done].
      injection Hcs as <- _. by rewrite Hs in Hh.
Qed.

Lemma fit_outcome_volume E self heap dicom mask x pools min_r2 W m3 out :
  check_shapes (heap !!! dicom) mask x = Ok (W, m3) →
  fit_outcome E self heap dicom mask x pools min_r2 = Ok out →
  ∃ W', fit_volume E self W m3 x pools min_r2
        = (W', fit_events E self heap dicom mask x pools min_r2, Ok out).
Proof.
  intros Hcs. destruct (fit_of_volume E self heap dicom mask x pools min_r2
                          W m3 Hcs) as [-> ->].
  destruct (fit_volume E self W m3 x pools min_r2) as [[W' tr] r].
  simpl. intros ->. by exists W'.
Qed.

(** X11.  In the maps of a run that returns, a voxel that the mask leaves
    out has the R² 0 and NaN in every parameter map: only the non-zero
    voxels of the mask are ever written. *)
Theorem unmasked_voxels_stay_empty E self heap dicom mask x pools min_r2
    W m3 fm rm v :
  check_shapes (heap !!! dicom) mask x = Ok (W, m3) →
  fit_outcome E self heap dicom mask x pools min_r2 = Ok (fm, rm) →
  in_bounds (shape m3) v = true → is_zero (get m3 v) = true →
  get rm v = zero ∧ ∀ n, get fm (n :: v) = NaN.
Proof.
  intros Hcs Hfit Hb Hz.
  destruct (fit_outcome_volume _ _ _ _ _ _ _ _ _ _ _ Hcs Hfit) as [W' Hvol].
  apply fit_volume_success in Hvol
    as (y0 & popt & rs & W1 & _ & _ & _ & _ & Hagg).
  destruct (aggregate_spec _ _ _ _ _ _ _ _ _ _ _ _ _
              (NoDup_fst_zip _ rs (NoDup_nonzero m3)) Hagg)
    as (Hout & _ & _).
  destruct (Hout v) as [Hrm Hfm].
  { intros ([v' r] & -> & Hin%elem_of_zip_l)%list_elem_of_fmap.
    apply elem_of_nonzero in Hin as [_ Hnz]. simpl in *. congruence. }
  split.
  - rewrite Hrm. by apply get_full.
  - intros n. rewrite Hfm. apply get_full_nan.
Qed.

Lemma unmasked_voxels_stay_empty_witness :
  ∃ fm rm,
    fit_outcome line_library (fitting linear_model false)
      (heap_of volume_a) 0%nat mask_b times3 0 NInf = Ok (fm, rm) ∧
    get rm [0; 0; 0]%nat = zero ∧
    get fm [0; 0; 0; 0]%nat = NaN ∧ get fm [1; 0; 0; 0]%nat = NaN.
Proof.
  eexists _, _.
  assert (fit_outcome line_library (fitting linear_model false)
            (heap_of volume_a) 0%nat mask_b times3 0 NInf = Ok (_, _))
    as Hfit by (vm_compute; reflexivity).
  assert (check_shapes (heap_of volume_a !!! 0%nat) mask_b times3
          = Ok (volume_a, mask_b)) as Hcs by (vm_compute; reflexivity).
  assert (in_bounds (shape mask_b) [0; 0; 0]%nat = true) as Hb
    by (vm_compute; reflexivity).
  assert (is_zero (get mask_b [0; 0; 0]%nat) = true) as Hz
    by (vm_compute; reflexivity).
  destruct (unmasked_voxels_stay_empty line_library
              (fitting linear_model false) (heap_of volume_a) 0%nat mask_b
              times3 0 NInf volume_a mask_b _ _ [0; 0; 0]%nat Hcs Hfit Hb Hz)
    as [Hrm Hfm].
  split_and!; [exact Hfit|exact Hrm|apply Hfm|apply Hfm].
Defined.

(** X12.  End to end: in a run that returns, sequential or pooled, every
    non-zero voxel of the mask has a series in the float copy of the
    volume, as long as [x]; [fit_pixel] has returned on it, and the maps
    hold at the voxel
    what [fit_pixel] and [calculate_r2] give on that series: nothing but
    the initial 0 and NaN when the optimiser failed, else the R² and, when
    it is above the threshold, the parameters. *)
Theorem fit_masked_voxel E self heap dicom mask x pools min_r2 W m3 fm rm v :
  check_shapes (heap !!! dicom) mask x = Ok (W, m3) →
  fit_outcome E self heap dicom mask x pools min_r2 = Ok (fm, rm) →
  v ∈ nonzero m3 →
  ∃ y, voxel_view W v = Ok y ∧ length y = length x ∧
    match (fit_pixel_fixed E self
             (length (get_function_parameter E (fit_function self)) =? 3)%nat
             y x).2 with
    | Ok None => get rm v = zero ∧ ∀ n, get fm (n :: v) = NaN
    | Ok (Some p) =>
        ∃ r2,
          (calculate_r2 E y (fit_function self) p x (normalize self)).2
            = Ok r2 ∧
          get rm v = r2 ∧
          ∀ n, get fm (n :: v) =
               if gtb r2 min_r2 then default NaN (p !! n) else NaN
    | Raise _ => False
    end.
Proof.
  intros Hcs Hfit Hv.
  destruct (fit_outcome_volume _ _ _ _ _ _ _ _ _ _ _ Hcs Hfit) as [W' Hvol].
  destruct (fit_volume_voxel _ _ _ _ _ _ _ _ _ _ _ _ Hvol Hv)
    as (y & Hy & Hcase).
  exists y. split_and!; [done| |done].
  pose proof (check_shapes_head _ _ _ _ _ Hcs) as Hhead.
  assert (series W v = Ok y) as Hser.
  { unfold voxel_view in Hy. by destruct v as [|? [|? [|? [|? ?]]]]. }
  apply series_length in Hser. rewrite Hhead in Hser. by injection Hser.
Qed.

Lemma fit_masked_voxel_witness :
  ∃ fm rm,
    fit_outcome line_library (fitting linear_model true)
      (heap_of volume_a) 0%nat mask_a times3 4 (Fin (1 # 2)) = Ok (fm, rm) ∧
    ∃ y, voxel_view volume_a [0; 0; 1]%nat = Ok y ∧
      length y = length times3 ∧
      match (fit_pixel_fixed line_library
               (fitting linear_model true) false y times3).2 with
      | Ok None => get rm [0; 0; 1]%nat = zero ∧
                   ∀ n, get fm (n :: [0; 0; 1]%nat) = NaN
      | Ok (Some p) =>
          ∃ r2,
            (calculate_r2 line_library y linear_model p times3
               true).2 = Ok r2 ∧
            get rm [0; 0; 1]%nat = r2 ∧
            ∀ n, get fm (n :: [0; 0; 1]%nat) =
                 if gtb r2 (Fin (1 # 2)) then default NaN (p !! n) else NaN
      | Raise _ => False
      end.
Proof.
  eexists _, _.
  assert (fit_outcome line_library (fitting linear_model true)
            (heap_of volume_a) 0%nat mask_a times3 4 (Fin (1 # 2)) = Ok (_, _))
    as Hfit by (vm_compute; reflexivity).
  split; [exact Hfit|].
  assert (check_shapes (heap_of volume_a !!! 0%nat) mask_a times3
          = Ok (volume_a, mask_a)) as Hcs by (vm_compute; reflexivity).
  apply (fit_masked_voxel line_library (fitting linear_model true)
           (heap_of volume_a) 0%nat mask_a times3 4 (Fin (1 # 2))
           volume_a mask_a _ _ [0; 0; 1]%nat Hcs Hfit).
  vm_compute. right. left.
Defined.

(** X13.  With the default threshold [min_r2 = -inf] the parameters of a
    fitted voxel are stored exactly when the R² stored for it is finite:
    a NaN or infinite R² leaves NaN in the parameter maps. *)
Theorem default_threshold_keeps_finite E self heap dicom mask x pools
    W m3 fm rm v y p :
  check_shapes (heap !!! dicom) mask x = Ok (W, m3) →
  fit_outcome E self heap dicom mask x pools NInf = Ok (fm, rm) →
  v ∈ nonzero m3 →
  voxel_view W v = Ok y →
  (fit_pixel_fixed E self
     (length (get_function_parameter E (fit_function self)) =? 3)%nat
     y x).2 = Ok (Some p) →
  (calculate_r2 E y (fit_function self) p x (normalize self)).2
    = Ok (get rm v) ∧
  ∀ n pv, p !! n = Some pv →
          get fm (n :: v) = if isfinite (get rm v) then pv else NaN.
Proof.
  intros Hcs Hfit Hv Hy Hp.
  destruct (fit_outcome_volume _ _ _ _ _ _ _ _ _ _ _ Hcs Hfit) as [W' Hvol].
  destruct (fit_volume_voxel _ _ _ _ _ _ _ _ _ _ _ _ Hvol Hv)
    as (y' & Hy' & Hcase).
  rewrite Hy in Hy'. injection Hy' as <-. rewrite Hp in Hcase.
  destruct Hcase as (r2 & Hr2 & Hrm & Hfm). subst r2.
  split; [done|]. intros n pv Hn. rewrite Hfm, Hn. simpl.
  pose proof (calculate_r2_not_pinf _ _ _ _ _ _ _ Hr2) as Hinf.
  by destruct (get rm v).
Qed.

Lemma default_threshold_keeps_finite_witness :
  ∃ fm rm,
    fit_outcome line_library (fitting linear_model false)
      (heap_of volume_a) 0%nat mask_a times3 0 NInf = Ok (fm, rm) ∧
    (calculate_r2 line_library [Fin 2; Fin 4; Fin 8] linear_model
       [Fin 2; Fin 1] times3 false).2 = Ok (get rm [0; 0; 1]%nat) ∧
    get fm [0; 0; 0; 1]%nat
      = (if isfinite (get rm [0; 0; 1]%nat) then Fin 2 else NaN).
Proof.
  eexists _, _.
  assert (fit_outcome line_library (fitting linear_model false)
            (heap_of volume_a) 0%nat mask_a times3 0 NInf = Ok (_, _))
    as Hfit by (vm_compute; reflexivity).
  assert (check_shapes (heap_of volume_a !!! 0%nat) mask_a times3
          = Ok (volume_a, mask_a)) as Hcs by (vm_compute; reflexivity).
  destruct (default_threshold_keeps_finite line_library
              (fitting linear_model false) (heap_of volume_a) 0%nat mask_a
              times3 0 volume_a mask_a _ _
              [0; 0; 1]%nat [Fin 2; Fin 4; Fin 8] [Fin 2; Fin 1] Hcs Hfit)
    as [Hr2 Hfm].
  { vm_compute. right. left. }
  { vm_compute; reflexivity. }
  { vm_compute; reflexivity. }
  split_and!; [exact Hfit|exact Hr2|by apply (Hfm 0%nat)].
Defined.

(** X14.  A run that returns has asked for the reference fit, then for the
    solver on every non-zero voxel of the mask, once each and in row-major
    order, then for the evaluator on the voxels for which the solver
    returned parameters, in the same order; nothing else, and no voxel
    that the mask leaves out. *)
Theorem fit_events_of_success E self heap dicom mask x pools min_r2 W m3 out :
  check_shapes (heap !!! dicom) mask x = Ok (W, m3) →
  fit_outcome E self heap dicom mask x pools min_r2 = Ok out →
  ∃ y0 rs,
    corner W = Ok y0 ∧
    (rmapM (voxel_view W) (nonzero m3) ≫=
       rmapM (λ y, (fit_pixel_fixed E self
                      (length (get_function_parameter E (fit_function self))
                       =? 3)%nat y x).2)) = Ok rs ∧
    fit_events E self heap dicom mask x pools min_r2
    = EvReference y0 :: (EvSolve <$> nonzero m3)
        ++ (EvScore <$> scored (zip (nonzero m3) rs)).
Proof.
  intros Hcs Hfit. destruct out as [fm rm].
  destruct (fit_outcome_volume _ _ _ _ _ _ _ _ _ _ _ Hcs Hfit) as [W' Hvol].
  apply fit_volume_success in Hvol
    as (y0 & popt & rs & W1 & Hy0 & _ & Hrs & _ & Hagg).
  exists y0, rs. split_and!; [done|done|].
  by apply aggregate_events in Hagg.
Qed.

Lemma fit_events_of_success_witness :
  ∃ y0 rs,
    corner volume_a = Ok y0 ∧
    (rmapM (voxel_view volume_a) (nonzero mask_b) ≫=
       rmapM (λ y, (fit_pixel_fixed line_library
                      (fitting linear_model false) false y times3).2))
      = Ok rs ∧
    fit_events line_library (fitting linear_model false)
      (heap_of volume_a) 0%nat mask_b times3 0 NInf
    = EvReference y0 :: (EvSolve <$> nonzero mask_b)
        ++ (EvScore <$> scored (zip (nonzero mask_b) rs)).
Proof.
  destruct (fit_outcome line_library (fitting linear_model false)
              (heap_of volume_a) 0%nat mask_b times3 0 NInf)
    as [out|e] eqn:Hfit; [|by vm_compute in Hfit].
  apply (fit_events_of_success line_library
           (fitting linear_model false) (heap_of volume_a) 0%nat mask_b
           times3 0 NInf volume_a mask_b out);
    [vm_compute; reflexivity|exact Hfit].
Defined.

(** X15.  A negative number of processes is refused by the process pool:
    once the shapes are accepted and the reference fit has returned, the
    run raises a [ValueError], and no voxel has been handed to the
    solver. *)
Theorem negative_pools_raise E self heap dicom mask x pools min_r2
    W m3 y0 popt :
  check_shapes (heap !!! dicom) mask x = Ok (W, m3) →
  corner W = Ok y0 →
  curve_fit E (fit_function self) x y0 ∅ = Ok popt →
  (pools < 0)%Z →
  fit_outcome E self heap dicom mask x pools min_r2 = Raise ValueError ∧
  fit_events E self heap dicom mask x pools min_r2 = [EvReference y0].
Proof.
  intros Hcs Hy0 Hpopt Hneg.
  destruct (fit_of_volume E self heap dicom mask x pools min_r2 W m3 Hcs)
    as [-> ->].
  unfold fit_volume. rewrite Hy0, Hpopt.
  assert ((pools =? 0)%Z = false) as -> by lia.
  unfold dispatch_pool.
  assert ((pools <? 0)%Z = true) as -> by lia. done.
Qed.

Lemma negative_pools_raise_witness :
  ∃ y0,
    corner volume_a = Ok y0 ∧
    fit_outcome line_library (fitting linear_model false)
      (heap_of volume_a) 0%nat mask_a times3 (-1) NInf = Raise ValueError ∧
    fit_events line_library (fitting linear_model false)
      (heap_of volume_a) 0%nat mask_a times3 (-1) NInf = [EvReference y0].
Proof.
  destruct (corner volume_a) as [y0|e] eqn:Hy0; [|by vm_compute in Hy0].
  exists y0. split; [done|].
  apply (negative_pools_raise line_library
           (fitting linear_model false) (heap_of volume_a) 0%nat mask_a times3
           (-1) NInf volume_a mask_a y0 [Fin 2; Fin 1]);
    [vm_compute; reflexivity|exact Hy0|reflexivity|lia].
Defined.

(** X16.  The maps of a run that returns have the shape of the mask, a 2-D
    mask taken with the unit depth it is promoted to, and the parameter
    maps have one leading axis more, as long as the parameter vector that
    the reference fit returned. *)
Theorem fit_map_shapes E self heap dicom mask x pools min_r2 W m3 fm rm :
  check_shapes (heap !!! dicom) mask x = Ok (W, m3) →
  fit_outcome E self heap dicom mask x pools min_r2 = Ok (fm, rm) →
  ∃ y0 popt,
    corner W = Ok y0 ∧
    curve_fit E (fit_function self) x y0 ∅ = Ok popt ∧
    shape fm = length popt :: shape m3 ∧
    shape rm = shape m3 ∧
    (ndim mask ≠ 2%nat → m3 = mask) ∧
    (ndim mask = 2%nat → shape m3 = shape mask ++ [1%nat]).
Proof.
  intros Hcs Hfit.
  destruct (fit_outcome_volume _ _ _ _ _ _ _ _ _ _ _ Hcs Hfit) as [W' Hvol].
  apply fit_volume_success in Hvol
    as (y0 & popt & rs & W1 & Hy0 & Hpopt & _ & _ & Hagg).
  apply aggregate_shape in Hagg as [Hfm Hrm].
  exists y0, popt. split_and!; [done|done|done|done|..].
  - intros Hnd. unfold check_shapes in Hcs.
    destruct (assert _) in Hcs; [|done]. cbn [mbind result_bind] in Hcs.
    apply Nat.eqb_neq in Hnd. rewrite Hnd in Hcs.
    destruct (shape (heap !!! dicom)) as [|T sp]; [done|].
    cbn [mbind result_bind] in Hcs.
    destruct (assert _) in Hcs; [|done]. by injection Hcs as _ <-.
  - intros Hnd. by destruct (check_shapes_ok_2d _ _ _ _ _ Hnd Hcs)
      as (_ & _ & ? & _).
Qed.

Lemma fit_map_shapes_witness :
  ∃ fm rm,
    fit_outcome line_library (fitting linear_model false)
      (heap_of volume_2d) 0%nat mask_2d times3 0 NInf = Ok (fm, rm) ∧
    shape fm = [2; 1; 2; 1]%nat ∧ shape rm = [1; 2; 1]%nat.
Proof.
  eexists _, _.
  assert (fit_outcome line_library (fitting linear_model false)
            (heap_of volume_2d) 0%nat mask_2d times3 0 NInf = Ok (_, _))
    as Hfit by (vm_compute; reflexivity).
  assert (check_shapes (heap_of volume_2d !!! 0%nat) mask_2d times3
          = Ok (expand_dims volume_2d 3, expand_dims mask_2d 2)) as Hcs
    by (vm_compute; reflexivity).
  destruct (fit_map_shapes line_library
              (fitting linear_model false) (heap_of volume_2d) 0%nat mask_2d
              times3 0 NInf (expand_dims volume_2d 3)
              (expand_dims mask_2d 2) _ _ Hcs Hfit)
    as (y0 & popt & Hy0 & Hpopt & Hfm & Hrm & _ & _).
  injection Hpopt as <-.
  split_and!; [exact Hfit|exact Hfm|exact Hrm].
Defined.

Lemma unpicklable_pool E self cp x pools vs W tr :
  picklable (fit_function self) = false → vs ≠ [] →
  is_ok (dispatch_pool E self cp x pools vs W tr).2 = false ∧
  (dispatch_pool E self cp x pools vs W tr).1.2 = tr.
Proof.
  intros Hp Hvs. unfold dispatch_pool.
  destruct (pools <? 0)%Z; [done|].
  destruct (rmapM (voxel_view W) vs) as [ys|] eqn:Hys; [|done].
  apply rmapM_length in Hys.
  destruct ys as [|y ys]; [by destruct vs|]. by rewrite Hp.
Qed.

Lemma T1rho_init_inv E dim config boundary self :
  T1rho_init E dim config boundary = Ok self →
  ∃ TR T1 alpha TE T2star,
    config !! "TR" = Some TR ∧ config !! "T1" = Some T1 ∧
    config !! "alpha" = Some alpha ∧ config !! "TE" = Some TE ∧
    config !! "T2star" = Some T2star ∧
    self = {| fit_function := fit_T1rho_wrapper_aronen E TR T1 alpha TE T2star;
              bounds := boundary; fit_config := None; normalize := false |}.
Proof.
  unfold T1rho_init, getkey.
  destruct (config !! "TR") as [TR|]; [|done].
  destruct (config !! "T1") as [T1|]; [|done].
  destruct (config !! "alpha") as [alpha|]; [|done].
  destruct (config !! "TE") as [TE|]; [|done].
  destruct (config !! "T2star") as [T2star|]; [|done].
  cbn [mbind result_bind]. intros [= <-].
  by exists TR, T1, alpha, TE, T2star.
Qed.

(** X17.  A T1rho object can only be fitted sequentially: its model is a
    function defined inside [fit_T1rho_wrapper_aronen], which the process
    pool cannot send to its workers, so with any [pools] other than 0 and
    a mask that has a non-zero voxel the run fails, and no voxel has been
    handed to the solver. *)
Theorem T1rho_fit_needs_pools_zero E dim config boundary self heap dicom mask
    x pools min_r2 W m3 :
  T1rho_init E dim config boundary = Ok self →
  check_shapes (heap !!! dicom) mask x = Ok (W, m3) →
  nonzero m3 ≠ [] → pools ≠ 0%Z →
  is_ok (fit_outcome E self heap dicom mask x pools min_r2) = false ∧
  ∀ v, EvSolve v ∉ fit_events E self heap dicom mask x pools min_r2.
Proof.
  intros Hinit Hcs Hnz Hpools.
  assert (picklable (fit_function self) = false) as Hp.
  { by apply T1rho_init_inv in Hinit
      as (TR & T1 & alpha & TE & T2star & _ & _ & _ & _ & _ & ->). }
  destruct (fit_of_volume E self heap dicom mask x pools min_r2 W m3 Hcs)
    as [-> ->].
  unfold fit_volume.
  destruct (corner W) as [y0|]; [|split; [done|by intros v ?%not_elem_of_nil]].
  destruct (curve_fit E (fit_function self) x y0 ∅) as [popt|].
  2:{ split; [done|]. intros v Hin. apply list_elem_of_singleton in Hin. done. }
  assert ((pools =? 0)%Z = false) as -> by lia.
  destruct (unpicklable_pool E self
              (length (get_function_parameter E (fit_function self)) =? 3)%nat
              x pools (nonzero m3) W [EvReference y0] Hp Hnz) as [Hok Htr].
  destruct (dispatch_pool E self _ x pools (nonzero m3) W [EvReference y0])
    as [[W1 tr1] rs].
  simpl in Hok, Htr. subst tr1. destruct rs as [rs|]; [done|].
  split; [done|]. intros v Hin. apply list_elem_of_singleton in Hin. done.
Qed.

Lemma T1rho_fit_needs_pools_zero_witness :
  ∃ self,
    T1rho_init t1rho_library 3 t1rho_config None = Ok self ∧
    is_ok (fit_outcome t1rho_library self (heap_of volume_a) 0%nat mask_a
             times3 2 NInf) = false ∧
    EvSolve [0; 0; 0]%nat ∉
      fit_events t1rho_library self (heap_of volume_a) 0%nat mask_a
        times3 2 NInf.
Proof.
  destruct (T1rho_init t1rho_library 3 t1rho_config None) as [self|e] eqn:Hi;
    [|by vm_compute in Hi].
  exists self. split; [done|].
  destruct (T1rho_fit_needs_pools_zero t1rho_library 3 t1rho_config None self
              (heap_of volume_a) 0%nat mask_a times3 2 NInf volume_a mask_a
              Hi) as [Hok Hev].
  - vm_compute; reflexivity.
  - vm_compute. discriminate.
  - lia.
  - split; [exact Hok|apply Hev].
Defined.

(** ** The T1rho object *)

(** X18.  [T1rho.__init__] needs the five acquisition constants: when one
    of the keys [TR], [T1], [alpha], [TE], [T2star] is missing from the
    configuration it raises a [KeyError]; otherwise it returns an object
    with the model of [fit_T1rho_wrapper_aronen] for these constants, the
    given boundary, no solver configuration and no normalisation. *)
Theorem T1rho_init_keys E dim config boundary :
  match T1rho_init E dim config boundary with
  | Ok self =>
      (∃ TR T1 alpha TE T2star,
         config !! "TR" = Some TR ∧ config !! "T1" = Some T1 ∧
         config !! "alpha" = Some alpha ∧ config !! "TE" = Some TE ∧
         config !! "T2star" = Some T2star ∧
         fit_function self = fit_T1rho_wrapper_aronen E TR T1 alpha TE T2star) ∧
      bounds self = boundary ∧ fit_config self = None ∧
      normalize self = false
  | Raise e =>
      e = KeyError ∧
      ∃ k, k ∈ ["TR"; "T1"; "alpha"; "TE"; "T2star"] ∧ config !! k = None
  end.
Proof.
  unfold T1rho_init, getkey.
  destruct (config !! "TR") as [TR|] eqn:H1; cbn [mbind result_bind];
    [|split; [done|exists "TR"; split; [set_solver|done]]].
  destruct (config !! "T1") as [T1|] eqn:H2; cbn [mbind result_bind];
    [|split; [done|exists "T1"; split; [set_solver|done]]].
  destruct (config !! "alpha") as [alpha|] eqn:H3; cbn [mbind result_bind];
    [|split; [done|exists "alpha"; split; [set_solver|done]]].
  destruct (config !! "TE") as [TE|] eqn:H4; cbn [mbind result_bind];
    [|split; [done|exists "TE"; split; [set_solver|done]]].
  destruct (config !! "T2star") as [T2star|] eqn:H5; cbn [mbind result_bind];
    [|split; [done|exists "T2star"; split; [set_solver|done]]].
  split; [|done]. by exists TR, T1, alpha, TE, T2star.
Qed.

(** ** The percentile map refiner *)

(** X19.  [FittedMap.__init__] accepts exactly the percentile pairs with
    [0 <= low < up <= 100] and raises an [AssertionError] for every other
    pair. *)
Theorem FittedMap_init_valid low up :
  FittedMap_init low up =
    if decide (0 ≤ low ∧ low < up ∧ up ≤ 100)%Z
    then Ok {| low_percentile := low; up_percentile := up |}
    else Raise AssertionError.
Proof.
  unfold FittedMap_init, assert.
  destruct (Z.ltb_spec low up), (Z.leb_spec 0 low), (Z.leb_spec low 100),
    (Z.leb_spec 0 up), (Z.leb_spec up 100);
    cbn [andb mbind result_bind]; case_decide; try done; lia.
Qed.

(** X20.  A label mask without a positive label is returned as it is,
    next to the map, and no percentile is computed: the loop over the
    labels has nothing to do. *)
Theorem no_label_no_refinement pct self fm mask top :
  np_max_int mask = Ok top → (top ≤ 0)%Z →
  FittedMap_call pct self fm mask = Ok (fm, Some <$> mask).
Proof.
  intros Hmax Htop. unfold FittedMap_call. rewrite Hmax.
  cbn [mbind result_bind].
  by replace (Z.to_nat top) with 0%nat by lia.
Qed.

Lemma no_label_no_refinement_witness :
  FittedMap_call (λ _ _, Raise (OtherError "not called")) percentiles_5_95
    [10; 20; 30]%Z [0; 0; -1]%Z
  = Ok ([10; 20; 30]%Z, [Some 0; Some 0; Some (-1)]%Z).
Proof.
  apply (no_label_no_refinement _ percentiles_5_95 [10; 20; 30]%Z
           [0; 0; -1]%Z 0%Z); [reflexivity|lia].
Defined.

Lemma label_step_kept pct self fm m0 i m' n w :
  label_step pct self fm m0 i = Ok m' →
  m' !! n = Some (Some w) →
  m0 !! n = Some (Some i) ∧ ∃ v, fm !! n = Some v ∧ w = astype_int16 v.
Proof.
  intros (low & up & _ & _ & _ & ->)%label_step_spec
         (m & v & Hk & Hm & Hv)%lookup_zip_with_Some.
  symmetry in Hk. pose proof (keep_Some _ _ _ _ _ _ Hk) as [-> _].
  unfold keep in Hk. destruct (bool_decide_reflect (m = Some i)) as [->|];
    [|done].
  split; [done|]. by exists v.
Qed.

(** A voxel that is kept at the end held, before the first step, the
    label of that step. *)
Lemma labels_fold_first pct self fm ls : ∀ m0 m2 n w,
  rfoldM (label_step pct self fm) ls m0 = Ok m2 →
  m2 !! n = Some (Some w) →
  match ls with
  | [] => m0 !! n = Some (Some w)
  | i0 :: _ => m0 !! n = Some (Some i0)
  end.
Proof.
  induction ls as [|i0 ls IH]; intros m0 m2 n w; simpl.
  - by intros [= <-].
  - destruct (label_step pct self fm m0 i0) as [ma|] eqn:Hstep; [|done].
    cbn [mbind result_bind]. intros Hfold Hn.
    specialize (IH ma m2 n w Hfold Hn).
    destruct ls as [|i1 ls].
    + by destruct (label_step_kept _ _ _ _ _ _ _ _ Hstep IH).
    + by destruct (label_step_kept _ _ _ _ _ _ _ _ Hstep IH).
Qed.

Lemma rfoldM_snoc_inv {A B} (f : A → B → result A) l b a a2 :
  rfoldM f (l ++ [b]) a = Ok a2 →
  ∃ a1, rfoldM f l a = Ok a1 ∧ f a1 b = Ok a2.
Proof.
  rewrite rfoldM_snoc. destruct (rfoldM f l a) as [a1|]; [|done].
  cbn [mbind result_bind]. eauto.
Qed.

(** X22.  The loop of the refiner overwrites the label mask with map
    values after its first round.  So a voxel that the returned mask
    keeps had the label 1 in the label mask, whatever the number of
    labels, and when there are two labels or more the int16 value of the
    map at that voxel is the largest label: voxels of the labels from 2
    on never survive as such. *)
Theorem refine_keeps_first_label pct self fm mask m1 m2 top n w :
  FittedMap_call pct self fm mask = Ok (m1, m2) →
  np_max_int mask = Ok top → (1 ≤ top)%Z →
  m2 !! n = Some (Some w) →
  mask !! n = Some 1%Z ∧
  (∃ v, fm !! n = Some v ∧ w = astype_int16 v) ∧
  ((2 ≤ top)%Z → w = top).
Proof.
  intros Hcall Hmax Htop Hn. unfold FittedMap_call in Hcall.
  rewrite Hmax in Hcall. cbn [mbind result_bind] in Hcall.
  destruct (for_range _ _ _ _) as [m|] eqn:Hfor; [|done].
  injection Hcall as _ ->. rewrite for_range_fold in Hfor.
  destruct (Z.to_nat top) as [|k] eqn:Hk; [lia|].
  split_and!.
  - pose proof (labels_fold_first _ _ _ _ _ _ n w Hfor Hn) as H1.
    cbn in H1. rewrite list_lookup_fmap in H1.
    destruct (mask !! n) as [l|]; [|done]. by injection H1 as ->.
  - rewrite seq_S, fmap_app in Hfor.
    apply rfoldM_snoc_inv in Hfor as (mp & _ & Hstep).
    by destruct (label_step_kept _ _ _ _ _ _ _ _ Hstep Hn).
  - intros Htop2. rewrite seq_S, fmap_app in Hfor.
    apply rfoldM_snoc_inv in Hfor as (mp & Hfront & Hstep).
    destruct (label_step_kept _ _ _ _ _ _ _ _ Hstep Hn)
      as (Hmp & v & Hv & ->).
    destruct k as [|k']; [lia|].
    rewrite seq_S, fmap_app in Hfront.
    apply rfoldM_snoc_inv in Hfront as (mq & _ & Hprev).
    destruct (label_step_kept _ _ _ _ _ _ _ _ Hprev Hmp)
      as (_ & v' & Hv' & Heq).
    rewrite Hv in Hv'. injection Hv' as <-. rewrite <- Heq. cbn. lia.
Qed.

Lemma refine_keeps_first_label_witness :
  FittedMap_call percentile_linear percentiles_5_95
    [2; 2; 2; 5]%Z [1; 1; 1; 2]%Z
    = Ok ([2; 2; 2; 5]%Z, [Some 2; Some 2; Some 2; None]%Z) ∧
  [1; 1; 1; 2]%Z !! 0%nat = Some 1%Z ∧
  (∃ v, [2; 2; 2; 5]%Z !! 0%nat = Some v ∧ 2%Z = astype_int16 v) ∧
  2%Z = 2%Z.
Proof.
  assert (FittedMap_call percentile_linear percentiles_5_95
            [2; 2; 2; 5]%Z [1; 1; 1; 2]%Z
          = Ok ([2; 2; 2; 5]%Z, [Some 2; Some 2; Some 2; None]%Z)) as Hcall
    by (vm_compute; reflexivity).
  destruct (refine_keeps_first_label percentile_linear percentiles_5_95
              [2; 2; 2; 5]%Z [1; 1; 1; 2]%Z _ _ 2%Z 0%nat 2%Z Hcall eq_refl)
    as (Hl & Hv & Hw); [lia|reflexivity|].
  split_and!; [exact Hcall|exact Hl|exact Hv|apply Hw; lia].
Defined.

(** The region of the first round, read off the label mask and the map. *)
Lemma first_region i : ∀ (msk fm : list Z),
  (filter (λ mv, mv.1 = Some i)
     (zip (Some <$> msk)
        (zip_with (λ (m : option Z) v, if bool_decide (m = Some i) then v else 0%Z)
           (Some <$> msk) (astype_int16 <$> fm)))).*2
  = (λ mv, astype_int16 mv.2) <$> filter (λ mv : Z * Z, mv.1 = i) (zip msk fm).
Proof.
  induction msk as [|l msk IH]; intros [|v fm]; try done.
  cbn [fmap list_fmap zip_with].
  destruct (decide (l = i)) as [->|Hne].
  - rewrite !filter_cons_True by done.
    rewrite bool_decide_eq_true_2 by done.
    cbn [fmap list_fmap snd]. f_equal. apply IH.
  - rewrite !filter_cons_False by (cbn; congruence). apply IH.
Qed.

(** X23.  With a single label the refiner is a percentile window: the
    bounds are the two percentiles of the int16 map values over the voxels
    of label 1, and the returned mask keeps a voxel exactly when it has
    the label 1 and its int16 map value is not zero, not below the lower
    and not above the upper bound; every other voxel is NaN. *)
Theorem refine_single_label pct self fm mask m1 m2 :
  np_max_int mask = Ok 1%Z →
  FittedMap_call pct self fm mask = Ok (m1, m2) →
  ∃ low up,
    let region :=
      (λ mv, astype_int16 mv.2) <$>
        filter (λ mv : Z * Z, mv.1 = 1%Z) (zip mask fm) in
    pct region (low_percentile self) = Ok low ∧
    pct region (up_percentile self) = Ok up ∧
    length m2 = length mask ∧
    ∀ n w, m2 !! n = Some (Some w) ↔
      ∃ v, mask !! n = Some 1%Z ∧ fm !! n = Some v ∧ w = astype_int16 v ∧
           w ≠ 0%Z ∧ ltb (of_Z w) low = false ∧ gtb (of_Z w) up = false.
Proof.
  intros Hmax Hcall. unfold FittedMap_call in Hcall.
  rewrite Hmax in Hcall. cbn [mbind result_bind] in Hcall.
  change (Z.to_nat 1) with 1%nat in Hcall. cbn [for_range] in Hcall.
  destruct (label_step pct self fm (Some <$> mask) 1) as [m|] eqn:Hstep;
    [|done].
  cbn [mbind result_bind] in Hcall. injection Hcall as _ ->.
  apply label_step_spec in Hstep as (low & up & Hlow & Hup & Hlen & ->).
  cbn zeta in Hlow, Hup.
  exists low, up. cbn zeta.
  rewrite length_fmap in Hlen.
  split_and!.
  - rewrite <- first_region. exact Hlow.
  - rewrite <- first_region. exact Hup.
  - rewrite length_zip_with, length_fmap. lia.
  - intros n w. rewrite lookup_zip_with_Some. split.
    + intros (m & v & Hk & Hm & Hv). symmetry in Hk.
      pose proof (keep_Some _ _ _ _ _ _ Hk) as [-> Hnz].
      unfold keep in Hk.
      destruct (bool_decide_reflect (m = Some 1%Z)) as [->|]; [|done].
      destruct (ltb (of_Z (astype_int16 v)) low); [done|].
      destruct (gtb (of_Z (astype_int16 v)) up); [done|].
      rewrite list_lookup_fmap in Hm.
      destruct (mask !! n) as [l|]; [|done]. injection Hm as ->.
      by exists v.
    + intros (v & Hm & Hv & -> & Hnz & Hlo & Hhi).
      exists (Some 1%Z), v. split_and!; [|by rewrite list_lookup_fmap, Hm|done].
      unfold keep. rewrite bool_decide_eq_true_2 by done.
      rewrite Hlo, Hhi. cbn [andb negb].
      by destruct (Z.eqb_spec (astype_int16 v) 0).
Qed.

Lemma refine_single_label_witness :
  ∃ low up,
    percentile_linear [10; 20; 30]%Z 5 = Ok low ∧
    percentile_linear [10; 20; 30]%Z 95 = Ok up ∧
    ltb (of_Z 20) low = false ∧ gtb (of_Z 20) up = false ∧
    ltb (of_Z 10) low = true.
Proof.
  destruct (refine_single_label percentile_linear percentiles_5_95
              [10; 20; 30; 7]%Z [1; 1; 1; 0]%Z [10; 20; 30; 7]%Z
              [None; Some 20%Z; None; None] eq_refl)
    as (low & up & Hlow & Hup & _ & Hkeep); [vm_compute; reflexivity|].
  exists low, up. cbn zeta in Hlow, Hup.
  destruct (proj1 (Hkeep 1%nat 20%Z) eq_refl)
    as (v & _ & _ & _ & _ & Hlo & Hhi).
  split_and!; [exact Hlow|exact Hup|exact Hlo|exact Hhi|].
  destruct (ltb (of_Z 10) low) eqn:H10; [done|].
  assert ([None; Some 20%Z; None; None] !! 0%nat = Some (Some 10%Z))
    as Habs; [|done].
  apply Hkeep. exists 10%Z. split_and!; try done.
  vm_compute in Hup. injection Hup as <-. reflexivity.
Defined.

(** ** The viewer *)

(** X24.  [calc_scaling_factor] looks at the second and third axis only:
    it raises an [IndexError] for a shape with fewer than three axes and a
    [ZeroDivisionError] when both axes are empty; otherwise the factor is
    the largest one for which the scaled slice fits into 500 x 500 pixels,
    and it is zero exactly when one of the two axes is longer than 500. *)
Theorem scaling_factor_fits dicom_shape :
  match dicom_shape !! 1%nat, dicom_shape !! 2%nat with
  | Some d1, Some d2 =>
      if decide (d1 = 0 ∧ d2 = 0)%nat
      then calc_scaling_factor dicom_shape = Raise ZeroDivisionError
      else ∃ s, calc_scaling_factor dicom_shape = Ok s ∧
                (s * d1 ≤ 500)%nat ∧ (s * d2 ≤ 500)%nat ∧
                (500 < (s + 1) * Nat.max d1 d2)%nat ∧
                (s = 0%nat ↔ (500 < d1 ∨ 500 < d2)%nat)
  | _, _ => calc_scaling_factor dicom_shape = Raise IndexError
  end.
Proof.
  unfold calc_scaling_factor, item_nat, floordiv.
  destruct (dicom_shape !! 1%nat) as [d1|] eqn:H1.
  2:{ rewrite (lookup_ge_None_2 dicom_shape 2); [done|].
      apply lookup_ge_None_1 in H1. lia. }
  destruct (dicom_shape !! 2%nat) as [d2|]; [|done].
  cbn [mbind result_bind].
  case_decide as Hz.
  - destruct Hz as [-> ->]. done.
  - destruct (Nat.eqb_spec (Nat.max d1 d2) 0) as [|Hm]; [lia|].
    eexists. split; [done|].
    pose proof (Nat.div_mod 500 (Nat.max d1 d2) Hm) as Hdm.
    pose proof (Nat.mod_upper_bound 500 (Nat.max d1 d2) Hm) as Hub.
    set (s := (500 / Nat.max d1 d2)%nat) in *.
    split_and!; [nia|nia|nia|].
    split; [intros Hs; rewrite Hs in Hdm; lia|].
    intros Hbig. destruct s; [done|]. nia.
Qed.

(** ** More edges of the T1rho model and of the engine *)

(** X25.  The model of a T1rho object takes exactly three parameters, a
    call with another number is a [TypeError]; with three parameters it
    answers one value per time point.  A configured [T2star] of zero is
    accepted by the constructor and shows only when the model is called:
    when [TE] and [T2star] are both Python numbers, [-TE / T2star] is
    Python's division and every call raises a [ZeroDivisionError]; when
    one of the two is a NumPy scalar the division is NumPy's and the call
    returns, as it does with any [T2star] that is not zero.  The model of
    [fit_T1rho_wrapper_raush] divides arrays only and returns for every
    choice of its constants. *)
Theorem T1rho_model_calls E dim config boundary self x p :
  T1rho_init E dim config boundary = Ok self →
  (length p ≠ 3%nat → call (fit_function self) x p = Raise TypeError) ∧
  (length p = 3%nat →
   ∀ te t2, config !! "TE" = Some te → config !! "T2star" = Some t2 →
     match te, t2 with
     | PyNumber _, PyNumber d =>
         if is_zero d
         then call (fit_function self) x p = Raise ZeroDivisionError
         else is_ok (call (fit_function self) x p) = true
     | _, _ => is_ok (call (fit_function self) x p) = true
     end) ∧
  (∀ ys, call (fit_function self) x p = Ok ys →
         length p = 3%nat ∧ length ys = length x) ∧
  (length p = 3%nat →
   ∀ TR T1 alpha,
     ∃ ys, call (fit_T1rho_wrapper_raush E TR T1 alpha) x p = Ok ys ∧
           length ys = length x).
Proof.
  intros (TR & T1 & alpha & TE & T2star & _ & _ & _ & H4 & H5 & ->)%T1rho_init_inv.
  cbn [fit_function fit_T1rho_wrapper_aronen fit_T1rho_wrapper_raush call].
  destruct p as [|S0 [|t1rho [|offset [|extra p]]]]; cbn [length];
    (split_and!; [try done; lia|try done; try lia|try done
                 |try done; try lia]).
  - intros _ te t2 Hte Ht2. rewrite H4 in Hte. rewrite H5 in Ht2.
    injection Hte as <-. injection Ht2 as <-.
    destruct TE as [a|a], T2star as [d|d]; try done.
    cbn [scalar_neg scalar_div]. unfold py_div. by destruct (is_zero d).
  - intros ys. destruct (scalar_div (scalar_neg TE) T2star) as [echo|]; [|done].
    cbn [mbind result_bind]. intros [= <-]. by rewrite length_fmap.
  - intros _ TR' T1' alpha'. eexists. split; [done|]. by rewrite length_fmap.
Qed.

Lemma T1rho_model_calls_witness :
  ∃ self,
    T1rho_init t1rho_library 3
      (<["T2star" := PyNumber zero]> t1rho_config) None = Ok self ∧
    call (fit_function self) times3 [Fin 1; Fin 2] = Raise TypeError ∧
    call (fit_function self) times3 [Fin 1; Fin 2; Fin 3]
      = Raise ZeroDivisionError.
Proof.
  destruct (T1rho_init t1rho_library 3
              (<["T2star" := PyNumber zero]> t1rho_config) None)
    as [self|e] eqn:Hi; [|by vm_compute in Hi].
  exists self. split; [done|]. split.
  - apply (T1rho_model_calls _ _ _ _ self times3 [Fin 1; Fin 2] Hi).
    simpl. lia.
  - apply (proj1 (proj2 (T1rho_model_calls _ _ _ _ self times3
                           [Fin 1; Fin 2; Fin 3] Hi))
             eq_refl (PyNumber (Fin 10)) (PyNumber zero)).
    + vm_compute; reflexivity.
    + vm_compute; reflexivity.
Defined.

(** The same configuration with the zero as a NumPy scalar: the call
    returns. *)
Example T1rho_model_numpy_zero :
  ∃ self,
    T1rho_init t1rho_library 3
      (<["T2star" := NpScalar zero]> t1rho_config) None = Ok self ∧
    is_ok (call (fit_function self) times3 [Fin 1; Fin 2; Fin 3]) = true.
Proof. eexists. split; [reflexivity|]. vm_compute. done. Qed.

Lemma check_shapes_ndim D mask x W m3 :
  check_shapes D mask x = Ok (W, m3) → ndim W = S (ndim m3).
Proof.
  unfold check_shapes, assert.
  destruct (Z.eqb_spec (Z.of_nat (ndim mask)) (Z.of_nat (ndim D) - 1))
    as [Hr|]; [|done].
  cbn [mbind result_bind].
  destruct (Nat.eqb_spec (ndim mask) 2) as [H2|H2].
  - destruct (shape (expand_dims D 3)) as [|T sp]; [done|].
    cbn [mbind result_bind]. destruct (T =? length x)%nat; [|done].
    cbn [mbind result_bind]. intros [= <- <-].
    rewrite !ndim_expand_dims. lia.
  - destruct (shape D) as [|T sp]; [done|].
    cbn [mbind result_bind]. destruct (T =? length x)%nat; [|done].
    cbn [mbind result_bind]. intros [= <- <-]. lia.
Qed.

(** X26.  The assertion on the ranks lets through masks that the engine
    cannot handle.  With a mask of rank 1 the reference series
    [dicom[:, 0, 0, 0]] does not exist and the run raises an [IndexError]
    before the reference fit.  With a mask of rank 4 or more that has a
    non-zero voxel the run fails too, for every [pools]: should the
    reference fit return, the loop over the voxels cannot unpack the index
    into three components; no voxel reaches the solver. *)
Theorem unsupported_mask_rank E self heap dicom mask x pools min_r2 W m3 :
  check_shapes (heap !!! dicom) mask x = Ok (W, m3) →
  ((ndim m3 < 3)%nat →
   fit_outcome E self heap dicom mask x pools min_r2 = Raise IndexError ∧
   fit_events E self heap dicom mask x pools min_r2 = []) ∧
  ((3 < ndim m3)%nat → nonzero m3 ≠ [] →
   is_ok (fit_outcome E self heap dicom mask x pools min_r2) = false ∧
   ∀ v, EvSolve v ∉ fit_events E self heap dicom mask x pools min_r2).
Proof.
  intros Hcs. pose proof (check_shapes_ndim _ _ _ _ _ Hcs) as Hnd.
  destruct (fit_of_volume E self heap dicom mask x pools min_r2 W m3 Hcs)
    as [-> ->].
  unfold fit_volume. split.
  - intros Hlt. unfold corner. unfold ndim in Hnd, Hlt.
    destruct (shape W) as [|T [|n1 [|n2 [|n3 rest]]]]; try done.
    simpl in Hnd. lia.
  - intros Hgt Hnz.
    destruct (corner W) as [y0|];
      [|split; [done|by intros v ?%not_elem_of_nil]].
    destruct (curve_fit E (fit_function self) x y0 ∅) as [popt|].
    2:{ split; [done|]. by intros v ?%list_elem_of_singleton. }
    destruct (nonzero m3) as [|v vs] eqn:Hvs; [done|].
    assert (voxel_view W v = Raise ValueError) as Hview.
    { assert (v ∈ nonzero m3) as Hv by (rewrite Hvs; left).
      apply elem_of_nonzero in Hv as [Hb%in_bounds_length _].
      unfold ndim in Hgt.
      destruct v as [|a [|b [|c [|d v]]]]; simpl in Hb; try lia. done. }
    destruct (pools =? 0)%Z.
    + cbn [dispatch_seq]. rewrite Hview.
      split; [done|]. by intros v' ?%list_elem_of_singleton.
    + unfold dispatch_pool. destruct (pools <? 0)%Z.
      * split; [done|]. by intros v' ?%list_elem_of_singleton.
      * cbn [rmapM]. rewrite Hview.
        split; [done|]. by intros v' ?%list_elem_of_singleton.
Qed.

Lemma unsupported_mask_rank_witness :
  (fit_outcome line_library (fitting linear_model false)
     (heap_of (array_of [3; 2]%nat (replicate 6 one))) 0%nat
     (array_of [2]%nat [one; one]) times3 0 NInf = Raise IndexError) ∧
  is_ok (fit_outcome line_library (fitting linear_model false)
           (heap_of (array_of [3; 1; 1; 1; 2]%nat (replicate 6 one))) 0%nat
           (array_of [1; 1; 1; 2]%nat [one; one]) times3 4 NInf) = false ∧
  EvSolve [0; 0; 0; 0]%nat ∉
    fit_events line_library (fitting linear_model false)
      (heap_of (array_of [3; 1; 1; 1; 2]%nat (replicate 6 one))) 0%nat
      (array_of [1; 1; 1; 2]%nat [one; one]) times3 4 NInf.
Proof.
  split.
  - apply (proj1 (unsupported_mask_rank line_library
                    (fitting linear_model false)
                    (heap_of (array_of [3; 2]%nat (replicate 6 one))) 0%nat
                    (array_of [2]%nat [one; one]) times3 0 NInf
                    (array_of [3; 2]%nat (replicate 6 one))
                    (array_of [2]%nat [one; one]) eq_refl)).
    unfold ndim. simpl. lia.
  - destruct (proj2 (unsupported_mask_rank line_library
                    (fitting linear_model false)
                    (heap_of (array_of [3; 1; 1; 1; 2]%nat (replicate 6 one)))
                    0%nat (array_of [1; 1; 1; 2]%nat [one; one]) times3 4 NInf
                    (array_of [3; 1; 1; 1; 2]%nat (replicate 6 one))
                    (array_of [1; 1; 1; 2]%nat [one; one]) eq_refl)
             ltac:(unfold ndim; simpl; lia) ltac:(vm_compute; discriminate))
      as [Hok Hev].
    split; [exact Hok|apply Hev].
Defined.

(** ** What the engine reads of the volume and of the mask *)

(** Two volumes with the same series at the voxels of the list lead the
    sequential dispatch to the same results and events. *)
Lemma dispatch_seq_ext E self cp x vs : ∀ W1 W2 tr,
  NoDup vs →
  (∀ v, v ∈ vs → voxel_view W1 v = voxel_view W2 v) →
  (dispatch_seq E self cp x vs W1 tr).2 = (dispatch_seq E self cp x vs W2 tr).2 ∧
  (dispatch_seq E self cp x vs W1 tr).1.2
    = (dispatch_seq E self cp x vs W2 tr).1.2.
Proof.
  induction vs as [|v0 vs IH]; intros W1 W2 tr Hnd Hv; [done|].
  apply NoDup_cons in Hnd as [Hv0 Hnd]. cbn [dispatch_seq].
  rewrite <- (Hv v0) by left.
  destruct (voxel_view W1 v0) as [y|]; [|done].
  destruct (fit_pixel_fixed E self cp y x) as [y' [p|]]; [|done].
  destruct (IH (write_series W1 v0 y') (write_series W2 v0 y')
              (tr ++ [EvSolve v0]) Hnd) as [Hr Ht].
  { intros v Hin.
    rewrite !voxel_view_write_series_ne by (intros ->; done).
    apply Hv. by right. }
  destruct (dispatch_seq E self cp x vs (write_series W1 v0 y') _)
    as [[Wa tra] ra].
  destruct (dispatch_seq E self cp x vs (write_series W2 v0 y') _)
    as [[Wb trb] rb].
  simpl in *. by subst.
Qed.

Lemma fit_volume_ext E self W1 W2 m3 x pools min_r2 :
  corner W1 = corner W2 →
  (∀ v, v ∈ nonzero m3 → voxel_view W1 v = voxel_view W2 v) →
  (fit_volume E self W1 m3 x pools min_r2).2
    = (fit_volume E self W2 m3 x pools min_r2).2.
Proof.
  intros Hc Hv. unfold fit_volume. rewrite Hc.
  destruct (corner W2) as [y0|]; [|done].
  destruct (curve_fit E (fit_function self) x y0 ∅) as [popt|]; [|done].
  set (cp := (length (get_function_parameter E (fit_function self)) =? 3)%nat).
  set (fm := full (length popt :: shape m3) NaN).
  set (rm := zeros (shape m3)).
  pose proof (NoDup_nonzero m3) as Hnd.
  assert (∀ Wa Wb tra trb rs,
    (∀ v p, (v, Some p) ∈ zip (nonzero m3) rs →
            voxel_view Wa v = voxel_view Wb v) →
    (aggregate E self x min_r2 (zip (nonzero m3) rs) Wa tra fm rm).2
    = (aggregate E self x min_r2 (zip (nonzero m3) rs) Wb trb fm rm).2)
    as Hagg.
  { intros Wa Wb tra trb rs Hviews.
    apply (aggregate_view_equiv E self x min_r2 (zip (nonzero m3) rs)
             Wa Wb tra trb fm rm); [by apply NoDup_fst_zip|].
    intros v p Hin. unfold view_equiv. rewrite (Hviews v p Hin).
    by destruct (voxel_view Wb v). }
  destruct (pools =? 0)%Z.
  - destruct (dispatch_seq_ext E self cp x (nonzero m3) W1 W2
                [EvReference y0] Hnd Hv) as [Hr _].
    destruct (dispatch_seq E self cp x (nonzero m3) W1 [EvReference y0])
      as [[Wa tra] ra] eqn:H1.
    destruct (dispatch_seq E self cp x (nonzero m3) W2 [EvReference y0])
      as [[Wb trb] rb] eqn:H2.
    simpl in Hr. subst rb. destruct ra as [rs|]; [|done].
    destruct (dispatch_seq_spec _ _ _ _ _ _ _ _ _ _ Hnd H1) as [_ Ha].
    destruct (dispatch_seq_spec _ _ _ _ _ _ _ _ _ _ Hnd H2) as [_ Hb].
    destruct (Ha eq_refl) as [Ha' _]. destruct (Hb eq_refl) as [Hb' _].
    apply Hagg. intros v p Hin%elem_of_zip_l.
    by rewrite (Ha' v Hin), (Hb' v Hin), (Hv v Hin).
  - unfold dispatch_pool. destruct (pools <? 0)%Z; [done|].
    rewrite (rmapM_ext_in (voxel_view W1) (voxel_view W2) _ Hv).
    destruct (rmapM (voxel_view W2) (nonzero m3)) as [[|y ys]|]; [..|done].
    + apply Hagg. intros v p Hin%elem_of_zip_l. by apply Hv.
    + destruct (picklable (fit_function self)); [|done].
      destruct (rmapM _ (y :: ys)) as [rs|]; [|done].
      apply Hagg. intros v p Hin%elem_of_zip_l. by apply Hv.
Qed.

(** X27.  The result of a fit depends on the volume only through the
    reference series [dicom[:, 0, 0, 0]] and the series of the non-zero
    voxels of the mask: two volumes that agree there give the same maps,
    or the same exception, whatever they hold elsewhere. *)
Theorem fit_reads_only_masked_voxels E self heap1 dicom1 heap2 dicom2 mask x
    pools min_r2 W1 W2 m3 :
  check_shapes (heap1 !!! dicom1) mask x = Ok (W1, m3) →
  check_shapes (heap2 !!! dicom2) mask x = Ok (W2, m3) →
  corner W1 = corner W2 →
  (∀ v, v ∈ nonzero m3 → voxel_view W1 v = voxel_view W2 v) →
  fit_outcome E self heap1 dicom1 mask x pools min_r2
  = fit_outcome E self heap2 dicom2 mask x pools min_r2.
Proof.
  intros H1 H2 Hc Hv.
  destruct (fit_of_volume E self heap1 dicom1 mask x pools min_r2 W1 m3 H1)
    as [-> _].
  destruct (fit_of_volume E self heap2 dicom2 mask x pools min_r2 W2 m3 H2)
    as [-> _].
  by apply fit_volume_ext.
Qed.

Lemma fit_reads_only_masked_voxels_witness :
  fit_outcome line_library (fitting linear_model true)
    (heap_of (array_of [3; 1; 1; 3]%nat
                [Fin 1; Fin 2; Fin 7; Fin 3; Fin 4; Fin 7; Fin 5; Fin 8; Fin 7]))
    0%nat (array_of [1; 1; 3]%nat [Fin 0; Fin 1; Fin 0]) times3 0 NInf
  = fit_outcome line_library (fitting linear_model true)
      (heap_of (array_of [3; 1; 1; 3]%nat
                  [Fin 1; Fin 2; Fin 0; Fin 3; Fin 4; NaN; Fin 5; Fin 8; PInf]))
      0%nat (array_of [1; 1; 3]%nat [Fin 0; Fin 1; Fin 0]) times3 0 NInf.
Proof.
  apply (fit_reads_only_masked_voxels line_library
           (fitting linear_model true) _ 0%nat _ 0%nat
           (array_of [1; 1; 3]%nat [Fin 0; Fin 1; Fin 0]) times3 0 NInf
           (array_of [3; 1; 1; 3]%nat
              [Fin 1; Fin 2; Fin 7; Fin 3; Fin 4; Fin 7; Fin 5; Fin 8; Fin 7])
           (array_of [3; 1; 1; 3]%nat
              [Fin 1; Fin 2; Fin 0; Fin 3; Fin 4; NaN; Fin 5; Fin 8; PInf])
           (array_of [1; 1; 3]%nat [Fin 0; Fin 1; Fin 0])).
  - vm_compute; reflexivity.
  - vm_compute; reflexivity.
  - vm_compute; reflexivity.
  - intros v Hv. vm_compute in Hv.
    apply list_elem_of_singleton in Hv as ->. vm_compute; reflexivity.
Defined.

Lemma filter_ext_in {A} (P Q : A → Prop) `{∀ a, Decision (P a)}
    `{∀ a, Decision (Q a)} (l : list A) :
  (∀ a, a ∈ l → P a ↔ Q a) → filter P l = filter Q l.
Proof.
  induction l as [|a l IH]; intros Hl; [done|].
  rewrite !filter_cons.
  rewrite IH by (intros b Hb; apply Hl; by right).
  pose proof (Hl a ltac:(left)) as Ha.
  destruct (decide (P a)), (decide (Q a)); tauto.
Qed.

Lemma nonzero_ext m m' :
  shape m' = shape m →
  (∀ v, in_bounds (shape m) v = true →
        is_zero (get m' v) = is_zero (get m v)) →
  nonzero m' = nonzero m.
Proof.
  intros Hs Hz. unfold nonzero. rewrite Hs.
  apply filter_ext_in. intros v Hv%elem_of_indices. by rewrite Hz.
Qed.

Lemma fit_volume_mask_ext E self W m m' x pools min_r2 :
  shape m' = shape m → nonzero m' = nonzero m →
  fit_volume E self W m' x pools min_r2 = fit_volume E self W m x pools min_r2.
Proof. intros Hs Hn. unfold fit_volume. by rewrite Hs, Hn. Qed.

(** X28.  The mask matters only through its shape and through which of its
    cells are zero: two masks of the same shape that are zero at the same
    places give the same run, with the same maps, events and heap; the
    values of the non-zero cells, labels or NaN, play no part. *)
Theorem mask_matters_through_zero_pattern E self heap dicom mask mask' x
    pools min_r2 :
  shape mask' = shape mask →
  (∀ v, in_bounds (shape mask) v = true →
        is_zero (get mask' v) = is_zero (get mask v)) →
  fit E self heap dicom mask' x pools min_r2
  = fit E self heap dicom mask x pools min_r2.
Proof.
  intros Hs Hz. unfold fit, check_shapes, ndim. rewrite Hs.
  destruct (assert _); [|done]. cbn [mbind result_bind].
  destruct (Nat.eqb_spec (length (shape mask)) 2) as [H2|H2].
  - destruct (shape (expand_dims (heap !!! dicom) 3)) as [|T sp]; [done|].
    cbn [mbind result_bind]. destruct (assert _); [|done].
    cbn [mbind result_bind].
    rewrite (fit_volume_mask_ext E self _ (expand_dims mask 2)
               (expand_dims mask' 2)); [done|..].
    + unfold expand_dims. cbn [shape]. by rewrite Hs.
    + apply nonzero_ext; [unfold expand_dims; cbn [shape]; by rewrite Hs|].
      intros v Hv. cbn [expand_dims shape] in Hv.
      destruct (shape mask) as [|n1 [|n2 [|n3 sh]]] eqn:Hsh;
        simpl in H2; try lia.
      destruct v as [|i [|j [|k [|l v]]]]; cbn in Hv;
        rewrite ?andb_false_r in Hv; try done. apply andb_true_iff in Hv as [Hi Hv].
      apply andb_true_iff in Hv as [Hj Hv].
      apply andb_true_iff in Hv as [Hk _].
      apply Nat.leb_le in Hk. assert (k = 0%nat) as -> by lia.
      change [i; j; 0%nat] with (insert_at 2 0%nat [i; j]).
      rewrite !get_expand_dims. apply Hz. cbn.
      by rewrite Hi, Hj.
  - destruct (shape (heap !!! dicom)) as [|T sp]; [done|].
    cbn [mbind result_bind]. destruct (assert _); [|done].
    cbn [mbind result_bind].
    rewrite (fit_volume_mask_ext E self _ mask mask'); [done|done|].
    by apply nonzero_ext.
Qed.

Lemma mask_matters_through_zero_pattern_witness :
  fit line_library (fitting linear_model false) (heap_of volume_a)
    0%nat (array_of [1; 1; 2]%nat [Fin 0; NaN]) times3 0 NInf
  = fit line_library (fitting linear_model false)
      (heap_of volume_a) 0%nat mask_b times3 0 NInf.
Proof.
  apply mask_matters_through_zero_pattern; [reflexivity|].
  intros v Hv%elem_of_indices. vm_compute in Hv.
  apply elem_of_cons in Hv as [->|Hv]; [vm_compute; reflexivity|].
  apply list_elem_of_singleton in Hv as ->. vm_compute; reflexivity.
Defined.

(** ** Preconditions of [fit] and the promotion of a 2-D pair (C7) *)

(** C7.  A volume whose leading axis has not the length of [x], or a mask
    whose rank is not the rank of the volume minus one, makes [fit] raise
    an [AssertionError] before the reference fit and before any voxel is
    handed to the solver, so nothing is returned.  When both conditions
    hold the assertions pass, and the engine runs on the pair itself or,
    for a 2-D mask, on the pair promoted to unit depth: the mask gets a
    third axis of length one and the volume a fourth, the pixel [(i, j)]
    becomes the voxel [(i, j, 0)] with the same mask value and the same
    series, and the non-zero voxels of the promoted mask are exactly the
    non-zero pixels.  A run on a 2-D pair is the run on the promoted pair;
    when it returns, the maps have the unit-depth 3-D shape and hold at
    [(i, j, 0)], for every non-zero pixel [(i, j)], what the solver and
    the evaluator give on the series of that pixel. *)
Theorem fit_preconditions E self heap dicom mask x pools min_r2 :
  (head (shape (heap !!! dicom)) ≠ Some (length x) ∨
   Z.of_nat (ndim mask) ≠ (Z.of_nat (ndim (heap !!! dicom)) - 1)%Z →
   fit_outcome E self heap dicom mask x pools min_r2 = Raise AssertionError ∧
   fit_events E self heap dicom mask x pools min_r2 = []) ∧
  (head (shape (heap !!! dicom)) = Some (length x) →
   Z.of_nat (ndim mask) = (Z.of_nat (ndim (heap !!! dicom)) - 1)%Z →
   ∃ W m3,
     (W, m3) = (if (ndim mask =? 2)%nat
                then (expand_dims (heap !!! dicom) 3, expand_dims mask 2)
                else (heap !!! dicom, mask)) ∧
     check_shapes (heap !!! dicom) mask x = Ok (W, m3) ∧
     fit_outcome E self heap dicom mask x pools min_r2
       = (fit_volume E self W m3 x pools min_r2).2 ∧
     fit_events E self heap dicom mask x pools min_r2
       = (fit_volume E self W m3 x pools min_r2).1.2) ∧
  (ndim mask = 2%nat →
   shape (expand_dims mask 2) = shape mask ++ [1%nat] ∧
   (ndim (heap !!! dicom) = 3%nat →
    shape (expand_dims (heap !!! dicom) 3)
      = shape (heap !!! dicom) ++ [1%nat]) ∧
   (∀ i j, get (expand_dims mask 2) [i; j; 0%nat] = get mask [i; j]) ∧
   (∀ t i j, get (expand_dims (heap !!! dicom) 3) [t; i; j; 0%nat]
             = get (heap !!! dicom) [t; i; j]) ∧
   (∀ v, v ∈ nonzero (expand_dims mask 2) ↔
         ∃ i j, v = [i; j; 0%nat] ∧ [i; j] ∈ nonzero mask) ∧
   (∀ heap3 dicom3,
      heap3 !!! dicom3 = expand_dims (heap !!! dicom) 3 →
      fit_outcome E self heap3 dicom3 (expand_dims mask 2) x pools min_r2 =
        fit_outcome E self heap dicom mask x pools min_r2 ∧
      fit_events E self heap3 dicom3 (expand_dims mask 2) x pools min_r2 =
        fit_events E self heap dicom mask x pools min_r2) ∧
   (∀ fm rm,
      fit_outcome E self heap dicom mask x pools min_r2 = Ok (fm, rm) →
      shape rm = shape mask ++ [1%nat] ∧
      tail (shape fm) = shape mask ++ [1%nat] ∧
      ∀ i j, [i; j] ∈ nonzero mask →
        match (fit_pixel_fixed E self
                 (length (get_function_parameter E (fit_function self))
                  =? 3)%nat
                 ((λ t, get (heap !!! dicom) [t; i; j]) <$> seq 0 (length x))
                 x).2 with
        | Ok None =>
            get rm [i; j; 0%nat] = zero ∧
            ∀ n, get fm [n; i; j; 0%nat] = NaN
        | Ok (Some p) =>
            ∃ r2,
              (calculate_r2 E
                 ((λ t, get (heap !!! dicom) [t; i; j])
                    <$> seq 0 (length x))
                 (fit_function self) p x (normalize self)).2 = Ok r2 ∧
              get rm [i; j; 0%nat] = r2 ∧
              ∀ n, get fm [n; i; j; 0%nat] =
                   if gtb r2 min_r2 then default NaN (p !! n) else NaN
        | Raise _ => False
        end)).
Proof.
  split_and!.
  - intros H. unfold fit_outcome, fit_events, fit.
    assert (check_shapes (heap !!! dicom) mask x = Raise AssertionError) as ->.
    { destruct H; [by apply check_shapes_length|by apply check_shapes_rank]. }
    done.
  - intros Hh Hr.
    pose proof (check_shapes_ok _ _ _ Hh Hr) as Hcs.
    destruct (if (ndim mask =? 2)%nat then _ else _) as [W m3] eqn:Hp.
    exists W, m3. split; [done|]. split; [done|].
    by apply fit_of_volume.
  - intros H2.
    assert (shape (expand_dims mask 2) = shape mask ++ [1%nat]) as Hsm.
    { by apply insert_at_end. }
    split_and!.
    + done.
    + intros H3. by apply insert_at_end.
    + intros i j. apply (get_expand_dims mask 2 [i; j]).
    + intros t i j. apply (get_expand_dims (heap !!! dicom) 3 [t; i; j]).
    + intros v. split.
      * intros Hv.
        destruct (nonzero_expand_dims_inv mask v H2 Hv) as (i & j & ->).
        exists i, j. split; [done|]. by apply nonzero_expand_dims.
      * intros (i & j & -> & Hij). by apply nonzero_expand_dims.
    + intros heap3 dicom3 H3. unfold fit_outcome, fit_events, fit.
      rewrite H3, check_shapes_promoted by done.
      destruct (check_shapes (heap !!! dicom) mask x) as [[W m3]|]; [|done].
      destruct (fit_volume E self W m3 x pools min_r2) as [[W' tr] r]. done.
    + intros fm rm Hfit.
      destruct (check_shapes (heap !!! dicom) mask x) as [[W m3]|] eqn:Hcs.
      2:{ unfold fit_outcome, fit in Hfit. by rewrite Hcs in Hfit. }
      pose proof (check_shapes_head _ _ _ _ _ Hcs) as Hhead.
      destruct (check_shapes_ok_2d _ _ _ _ _ H2 Hcs) as (-> & -> & _ & _).
      destruct (fit_outcome_volume _ _ _ _ _ _ _ _ _ _ _ Hcs Hfit)
        as [W' Hvol].
      destruct (fit_volume_shapes _ _ _ _ _ _ _ _ _ _ _ Hvol) as [Hrm Hfm].
      rewrite Hsm in Hrm, Hfm. split_and!; [done|done|].
      intros i j Hij.
      assert ([i; j; 0%nat] ∈ nonzero (expand_dims mask 2)) as Hv
        by by apply nonzero_expand_dims.
      destruct (fit_volume_voxel _ _ _ _ _ _ _ _ _ _ _ _ Hvol Hv)
        as (y & Hy & Hcase).
      destruct (voxel_view_expand_dims _ _ _ _ Hy) as (T & HT & ->).
      rewrite Hhead in HT. injection HT as <-. exact Hcase.
Qed.

Lemma fit_preconditions_witness :
  (head (shape volume_a) ≠ Some (length [Fin 0; Fin 1]) ∧
   fit_outcome line_library (fitting linear_model false)
     (heap_of volume_a) 0%nat mask_a [Fin 0; Fin 1] 0 NInf
     = Raise AssertionError ∧
   fit_events line_library (fitting linear_model false)
     (heap_of volume_a) 0%nat mask_a [Fin 0; Fin 1] 0 NInf = []) ∧
  check_shapes volume_2d mask_2d times3
    = Ok (expand_dims volume_2d 3, expand_dims mask_2d 2) ∧
  ∃ fm rm,
    fit_outcome line_library (fitting linear_model false)
      (heap_of volume_2d) 0%nat mask_2d times3 0 NInf = Ok (fm, rm) ∧
    shape rm = [1; 2; 1]%nat ∧
    get rm [0; 0; 0]%nat = Fin 1 ∧
    get rm [0; 1; 0]%nat = Fin (23 # 56) ∧
    get fm [0; 0; 1; 0]%nat = Fin 2 ∧
    get fm [1; 0; 1; 0]%nat = Fin 1.
Proof.
  pose proof (fit_preconditions line_library (fitting linear_model false)
                (heap_of volume_a) 0%nat mask_a [Fin 0; Fin 1] 0 NInf)
    as (Hbad & _ & _).
  pose proof (fit_preconditions line_library (fitting linear_model false)
                (heap_of volume_2d) 0%nat mask_2d times3 0 NInf)
    as (_ & Hgood & H2d).
  assert (heap_of volume_a !!! 0%nat = volume_a) as Ha
    by (vm_compute; reflexivity).
  assert (heap_of volume_2d !!! 0%nat = volume_2d) as Hd
    by (vm_compute; reflexivity).
  rewrite Ha in Hbad. rewrite Hd in Hgood, H2d.
  assert (head (shape volume_a) ≠ Some (length [Fin 0; Fin 1])) as Hne
    by (vm_compute; intros [=]).
  split_and!.
  - exact Hne.
  - apply Hbad. by left.
  - apply Hbad. by left.
  - destruct (Hgood eq_refl eq_refl) as (W & m3 & Hp & Hcs & _).
    change (ndim mask_2d =? 2)%nat with true in Hp. cbv iota in Hp.
    injection Hp as -> ->. exact Hcs.
  - eexists _, _.
    assert (fit_outcome line_library (fitting linear_model false)
              (heap_of volume_2d) 0%nat mask_2d times3 0 NInf = Ok (_, _))
      as Hfit by (vm_compute; reflexivity).
    split; [exact Hfit|].
    destruct (H2d eq_refl) as (_ & _ & _ & _ & _ & _ & Hmaps).
    destruct (Hmaps _ _ Hfit) as (Hrm & _ & Hpix).
    split; [exact Hrm|].
    assert ([0; 0]%nat ∈ nonzero mask_2d) as H00 by (vm_compute; left).
    assert ([0; 1]%nat ∈ nonzero mask_2d) as H01
      by (vm_compute; right; left).
    pose proof (Hpix 0%nat 0%nat H00) as P0.
    pose proof (Hpix 0%nat 1%nat H01) as P1.
    vm_compute in P0. vm_compute in P1.
    destruct P0 as (r0 & [= <-] & Hr0 & _).
    destruct P1 as (r1 & [= <-] & Hr1 & Hf1).
    split_and!.
    + exact Hr0.
    + exact Hr1.
    + exact (Hf1 0%nat).
    + exact (Hf1 1%nat).
Defined.
